(** * Tabu search over TSP tours and drone/truck routes

    A shallow embedding of the solution representations, neighbourhood
    moves, tabu bookkeeping and D2D timing code of the tabu-search
    repository, together with the properties its specification states.

    Conventions used throughout.
    - Python [float] values are idealised as real numbers ([R]); sums and
      products are exact.
    - A Python exception, and a loop that does not finish within the given
      fuel, is the result [None].
    - City and customer indices are natural numbers (the code only produces
      them with [range]); tuples and lists are lists. *)

From Stdlib Require Import Reals Lra Lia ZArith.
From stdpp Require Import base option list gmap sets strings.

Set Default Proof Using "Type".

(** Comparisons of real numbers as decisions, for the tests of the code. *)
#[global] Instance Rlt_decision : RelDecision Rlt := Rlt_dec.
#[global] Instance Rle_decision : RelDecision Rle := Rle_dec.
#[global] Instance R_eq_decision : EqDecision R := Req_dec_T.
#[global] Instance R_inhabited : Inhabited R := populate 0%R.

(** ** Tabu list manager ([_BasePathNeighborhood]) *)

Module Tabu.
Section tabu.
Context {T : Type} `{Countable T}.

(** The three class attributes of a tabu-managed neighbourhood class. *)
Record TabuState := mkTabu {
  _maxlen : Z;
  _tabu_list : list T;
  _tabu_set : gset T;
}.

(** Class-body defaults: [_maxlen = 100], an empty deque, an empty set. *)
Definition initial_tabu : TabuState := mkTabu 100 [] ∅.

(** The loop of [remove_from_tabu]:
    [while len(_tabu_set) > _maxlen: _tabu_set.remove(_tabu_list.popleft())],
    the [KeyError] of [remove] being swallowed.  Each round pops the head of
    the deque, so the recursion is on the deque; [popleft] on an empty deque
    raises [IndexError], which nothing catches. *)
Fixpoint evict (maxlen : Z) (l : list T) (s : gset T) : option (list T * gset T) :=
  if decide (maxlen < Z.of_nat (size s))%Z then
    match l with
    | [] => None
    | x :: l' => evict maxlen l' (s ∖ {[x]})
    end
  else Some (l, s).

Definition remove_from_tabu (st : TabuState) : option TabuState :=
  '(l, s) ← evict (_maxlen st) (_tabu_list st) (_tabu_set st);
  Some (mkTabu (_maxlen st) l s).

Definition add_to_tabu (st : TabuState) (target : T) : option TabuState :=
  remove_from_tabu
    (mkTabu (_maxlen st) (_tabu_list st ++ [target]) ({[target]} ∪ _tabu_set st)).

Definition reset_tabu (st : TabuState) (maxlen : Z) : option TabuState :=
  remove_from_tabu (mkTabu maxlen (_tabu_list st) (_tabu_set st)).

(** A client of the class: a call of [add_to_tabu] or of [reset_tabu]. *)
Inductive call := Add (target : T) | Reset (maxlen : Z).

Definition step (st : TabuState) (c : call) : option TabuState :=
  match c with
  | Add t => add_to_tabu st t
  | Reset m => reset_tabu st m
  end.

Fixpoint run (st : TabuState) (cs : list call) : option TabuState :=
  match cs with
  | [] => Some st
  | c :: cs' => st' ← step st c; run st' cs'
  end.

(** Capacities handed to [reset_tabu] are not negative. *)
Definition capacity_ok (c : call) : Prop :=
  match c with Reset m => (0 ≤ m)%Z | Add _ => True end.

(** Every [add_to_tabu] of the sequence adds a signature that is not in the
    tabu set at that moment (what [find_best_candidate] of the swap and
    shift neighbourhoods guarantees by its [pair not in _tabu_set] test). *)
Fixpoint fresh_adds (st : TabuState) (cs : list call) : Prop :=
  match cs with
  | [] => True
  | c :: cs' =>
      match c with Add t => t ∉ _tabu_set st | Reset _ => True end ∧
      match step st c with
      | Some st' => fresh_adds st' cs'
      | None => True
      end
  end.

(** The invariant between calls. *)
Record tabu_inv (st : TabuState) : Prop := {
  inv_bound : (Z.of_nat (size (_tabu_set st)) ≤ _maxlen st)%Z;
  inv_mirror : ∀ x, x ∈ _tabu_set st → x ∈ _tabu_list st;
}.

(** The stronger invariant kept by fresh additions. *)
Record tabu_exact (st : TabuState) : Prop := {
  exact_nodup : NoDup (_tabu_list st);
  exact_mirror : ∀ x, x ∈ _tabu_list st → x ∈ _tabu_set st;
}.

Lemma evict_spec (maxlen : Z) (l : list T) (s : gset T) :
  (0 ≤ maxlen)%Z →
  (∀ x, x ∈ s → x ∈ l) →
  ∃ l' s', evict maxlen l s = Some (l', s') ∧
    (Z.of_nat (size s') ≤ maxlen)%Z ∧
    (∀ x, x ∈ s' → x ∈ l') ∧
    (NoDup l → (∀ x, x ∈ l → x ∈ s) → NoDup l' ∧ ∀ x, x ∈ l' → x ∈ s').
Proof.
  intros Hm. revert s. induction l as [|a l IH]; intros s Hsub; simpl.
  - assert (s = ∅) as ->.
    { apply set_eq. intros x. split; [|set_solver].
      intros Hx. apply Hsub in Hx. by apply elem_of_nil in Hx. }
    rewrite size_empty. case_decide; [lia|].
    exists [], ∅. rewrite size_empty. repeat split; auto; lia.
  - case_decide as Hsz.
    + destruct (IH (s ∖ {[a]})) as (l' & s' & Hev & Hb & Hmir & Hex).
      { intros x Hx. apply elem_of_difference in Hx as [Hx Hne].
        apply Hsub in Hx. apply elem_of_cons in Hx as [->|Hx]; [|done].
        exfalso. apply Hne. by apply elem_of_singleton. }
      exists l', s'. do 3 (split; [done|]).
      intros Hnd Hall. apply NoDup_cons in Hnd as [Hna Hnd]. apply Hex; [done|].
      intros x Hx. apply elem_of_difference. split.
      * apply Hall. by right.
      * intros Hxa. apply elem_of_singleton in Hxa. by subst.
    + exists (a :: l), s. repeat split; auto. lia.
Qed.

Lemma add_to_tabu_inv (st : TabuState) (t : T) :
  tabu_inv st → (0 ≤ _maxlen st)%Z →
  ∃ st', add_to_tabu st t = Some st' ∧ tabu_inv st' ∧ _maxlen st' = _maxlen st ∧
    (tabu_exact st → t ∉ _tabu_set st → tabu_exact st').
Proof.
  intros [Hb Hmir] Hm. unfold add_to_tabu, remove_from_tabu. simpl.
  destruct (evict_spec (_maxlen st) (_tabu_list st ++ [t]) ({[t]} ∪ _tabu_set st))
    as (l' & s' & Hev & Hb' & Hmir' & Hex); [done| |].
  { intros x Hx. apply elem_of_app. apply elem_of_union in Hx as [Hx|Hx].
    - right. apply elem_of_singleton in Hx. subst. by left.
    - left. by apply Hmir. }
  rewrite Hev. simpl. eexists. split; [done|]. split; [by constructor|].
  split; [done|]. intros [Hnd Hall] Hfresh.
  destruct Hex as [Hnd' Hall'].
  - apply NoDup_app. repeat split; [done| |apply NoDup_singleton].
    intros x Hx Hxt. apply list_elem_of_singleton in Hxt. subst. by apply Hfresh, Hall.
  - intros x Hx. apply elem_of_app in Hx as [Hx|Hx].
    + apply elem_of_union. right. by apply Hall.
    + apply list_elem_of_singleton in Hx. subst. apply elem_of_union. left.
      by apply elem_of_singleton.
  - by constructor.
Qed.

Lemma reset_tabu_inv (st : TabuState) (m : Z) :
  tabu_inv st → (0 ≤ m)%Z →
  ∃ st', reset_tabu st m = Some st' ∧ tabu_inv st' ∧ _maxlen st' = m ∧
    (tabu_exact st → tabu_exact st').
Proof.
  intros [Hb Hmir] Hm. unfold reset_tabu, remove_from_tabu. simpl.
  destruct (evict_spec m (_tabu_list st) (_tabu_set st))
    as (l' & s' & Hev & Hb' & Hmir' & Hex); [done..|].
  rewrite Hev. simpl. eexists. split; [done|]. split; [by constructor|].
  split; [done|]. intros [Hnd Hall]. destruct Hex as [Hnd' Hall']; [done..|].
  by constructor.
Qed.

Lemma run_inv (cs : list call) (st : TabuState) :
  tabu_inv st → (0 ≤ _maxlen st)%Z → Forall capacity_ok cs →
  ∃ st', run st cs = Some st' ∧ tabu_inv st' ∧
    (tabu_exact st → fresh_adds st cs → tabu_exact st').
Proof.
  revert st. induction cs as [|c cs IH]; intros st Hinv Hm Hcs; simpl.
  - exists st. auto.
  - apply Forall_cons in Hcs as [Hc Hcs]. destruct c as [t|m]; simpl in *.
    + destruct (add_to_tabu_inv st t Hinv Hm) as (st1 & -> & Hinv1 & Hm1 & Hex1).
      simpl. destruct (IH st1 Hinv1) as (st' & Hrun & Hinv' & Hex'); [lia|done|].
      exists st'. split; [done|]. split; [done|].
      intros Hex [Hfr Hrest]. apply Hex'; auto.
    + destruct (reset_tabu_inv st m Hinv Hc) as (st1 & -> & Hinv1 & Hm1 & Hex1).
      simpl. destruct (IH st1 Hinv1) as (st' & Hrun & Hinv' & Hex'); [lia|done|].
      exists st'. split; [done|]. split; [done|].
      intros Hex [_ Hrest]. apply Hex'; auto.
Qed.

Lemma initial_tabu_inv : tabu_inv initial_tabu ∧ tabu_exact initial_tabu.
Proof.
  split; constructor; unfold initial_tabu; cbn [_tabu_set _tabu_list _maxlen].
  - rewrite size_empty. lia.
  - set_solver.
  - constructor.
  - intros x Hx. by apply elem_of_nil in Hx.
Qed.

Lemma fresh_adds_take (k : nat) (cs : list call) (st : TabuState) :
  fresh_adds st cs → fresh_adds st (take k cs).
Proof.
  revert k st. induction cs as [|c cs IH]; intros [|k] st; simpl; auto.
  intros [Hc Hrest]. split; [done|]. destruct (step st c); auto.
Qed.

(** C5 (amended).  From the class defaults, every sequence of
    [add_to_tabu] and [reset_tabu] calls with non-negative capacities runs
    without an exception, and after each prefix of it the size of the tabu
    set is at most [_maxlen] and every member of the set is in the FIFO;
    when every addition is of a signature not in the set at that moment,
    the FIFO and the set have the same members. *)
Theorem tabu_bound_and_mirror (cs : list call) (k : nat) :
  Forall capacity_ok cs →
  ∃ st, run initial_tabu (take k cs) = Some st ∧
    (Z.of_nat (size (_tabu_set st)) ≤ _maxlen st)%Z ∧
    (∀ x, x ∈ _tabu_set st → x ∈ _tabu_list st) ∧
    (fresh_adds initial_tabu cs → ∀ x, x ∈ _tabu_list st ↔ x ∈ _tabu_set st).
Proof.
  intros Hcs. destruct initial_tabu_inv as [Hinv Hex].
  destruct (run_inv (take k cs) initial_tabu Hinv) as (st & Hrun & [Hb Hmir] & Hexact).
  - simpl. lia.
  - by apply Forall_take.
  - exists st. do 3 (split; [done|]). intros Hfresh x. split; [|apply Hmir].
    apply Hexact; [done|]. by apply fresh_adds_take.
Qed.

(** *** Eviction in detail *)

(** With a negative capacity the loop never stops by itself: it empties
    the deque and [popleft] raises [IndexError]. *)
Lemma evict_negative (maxlen : Z) (l : list T) (s : gset T) :
  (maxlen < 0)%Z → evict maxlen l s = None.
Proof.
  intros Hm. revert s. induction l as [|a l IH]; intros s; simpl.
  - case_decide; [done|lia].
  - case_decide; [apply IH|lia].
Qed.

(** X6.  With a negative capacity [reset_tabu] raises, whatever the state
    (the loop of [remove_from_tabu] empties the deque and [popleft] raises
    [IndexError]), and so does [add_to_tabu] in a state whose capacity is
    negative. *)
Theorem negative_capacity_raises (st : TabuState) (maxlen : Z) (target : T) :
  (maxlen < 0)%Z →
  reset_tabu st maxlen = None ∧
  add_to_tabu (mkTabu maxlen (_tabu_list st) (_tabu_set st)) target = None.
Proof.
  intros Hm. unfold reset_tabu, add_to_tabu, remove_from_tabu.
  cbn [_maxlen _tabu_list _tabu_set]. by rewrite !evict_negative.
Qed.

(** On a deque without repetition that lists the set, eviction keeps the
    last [maxlen] entries. *)
Lemma evict_window (maxlen : Z) (l : list T) :
  (0 ≤ maxlen)%Z → NoDup l →
  evict maxlen l (list_to_set l) =
  Some (drop (length l - Z.to_nat maxlen) l,
        list_to_set (drop (length l - Z.to_nat maxlen) l)).
Proof.
  intros Hm. induction l as [|a l IH]; intros Hnd; simpl.
  - case_decide as Hsz; [|done]. exfalso. revert Hsz.
    change (¬ (maxlen < Z.of_nat (size (∅ : gset T)))%Z). rewrite size_empty. lia.
  - apply NoDup_cons in Hnd as [Ha Hnd].
    rewrite size_union, size_singleton, size_list_to_set by (done || set_solver).
    case_decide as Hsz.
    + replace (({[a]} ∪ list_to_set l) ∖ {[a]} : gset T) with (list_to_set l : gset T)
        by set_solver.
      rewrite IH by done.
      replace (S (length l) - Z.to_nat maxlen)%nat
        with (S (length l - Z.to_nat maxlen)) by lia.
      done.
    + replace (S (length l) - Z.to_nat maxlen)%nat with 0%nat by lia. done.
Qed.

(** X7.  In a state where the deque has no repetition and lists exactly
    the set, [add_to_tabu] of a signature that is not tabu leaves as deque
    the last [_maxlen] entries of the old deque followed by the new
    signature, and as set the entries of that deque: the oldest signatures
    are the ones evicted.  The new signature is tabu afterwards exactly when
    the capacity is at least 1. *)
Theorem add_to_tabu_window (st : TabuState) (target : T) :
  tabu_inv st → tabu_exact st → (0 ≤ _maxlen st)%Z → target ∉ _tabu_set st →
  ∃ st', add_to_tabu st target = Some st' ∧ _maxlen st' = _maxlen st ∧
    _tabu_list st' =
      drop (length (_tabu_list st) + 1 - Z.to_nat (_maxlen st)) (_tabu_list st ++ [target]) ∧
    _tabu_set st' = list_to_set (_tabu_list st') ∧
    (target ∈ _tabu_set st' ↔ (1 ≤ _maxlen st)%Z).
Proof.
  intros [_ Hmir] [Hnd Hall] Hm Hfresh. unfold add_to_tabu, remove_from_tabu.
  cbn [_maxlen _tabu_list _tabu_set].
  replace ({[target]} ∪ _tabu_set st) with (list_to_set (C := gset T) (_tabu_list st ++ [target])).
  - rewrite evict_window; [|done|].
    + cbn [mbind option_bind]. rewrite length_app. cbn [length].
      eexists. split; [done|]. cbn [_maxlen _tabu_list _tabu_set].
      do 3 (split; [done|]). rewrite elem_of_list_to_set.
      destruct (decide (1 ≤ _maxlen st)%Z) as [Hcap|Hcap].
      * split; [done|]. intros _. rewrite drop_app_le by lia.
        apply elem_of_app. right. by left.
      * split; [|done]. intros Hin. rewrite drop_ge in Hin.
        -- by apply elem_of_nil in Hin.
        -- rewrite length_app. cbn [length]. lia.
    + apply NoDup_app. split; [done|]. split; [|apply NoDup_singleton].
      intros x Hx Hxt. apply list_elem_of_singleton in Hxt as ->. by apply Hfresh, Hall.
  - apply set_eq. intros x. rewrite elem_of_list_to_set, elem_of_app, elem_of_union,
      list_elem_of_singleton, elem_of_singleton. split.
    + intros [Hx| ->]; [right; by apply Hall|by left].
    + intros [->|Hx]; [by right|left; by apply Hmir].
Qed.

(** X19.  In a state where the deque has no repetition and lists exactly
    the tabu set, [reset_tabu] with a capacity that is not negative sets the
    capacity and keeps the most recent signatures, as many as the new
    capacity allows; nothing is dropped when the capacity is not below the
    number of signatures. *)
Theorem reset_tabu_window (st : TabuState) (maxlen : Z) :
  tabu_inv st → tabu_exact st → (0 ≤ maxlen)%Z →
  ∃ st', reset_tabu st maxlen = Some st' ∧ _maxlen st' = maxlen ∧
    _tabu_list st' = drop (length (_tabu_list st) - Z.to_nat maxlen) (_tabu_list st) ∧
    _tabu_set st' = list_to_set (_tabu_list st') ∧
    ((Z.of_nat (length (_tabu_list st)) ≤ maxlen)%Z → _tabu_list st' = _tabu_list st).
Proof.
  intros [_ Hmir] [Hnd Hall] Hm. unfold reset_tabu, remove_from_tabu.
  cbn [_maxlen _tabu_list _tabu_set].
  replace (_tabu_set st) with (list_to_set (C := gset T) (_tabu_list st)).
  - rewrite evict_window by done. cbn [mbind option_bind].
    eexists. split; [done|]. cbn [_maxlen _tabu_list _tabu_set]. do 3 (split; [done|]).
    intros Hfits. replace (length (_tabu_list st) - Z.to_nat maxlen)%nat with 0%nat by lia.
    done.
  - apply set_eq. intros x. rewrite elem_of_list_to_set. split; [apply Hall|apply Hmir].
Qed.

End tabu.
Arguments TabuState T {_ _}.
Arguments call T : clear implicits.

(** Move signatures are pairs of city indices. *)
Definition signature : Type := nat * nat.

Lemma tabu_bound_and_mirror_witness :
  ∃ st : TabuState signature,
    run initial_tabu (take 3 [Add (0, 3); Reset 1; Add (1, 4)]) = Some st ∧
    (Z.of_nat (size (_tabu_set st)) ≤ _maxlen st)%Z ∧
    (∀ x, x ∈ _tabu_set st → x ∈ _tabu_list st) ∧
    (fresh_adds initial_tabu [Add (0, 3); Reset 1; Add (1, 4)] →
     ∀ x, x ∈ _tabu_list st ↔ x ∈ _tabu_set st).
Proof.
  apply (tabu_bound_and_mirror [Add (0, 3); Reset 1; Add (1, 4)] 3).
  repeat constructor. simpl. lia.
Defined.

(** C5 as stated fails: with capacity 1, adding the signature (0,3) twice and
    then (1,4) evicts (0,3) from the set while one copy of it stays in the
    FIFO, so the two membership tests disagree. *)
Lemma tabu_fifo_set_disagree :
  ∃ st : TabuState signature,
    run initial_tabu [Reset 1; Add (0, 3); Add (0, 3); Add (1, 4)] = Some st ∧
    (Z.of_nat (size (_tabu_set st)) ≤ _maxlen st)%Z ∧
    (0, 3) ∈ _tabu_list st ∧ (0, 3) ∉ _tabu_set st.
Proof.
  exists (mkTabu 1 [(0, 3); (1, 4)] {[ (1, 4) ]}).
  split; [by vm_compute|]. split; [by vm_compute|]. split.
  - simpl. by left.
  - simpl. intros Hin. apply elem_of_singleton in Hin. discriminate.
Qed.

Lemma negative_capacity_raises_witness :
  reset_tabu (initial_tabu (T := signature)) (-1) = None ∧
  add_to_tabu (mkTabu (-1) (_tabu_list initial_tabu) (_tabu_set initial_tabu)) (0, 3) = None.
Proof. apply (negative_capacity_raises initial_tabu (-1) (0, 3)). lia. Defined.

Lemma add_to_tabu_window_witness :
  ∃ st' : TabuState signature,
    add_to_tabu initial_tabu (0, 3) = Some st' ∧
    _maxlen st' = _maxlen (initial_tabu (T := signature)) ∧
    _tabu_list st' =
      drop (length (_tabu_list (initial_tabu (T := signature))) + 1
            - Z.to_nat (_maxlen (initial_tabu (T := signature))))
           (_tabu_list initial_tabu ++ [(0, 3)]) ∧
    _tabu_set st' = list_to_set (_tabu_list st') ∧
    ((0, 3) ∈ _tabu_set st' ↔ (1 ≤ _maxlen (initial_tabu (T := signature)))%Z).
Proof.
  apply (add_to_tabu_window initial_tabu (0, 3)).
  - apply initial_tabu_inv.
  - apply initial_tabu_inv.
  - simpl. lia.
  - apply not_elem_of_empty.
Defined.

Lemma reset_tabu_window_witness :
  ∃ st' : TabuState signature,
    reset_tabu initial_tabu 5 = Some st' ∧ _maxlen st' = 5%Z ∧
    _tabu_list st' =
      drop (length (_tabu_list (initial_tabu (T := signature))) - Z.to_nat 5)
           (_tabu_list initial_tabu) ∧
    _tabu_set st' = list_to_set (_tabu_list st') ∧
    ((Z.of_nat (length (_tabu_list (initial_tabu (T := signature)))) ≤ 5)%Z →
     _tabu_list st' = _tabu_list initial_tabu).
Proof.
  apply (reset_tabu_window initial_tabu 5).
  - apply initial_tabu_inv.
  - apply initial_tabu_inv.
  - lia.
Defined.

End Tabu.

(** ** TSP path solutions and their neighbourhoods
    ([tsp/solutions.py], [ts/tsp/neighborhoods/reverse.py]) *)

Module TSP.

(** [PathSolution]: the successor and predecessor tuples and the memoized
    cost ([None] until [cost()] is first called or a move supplies it). *)
Record PathSolution := mkPath {
  after : list nat;
  before : list nat;
  __cost : option R;
}.

(** Python's [l[i] = v] on a list: [IndexError] out of range. *)
Definition setitem {A} (l : list A) (i : nat) (v : A) : option (list A) :=
  if decide (i < length l) then Some (<[i:=v]> l) else None.

(** [itertools.combinations(range(n), 2)], in its lexicographic order. *)
Definition combinations2 (n : nat) : list (nat * nat) :=
  i ← seq 0 n; (λ j, (i, j)) <$> seq (S i) (n - S i).

Section tsp.
(** The class attributes set by [import_problem]. *)
Variable dimension : nat.
Variable distances : list (list R).

Open Scope R_scope.

(** [distances[i][j]] *)
Definition dist (i j : nat) : option R := row ← distances !! i; row !! j.

(** The loop of [cost()]; the running sum starts from [0.0]. *)
Fixpoint cost_loop (fuel : nat) (after : list nat) (last current : nat) (result : R)
  : option R :=
  if decide (current = 0%nat) then
    d ← dist last current; Some (result + d)
  else
    match fuel with
    | O => None
    | S fuel' =>
        d ← dist last current;
        next ← after !! current;
        cost_loop fuel' after current next (result + d)
    end.

(** [PathSolution.cost]: the memoized cost, or the length of the walk from
    the depot along [after] (which is then memoized; the cache is not
    observable and is left out). *)
Definition cost (fuel : nat) (s : PathSolution) : option R :=
  match __cost s with
  | Some c => Some c
  | None => current ← after s !! 0%nat; cost_loop fuel (after s) 0%nat current 0
  end.

(** [PathSolution.get_path] *)
Fixpoint get_path_loop (fuel : nat) (after : list nat) (current : nat) (path : list nat)
  : option (list nat) :=
  if decide (current = 0%nat) then Some path
  else
    match fuel with
    | O => None
    | S fuel' =>
        next ← after !! current;
        get_path_loop fuel' after next (path ++ [current])
    end.

Definition get_path (fuel : nat) (s : PathSolution) : option (list nat) :=
  current ← after s !! 0%nat; get_path_loop fuel (after s) current [0%nat].

(** [SwapNeighborhood.swap] *)
Definition swap (fuel : nat) (solution : PathSolution) (x y : nat) : option PathSolution :=
  let before := before solution in
  let after := after solution in
  before_x ← before !! x;
  before_y ← before !! y;
  after_x ← after !! x;
  after_y ← after !! y;
  c ← cost fuel solution;
  d1 ← dist before_x y; d2 ← dist y after_x;
  d3 ← dist before_y x; d4 ← dist x after_y;
  d5 ← dist before_x x; d6 ← dist x after_x;
  d7 ← dist before_y y; d8 ← dist y after_y;
  let cost := c + d1 + d2 + d3 + d4 - d5 - d6 - d7 - d8 in
  before ← setitem before x before_y;
  before ← setitem before y before_x;
  after ← setitem after x after_y;
  after ← setitem after y after_x;
  after ← setitem after before_x y;
  before ← setitem before after_x y;
  after ← setitem after before_y x;
  before ← setitem before after_y x;
  Some (mkPath after before (Some cost)).

(** The test of [SwapNeighborhood.find_best_candidate] that makes the loop
    [continue]; [or] evaluates its operands left to right and stops at the
    first true one. *)
Definition swap_skipped (after : list nat) (first second : nat) : option bool :=
  af ← after !! first;
  if decide (af = second) then Some true else
  asd ← after !! second;
  if decide (asd = first) then Some true else
  aaf ← after !! af;
  if decide (aaf = second) then Some true else
  aas ← after !! asd;
  Some (bool_decide (aas = first)).

(** Modelled from the spec: the ordering [<] of solutions
    ([BaseSolution.__lt__], whose module [abc.py] is not among the sources)
    compares costs, the best candidate being the lowest-cost one. *)
Definition solution_lt (fuel : nat) (s1 s2 : PathSolution) : option bool :=
  c1 ← cost fuel s1; c2 ← cost fuel s2; Some (bool_decide (c1 < c2)).

(** One round of the loop of [SwapNeighborhood.find_best_candidate] on the
    pair [pr = (first, second)], with the loop variables [result], [min_pair]. *)
Definition swap_round (fuel : nat) (solution : PathSolution) (tabu_set : gset (nat * nat))
    (acc : option PathSolution * option (nat * nat)) (pr : nat * nat)
  : option (option PathSolution * option (nat * nat)) :=
  skipped ← swap_skipped (after solution) pr.1 pr.2;
  if (skipped : bool) then Some acc
  else if decide (pr ∈ tabu_set) then Some acc
  else
    swapped ← swap fuel solution pr.1 pr.2;
    match acc.1 with
    | None => Some (Some swapped, Some pr)
    | Some result =>
        lt ← solution_lt fuel swapped result;
        if (lt : bool) then Some (Some swapped, Some pr) else Some acc
    end.

Fixpoint swap_rounds (fuel : nat) (solution : PathSolution) (tabu_set : gset (nat * nat))
    (acc : option PathSolution * option (nat * nat)) (pairs : list (nat * nat))
  : option (option PathSolution * option (nat * nat)) :=
  match pairs with
  | [] => Some acc
  | pr :: pairs' =>
      acc' ← swap_round fuel solution tabu_set acc pr;
      swap_rounds fuel solution tabu_set acc' pairs'
  end.

(** [SwapNeighborhood.find_best_candidate]: the candidate returned and the
    tabu state of the class afterwards. *)
Definition find_best_candidate (fuel : nat) (solution : PathSolution)
    (tabu : Tabu.TabuState (nat * nat))
  : option (option PathSolution * Tabu.TabuState (nat * nat)) :=
  '(result, min_pair) ←
    swap_rounds fuel solution (Tabu._tabu_set tabu) (None, None) (combinations2 dimension);
  match min_pair with
  | Some pr => tabu' ← Tabu.add_to_tabu tabu pr; Some (result, tabu')
  | None => Some (result, tabu)
  end.

(** [SegmentShift.insert_after] *)
Definition insert_after (fuel : nat) (solution : PathSolution) (segment : list nat) (x : nat)
  : option PathSolution :=
  let before := before solution in
  let after := after solution in
  s0 ← head segment;
  sl ← last segment;
  before_segment ← before !! s0;
  after_segment ← after !! sl;
  after_x ← after !! x;
  c ← cost fuel solution;
  d1 ← dist before_segment after_segment;
  d2 ← dist x s0; d3 ← dist sl after_x;
  d4 ← dist before_segment s0; d5 ← dist sl after_segment;
  d6 ← dist x after_x;
  let cost := c + d1 + d2 + d3 - d4 - d5 - d6 in
  after ← setitem after before_segment after_segment;
  before ← setitem before after_segment before_segment;
  after ← setitem after x s0;
  before ← setitem before s0 x;
  after ← setitem after sl after_x;
  before ← setitem before after_x sl;
  Some (mkPath after before (Some cost)).

(** The segment built by the candidate loops of [SegmentShift] and
    [SegmentReverse]: [path[(start + d) % dimension]] for [d] in
    [range(segment_length)]. *)
Definition make_segment (path : list nat) (start segment_length : nat) : option (list nat) :=
  mapM (λ d, path !! ((start + d) `mod` dimension)%nat) (seq 0 segment_length).

(** The guard of [SegmentShift.find_best_candidate] on a target [index]:
    [index != before[segment[0]] and index != after[segment[-1]] and
     index not in segment]. *)
Definition shift_guard (solution : PathSolution) (segment : list nat) (index : nat)
  : option bool :=
  s0 ← head segment;
  before_segment ← before solution !! s0;
  if decide (index = before_segment) then Some false else
  sl ← last segment;
  after_segment ← after solution !! sl;
  if decide (index = after_segment) then Some false else
  Some (bool_decide (index ∉ segment)).

(** The loop [for index in segment: before[index], after[index] =
    after[index], before[index]] of [SegmentReverse.reverse]. *)
Fixpoint exchange (before after : list nat) (segment : list nat)
  : option (list nat * list nat) :=
  match segment with
  | [] => Some (before, after)
  | index :: segment' =>
      a ← after !! index;
      b ← before !! index;
      before' ← setitem before index a;
      after' ← setitem after index b;
      exchange before' after' segment'
  end.

(** [SegmentReverse.reverse].  Its solution class [TSPPathSolution] has the
    fields and the [cost()] of [PathSolution]. *)
Definition reverse (fuel : nat) (solution : PathSolution) (segment : list nat)
  : option PathSolution :=
  let before := before solution in
  let after := after solution in
  s0 ← head segment;
  sl ← last segment;
  before_segment ← before !! s0;
  after_segment ← after !! sl;
  c ← cost fuel solution;
  d1 ← dist before_segment sl; d2 ← dist s0 after_segment;
  d3 ← dist before_segment s0; d4 ← dist sl after_segment;
  let cost := c + d1 + d2 - d3 - d4 in
  '(before, after) ← exchange before after segment;
  before ← setitem before sl before_segment;
  after ← setitem after before_segment sl;
  before ← setitem before after_segment s0;
  after ← setitem after s0 after_segment;
  Some (mkPath after before (Some cost)).

(** *** The data-model invariant *)

(** [after] and [before] are inverse of each other. *)
Definition mutual_inverse (a b : list nat) : Prop :=
  ∀ i j, a !! i = Some j ↔ b !! j = Some i.

(** Following [after] from the depot comes back to the depot after the
    [dimension] cities, each met once. *)
Definition hamiltonian (s : PathSolution) : Prop :=
  ∃ fuel path, get_path fuel s = Some path ∧ path ≡ₚ seq 0 dimension.

Record tour (s : PathSolution) : Prop := {
  tour_after : length (after s) = dimension;
  tour_before : length (before s) = dimension;
  tour_inverse : mutual_inverse (after s) (before s);
  tour_cycle : hamiltonian s;
}.

(** The distance table is [dimension] by [dimension]. *)
Definition square : Prop :=
  length distances = dimension ∧ Forall (λ row, length row = dimension) distances.

(** ... and symmetric, as [import_problem] fills it. *)
Definition symmetric : Prop := ∀ i j, dist i j = dist j i.

(** The memoized cost, when there is one, is the length of the tour. *)
Definition cost_consistent (s : PathSolution) : Prop :=
  ∀ c, __cost s = Some c → cost dimension (mkPath (after s) (before s) None) = Some c.

(** *** Chains and rings: the cycle as a list *)

(** [chainR P l]: each element of [l] is related to the next one. *)
Fixpoint chainR (P : nat → nat → Prop) (l : list nat) : Prop :=
  match l with
  | u :: l' => match l' with v :: _ => P u v ∧ chainR P l' | [] => True end
  | [] => True
  end.

(** [v] follows [u]: both arrays say so. *)
Definition link (a b : list nat) (u v : nat) : Prop :=
  a !! u = Some v ∧ b !! v = Some u.

Definition follows (a : list nat) (u v : nat) : Prop := a !! u = Some v.

(** [p] lists the whole cycle once, from any of its cities. *)
Definition ring (a b : list nat) (p : list nat) : Prop :=
  NoDup p ∧ length a = length p ∧ length b = length p ∧
  ∃ h, head p = Some h ∧ chainR (link a b) (p ++ [h]).

Lemma chainR_cons2 P u v l : chainR P (u :: v :: l) ↔ P u v ∧ chainR P (v :: l).
Proof. done. Qed.

Lemma chainR_mid P l1 u l2 :
  chainR P (l1 ++ u :: l2) ↔ chainR P (l1 ++ [u]) ∧ chainR P (u :: l2).
Proof.
  induction l1 as [|w l1 IH]; [simpl; tauto|].
  destruct l1 as [|w' l1].
  - simpl. tauto.
  - change ((w :: w' :: l1) ++ u :: l2) with (w :: w' :: (l1 ++ u :: l2)).
    change ((w :: w' :: l1) ++ [u]) with (w :: w' :: (l1 ++ [u])).
    rewrite !chainR_cons2. simpl in IH. tauto.
Qed.

Lemma chainR_impl (P Q : nat → nat → Prop) l :
  (∀ u v, P u v → Q u v) → chainR P l → chainR Q l.
Proof.
  intros HPQ. induction l as [|u l IH]; [done|].
  destruct l as [|v l]; [done|]. rewrite !chainR_cons2. intros [? ?]. split; auto.
Qed.

(** Every element but the last has a successor in the chain, every element
    but the first a predecessor. *)
Lemma chainR_source P l z u : chainR P (l ++ [z]) → u ∈ l → ∃ v, P u v ∧ v ∈ l ++ [z].
Proof.
  induction l as [|w l IH]; intros Hc Hu; [by apply elem_of_nil in Hu|].
  destruct l as [|w' l].
  - apply list_elem_of_singleton in Hu as ->. simpl in Hc. exists z. split; [tauto|].
    set_solver.
  - change ((w :: w' :: l) ++ [z]) with (w :: w' :: (l ++ [z])) in Hc.
    apply chainR_cons2 in Hc as [Hww Hc]. apply elem_of_cons in Hu as [->|Hu].
    + exists w'. split; [done|]. set_solver.
    + destruct (IH Hc Hu) as (v & Hv & Hin). exists v. split; [done|]. set_solver.
Qed.

Lemma chainR_target P h l v : chainR P (h :: l) → v ∈ l → ∃ u, P u v ∧ u ∈ h :: l.
Proof.
  revert h. induction l as [|w l IH]; intros h Hc Hv; [by apply elem_of_nil in Hv|].
  apply chainR_cons2 in Hc as [Hhw Hc]. apply elem_of_cons in Hv as [->|Hv].
  - exists h. split; [done|]. set_solver.
  - destruct (IH w Hc Hv) as (u & Hu & Hin). exists u. split; [done|]. set_solver.
Qed.

Lemma link_fun a b u v v' : link a b u v → link a b u v' → v = v'.
Proof. intros [H1 _] [H2 _]. congruence. Qed.

Lemma link_inj a b u u' v : link a b u v → link a b u' v → u = u'.
Proof. intros [_ H1] [_ H2]. congruence. Qed.

Lemma ring_rotate a b l1 l2 : ring a b (l1 ++ l2) → ring a b (l2 ++ l1).
Proof.
  intros (Hnd & Ha & Hb & h & Hh & Hc).
  destruct l1 as [|h1 t1]; [by rewrite app_nil_r; repeat split; eauto|].
  destruct l2 as [|h2 t2].
  { rewrite app_nil_r in *. repeat split; eauto. }
  simpl in Hh. injection Hh as <-.
  repeat split.
  - eapply (NoDup_Permutation_proper _ _ (Permutation_app_comm _ _)). done.
  - rewrite Ha, !length_app. lia.
  - rewrite Hb, !length_app. lia.
  - exists h2. split; [done|].
    replace (((h1 :: t1) ++ h2 :: t2) ++ [h1]) with ((h1 :: t1) ++ h2 :: (t2 ++ [h1])) in Hc
      by by rewrite <- app_assoc.
    apply chainR_mid in Hc as [Hc1 Hc2].
    replace (((h2 :: t2) ++ h1 :: t1) ++ [h2]) with ((h2 :: t2) ++ h1 :: (t1 ++ [h2]))
      by by rewrite <- app_assoc.
    apply chainR_mid. split; done.
Qed.

Lemma ring_elem_lt a b p u : ring a b p → u ∈ p → (u < length a)%nat.
Proof.
  intros (Hnd & Ha & Hb & h & Hh & Hc) Hu.
  destruct (chainR_source _ _ _ _ Hc Hu) as (v & [Hv _] & _).
  by apply lookup_lt_Some in Hv.
Qed.

Lemma ring_perm a b p : ring a b p → p ≡ₚ seq 0 (length a).
Proof.
  intros Hr. pose proof Hr as (Hnd & Ha & Hb & _).
  apply submseteq_length_Permutation.
  - apply NoDup_submseteq; [done|]. intros u Hu. apply elem_of_seq.
    pose proof (ring_elem_lt _ _ _ _ Hr Hu). lia.
  - rewrite length_seq. lia.
Qed.

Lemma ring_elem a b p u : ring a b p → (u < length a)%nat → u ∈ p.
Proof.
  intros Hr Hu. rewrite (ring_perm _ _ _ Hr). apply elem_of_seq. lia.
Qed.

(** A ring can be read from any of its cities. *)
Lemma ring_from a b p u :
  ring a b p → (u < length a)%nat → ∃ q, ring a b (u :: q) ∧ u :: q ≡ₚ p.
Proof.
  intros Hr Hu. destruct (list_elem_of_split p u) as (l1 & l2 & ->).
  { by eapply ring_elem. }
  exists (l2 ++ l1). split.
  - by apply (ring_rotate a b l1 (u :: l2)).
  - change (u :: l2 ++ l1) with ((u :: l2) ++ l1). apply Permutation_app_comm.
Qed.

Lemma ring_succ a b p u : ring a b p → u ∈ p → ∃ v, link a b u v ∧ v ∈ p.
Proof.
  intros (Hnd & Ha & Hb & h & Hh & Hc) Hu.
  destruct (chainR_source _ _ _ _ Hc Hu) as (v & Hv & Hin).
  exists v. split; [done|]. apply elem_of_app in Hin as [?|Hin]; [done|].
  apply list_elem_of_singleton in Hin as ->. destruct p; [done|].
  simpl in Hh. injection Hh as ->. by left.
Qed.

Lemma ring_pred a b p v : ring a b p → v ∈ p → ∃ u, link a b u v ∧ u ∈ p.
Proof.
  intros (Hnd & Ha & Hb & h & Hh & Hc) Hv.
  destruct p as [|h' t]; [done|]. simpl in Hh. injection Hh as ->.
  change ((h :: t) ++ [h]) with (h :: (t ++ [h])) in Hc.
  destruct (chainR_target _ _ _ v Hc) as (u & Hu & Hin).
  { apply elem_of_cons in Hv as [->|Hv]; set_solver. }
  exists u. split; [done|].
  change (h :: t ++ [h]) with ((h :: t) ++ [h]) in Hin.
  apply elem_of_app in Hin as [?|Hin]; [done|].
  apply list_elem_of_singleton in Hin as ->. by left.
Qed.

Lemma ring_inverse a b p : ring a b p → mutual_inverse a b.
Proof.
  intros Hr i j. pose proof Hr as (Hnd & Ha & Hb & _). split; intros Hij.
  - assert (i ∈ p) as Hi.
    { eapply ring_elem; [done|]. by apply lookup_lt_Some in Hij. }
    destruct (ring_succ _ _ _ _ Hr Hi) as (v & [Hv Hv'] & _). congruence.
  - assert (j ∈ p) as Hj.
    { eapply ring_elem; [done|]. apply lookup_lt_Some in Hij. lia. }
    destruct (ring_pred _ _ _ _ Hr Hj) as (u & [Hu Hu'] & _). congruence.
Qed.

(** *** Walking a ring: [get_path] and [cost] *)

Lemma get_path_loop_eq fuel a cur path :
  get_path_loop fuel a cur path =
  if decide (cur = 0%nat) then Some path
  else match fuel with
       | O => None
       | S fuel' => next ← a !! cur; get_path_loop fuel' a next (path ++ [cur])
       end.
Proof. by destruct fuel. Qed.

Lemma cost_loop_eq fuel a last cur acc :
  cost_loop fuel a last cur acc =
  if decide (cur = 0%nat) then d ← dist last cur; Some (acc + d)
  else match fuel with
       | O => None
       | S fuel' =>
           d ← dist last cur; next ← a !! cur; cost_loop fuel' a cur next (acc + d)
       end.
Proof. by destruct fuel. Qed.

Lemma get_path_loop_follows fuel a cur path p :
  get_path_loop fuel a cur path = Some p →
  chainR (follows a) (path ++ [cur]) →
  chainR (follows a) (p ++ [0%nat]) ∧ ∃ q, p = path ++ q.
Proof.
  revert cur path. induction fuel as [|fuel IH]; intros cur path;
    rewrite get_path_loop_eq; case_decide as Hcur; try done.
  - intros [= <-] Hc. subst cur. split; [done|]. exists []. by rewrite app_nil_r.
  - intros [= <-] Hc. subst cur. split; [done|]. exists []. by rewrite app_nil_r.
  - destruct (a !! cur) as [next|] eqn:Hnext; [simpl|done]. intros Hloop Hc.
    destruct (IH _ _ Hloop) as [Hp [q ->]].
    + rewrite <- app_assoc. apply chainR_mid. split; [done|]. simpl. by split.
    + split; [done|]. exists (cur :: q). by rewrite <- app_assoc.
Qed.

Lemma get_path_loop_run a q : ∀ u pre fuel,
  chainR (follows a) (u :: q ++ [0%nat]) → 0%nat ∉ q → (length q ≤ fuel)%nat →
  ∃ cur, a !! u = Some cur ∧ get_path_loop fuel a cur pre = Some (pre ++ q).
Proof.
  induction q as [|v q IH]; intros u pre fuel Hc H0 Hfuel.
  - simpl in Hc. destruct Hc as [Hu _]. exists 0%nat. split; [done|].
    rewrite get_path_loop_eq, app_nil_r. by case_decide.
  - change (u :: (v :: q) ++ [0%nat]) with (u :: v :: (q ++ [0%nat])) in Hc.
    apply chainR_cons2 in Hc as [Huv Hc]. exists v. split; [done|].
    apply not_elem_of_cons in H0 as [Hv0 H0].
    destruct fuel as [|fuel]; [simpl in Hfuel; lia|].
    rewrite get_path_loop_eq. case_decide; [congruence|].
    destruct (IH v (pre ++ [v]) fuel Hc H0) as (cur & -> & Hrun).
    { simpl in Hfuel. lia. }
    simpl. rewrite Hrun. by rewrite <- app_assoc.
Qed.

(** [distances[i][j]] as a number, for in-range cities. *)
Definition distance (i j : nat) : R := default 0 (dist i j).

(** The length of the path [l]: the sum of the distances between
    consecutive cities. *)
Fixpoint walk_len (l : list nat) : R :=
  match l with
  | u :: l' => match l' with v :: _ => distance u v + walk_len l' | [] => 0 end
  | [] => 0
  end.

(** The length of the closed tour listed by [p]. *)
Definition tour_len (p : list nat) : R :=
  match p with h :: _ => walk_len (p ++ [h]) | [] => 0 end.

Lemma walk_len_cons2 u v l : walk_len (u :: v :: l) = distance u v + walk_len (v :: l).
Proof. done. Qed.

Lemma walk_len_one u : walk_len [u] = 0.
Proof. done. Qed.

Arguments walk_len : simpl never.

Lemma walk_len_mid l1 u l2 :
  walk_len (l1 ++ u :: l2) = walk_len (l1 ++ [u]) + walk_len (u :: l2).
Proof.
  induction l1 as [|w l1 IH]; [cbn [app]; rewrite walk_len_one; lra|].
  destruct l1 as [|w' l1].
  - cbn [app]. rewrite !walk_len_cons2, walk_len_one. lra.
  - change ((w :: w' :: l1) ++ u :: l2) with (w :: w' :: (l1 ++ u :: l2)).
    change ((w :: w' :: l1) ++ [u]) with (w :: w' :: (l1 ++ [u])).
    rewrite !walk_len_cons2. cbn [app] in IH. lra.
Qed.

Lemma tour_len_rotate l1 l2 : tour_len (l1 ++ l2) = tour_len (l2 ++ l1).
Proof.
  destruct l1 as [|h1 t1]; [by rewrite app_nil_r|].
  destruct l2 as [|h2 t2]; [by rewrite app_nil_r|].
  unfold tour_len. cbn [app].
  replace (h1 :: (t1 ++ h2 :: t2) ++ [h1]) with ((h1 :: t1) ++ h2 :: (t2 ++ [h1]))
    by (cbn [app]; by rewrite <- app_assoc).
  replace (h2 :: (t2 ++ h1 :: t1) ++ [h2]) with ((h2 :: t2) ++ h1 :: (t1 ++ [h2]))
    by (cbn [app]; by rewrite <- app_assoc).
  rewrite (walk_len_mid (h1 :: t1) h2), (walk_len_mid (h2 :: t2) h1). cbn [app]. lra.
Qed.

Lemma dist_distance i j :
  square → (i < dimension)%nat → (j < dimension)%nat → dist i j = Some (distance i j).
Proof.
  intros [Hlen Hrows] Hi Hj. unfold distance, dist.
  destruct (lookup_lt_is_Some_2 distances i) as [row Hrow]; [lia|].
  rewrite Hrow. simpl.
  destruct (lookup_lt_is_Some_2 row j) as [x Hx].
  { rewrite Forall_forall in Hrows. rewrite (Hrows row); [done|].
    by eapply list_elem_of_lookup_2. }
  by rewrite Hx.
Qed.

Lemma cost_loop_run a q : ∀ u acc fuel,
  square → length a = dimension →
  chainR (follows a) (u :: q ++ [0%nat]) → 0%nat ∉ q → (length q ≤ fuel)%nat →
  ∃ cur, a !! u = Some cur ∧
    cost_loop fuel a u cur acc = Some (acc + walk_len (u :: q ++ [0%nat])).
Proof.
  intros u acc fuel Hsq Ha. revert u acc fuel.
  induction q as [|v q IH]; intros u acc fuel Hc H0 Hfuel.
  - simpl in Hc. destruct Hc as [Hu _]. exists 0%nat. split; [done|].
    rewrite cost_loop_eq. case_decide; [|done].
    pose proof (lookup_lt_Some _ _ _ Hu).
    rewrite dist_distance by (done || lia). simpl.
    rewrite walk_len_cons2, walk_len_one. f_equal. lra.
  - change (u :: (v :: q) ++ [0%nat]) with (u :: v :: (q ++ [0%nat])) in Hc |- *.
    apply chainR_cons2 in Hc as [Huv Hc]. exists v. split; [done|].
    apply not_elem_of_cons in H0 as [Hv0 H0].
    destruct fuel as [|fuel]; [simpl in Hfuel; lia|].
    rewrite cost_loop_eq. case_decide; [congruence|].
    assert (u < dimension ∧ v < dimension)%nat as [Hu Hv].
    { pose proof (lookup_lt_Some _ _ _ Huv). split; [lia|].
      destruct q; simpl in Hc; destruct Hc as [Hc _];
        apply lookup_lt_Some in Hc; lia. }
    rewrite dist_distance by done. simpl.
    destruct (IH v (acc + distance u v) fuel Hc H0) as (cur & -> & Hrun).
    { simpl in Hfuel. lia. }
    simpl. rewrite Hrun, walk_len_cons2. f_equal. lra.
Qed.

(** *** A tour is a ring read from the depot, and conversely *)

Lemma tour_ring s : tour s → ∃ q, ring (after s) (before s) (0%nat :: q).
Proof.
  intros [Ha Hb Hinv (fuel & path & Hpath & Hperm)].
  unfold get_path in Hpath.
  destruct (after s !! 0%nat) as [cur|] eqn:Hcur; [simpl in Hpath|done].
  destruct (get_path_loop_follows _ _ _ _ _ Hpath) as [Hc [q ->]].
  { simpl. by split. }
  exists q. repeat split.
  - rewrite Hperm. apply NoDup_seq.
  - by rewrite Hperm, length_seq.
  - by rewrite Hperm, length_seq.
  - exists 0%nat. split; [done|]. revert Hc. apply chainR_impl.
    intros u v Huv. split; [done|]. by apply Hinv.
Qed.

Lemma ring_get_path a b c q fuel :
  ring a b (0%nat :: q) → (length q ≤ fuel)%nat →
  get_path fuel (mkPath a b c) = Some (0%nat :: q).
Proof.
  intros (Hnd & Ha & Hb & h & [= <-] & Hc) Hfuel.
  apply NoDup_cons in Hnd as [H0 _].
  destruct (get_path_loop_run a q 0%nat [0%nat] fuel) as (cur & Hcur & Hrun); [|done..|].
  { revert Hc. apply chainR_impl. by intros u v [? _]. }
  unfold get_path. simpl. by rewrite Hcur.
Qed.

Lemma ring_tour a b c p :
  ring a b p → length a = dimension → tour (mkPath a b c).
Proof.
  intros Hr Ha. pose proof Hr as (Hnd & Hla & Hlb & h & Hh & _).
  destruct (ring_from a b p 0%nat Hr) as (q & Hrq & Hperm).
  { destruct p; [done|]. simpl in Hla. lia. }
  constructor; simpl.
  - done.
  - lia.
  - by eapply ring_inverse.
  - exists (length q), (0%nat :: q). split; [by apply ring_get_path|].
    rewrite Hperm, <- Ha. by eapply ring_perm.
Qed.

Lemma ring_cost a b p fuel :
  square → ring a b p → length a = dimension → (dimension ≤ fuel)%nat →
  cost fuel (mkPath a b None) = Some (tour_len p).
Proof.
  intros Hsq Hr Ha Hfuel. pose proof Hr as (_ & Hla & _ & h & Hh & _).
  destruct (list_elem_of_split p 0%nat) as (l1 & l2 & ->).
  { eapply ring_elem; [done|]. destruct p; [done|]. simpl in Hla. lia. }
  apply (ring_rotate a b l1 (0%nat :: l2)) in Hr.
  rewrite (tour_len_rotate l1 (0%nat :: l2)).
  destruct Hr as (Hnd & Hla' & _ & h' & [= <-] & Hc).
  apply NoDup_cons in Hnd as [H0 _].
  destruct (cost_loop_run a (l2 ++ l1) 0%nat 0 fuel Hsq Ha) as (cur & Hcur & Hrun).
  { revert Hc. apply chainR_impl. by intros u v [? _]. }
  { done. }
  { simpl in Hla'. lia. }
  unfold cost. simpl. rewrite Hcur. simpl. rewrite Hrun. unfold tour_len.
  f_equal. cbn [app]. lra.
Qed.

Lemma tour_cost s fuel :
  square → tour s → cost_consistent s → (dimension ≤ fuel)%nat →
  ∃ q, ring (after s) (before s) (0%nat :: q) ∧ cost fuel s = Some (tour_len (0%nat :: q)).
Proof.
  intros Hsq Ht Hcc Hfuel. destruct (tour_ring s Ht) as [q Hr]. exists q. split; [done|].
  pose proof (tour_after s Ht) as Ha.
  unfold cost. destruct (__cost s) as [c|] eqn:Hc.
  - rewrite <- (Hcc c Hc). by apply ring_cost.
  - exact (ring_cost (after s) (before s) (0%nat :: q) fuel Hsq Hr Ha Hfuel).
Qed.

(** *** Running the moves on in-range cities *)

Lemma setitem_Some {A} (l : list A) i v :
  (i < length l)%nat → setitem l i v = Some (<[i:=v]> l).
Proof. intros Hi. unfold setitem. by case_decide. Qed.

Lemma tour_after_lt s i :
  tour s → (i < dimension)%nat → ∃ j, after s !! i = Some j ∧ (j < dimension)%nat.
Proof.
  intros [Ha Hb Hinv _] Hi.
  destruct (lookup_lt_is_Some_2 (after s) i) as [j Hj]; [lia|].
  exists j. split; [done|]. apply Hinv in Hj. apply lookup_lt_Some in Hj. lia.
Qed.

Lemma tour_before_lt s i :
  tour s → (i < dimension)%nat → ∃ j, before s !! i = Some j ∧ (j < dimension)%nat.
Proof.
  intros [Ha Hb Hinv _] Hi.
  destruct (lookup_lt_is_Some_2 (before s) i) as [j Hj]; [lia|].
  exists j. split; [done|]. apply Hinv in Hj. apply lookup_lt_Some in Hj. lia.
Qed.

(** Rewrites the table lookups and item assignments of a move whose
    cities are all in range. *)
Ltac run_move :=
  repeat first
    [ rewrite dist_distance by (done || lia)
    | rewrite setitem_Some by (rewrite ?length_insert; lia)
    | progress cbn [mbind option_bind mret option_ret] ].

Lemma swap_eval fuel s x y bx by_ ax ay c :
  square → length (after s) = dimension → length (before s) = dimension →
  before s !! x = Some bx → before s !! y = Some by_ →
  after s !! x = Some ax → after s !! y = Some ay →
  (x < dimension ∧ y < dimension ∧ bx < dimension ∧ by_ < dimension ∧
   ax < dimension ∧ ay < dimension)%nat →
  cost fuel s = Some c →
  swap fuel s x y =
  Some (mkPath
    (<[by_:=x]> (<[bx:=y]> (<[y:=ax]> (<[x:=ay]> (after s)))))
    (<[ay:=x]> (<[ax:=y]> (<[y:=bx]> (<[x:=by_]> (before s)))))
    (Some (c + distance bx y + distance y ax + distance by_ x + distance x ay
           - distance bx x - distance x ax - distance by_ y - distance y ay))).
Proof.
  intros Hsq Ha Hb Hbx Hby Hax Hay Hlt Hc. unfold swap.
  rewrite Hbx, Hby, Hax, Hay, Hc. by run_move.
Qed.

Lemma swap_is_Some fuel s x y :
  square → tour s → cost_consistent s → (dimension ≤ fuel)%nat →
  (x < dimension)%nat → (y < dimension)%nat →
  ∃ s' c, swap fuel s x y = Some s' ∧ __cost s' = Some c.
Proof.
  intros Hsq Ht Hcc Hfuel Hx Hy.
  destruct (tour_cost s fuel Hsq Ht Hcc Hfuel) as (q & _ & Hc).
  destruct (tour_after_lt s x Ht Hx) as (ax & Hax & ?).
  destruct (tour_after_lt s y Ht Hy) as (ay & Hay & ?).
  destruct (tour_before_lt s x Ht Hx) as (bx & Hbx & ?).
  destruct (tour_before_lt s y Ht Hy) as (by_ & Hby & ?).
  eexists _, _. split.
  - eapply swap_eval; eauto using tour_after, tour_before. lia.
  - done.
Qed.

(** *** The candidate loop of the swap neighbourhood *)

(** [second] comes right after [first] in the cycle, or [first] right after
    [second]. *)
Definition adjacent (a : list nat) (first second : nat) : Prop :=
  a !! first = Some second ∨ a !! second = Some first.

(** Exactly one city lies between the two, on one side or the other. *)
Definition one_apart (a : list nat) (first second : nat) : Prop :=
  ∃ m, (a !! first = Some m ∧ a !! m = Some second) ∨
       (a !! second = Some m ∧ a !! m = Some first).

(** The pairs the loop evaluates. *)
Definition candidate (s : PathSolution) (tabu_set : gset (nat * nat)) (pr : nat * nat) : Prop :=
  (pr.1 < pr.2 < dimension)%nat ∧
  ¬ adjacent (after s) pr.1 pr.2 ∧ ¬ one_apart (after s) pr.1 pr.2 ∧
  pr ∉ tabu_set.

Lemma elem_of_combinations2 n i j : (i, j) ∈ combinations2 n ↔ (i < j < n)%nat.
Proof.
  unfold combinations2. rewrite list_elem_of_bind. split.
  - intros (i' & Hin & Hi'). apply elem_of_seq in Hi'.
    apply list_elem_of_fmap in Hin as (j' & [= -> ->] & Hj'). apply elem_of_seq in Hj'. lia.
  - intros Hij. exists i. split; [|apply elem_of_seq; lia].
    apply list_elem_of_fmap. exists j. split; [done|]. apply elem_of_seq. lia.
Qed.

Lemma swap_skipped_spec s i j :
  tour s → (i < dimension)%nat → (j < dimension)%nat →
  ∃ sk, swap_skipped (after s) i j = Some sk ∧
    (sk = true ↔ adjacent (after s) i j ∨ one_apart (after s) i j).
Proof.
  intros Ht Hi Hj. unfold swap_skipped, adjacent, one_apart.
  destruct (tour_after_lt s i Ht Hi) as (ai & Hai & Hail).
  destruct (tour_after_lt s j Ht Hj) as (aj & Haj & Hajl).
  destruct (tour_after_lt s ai Ht Hail) as (aai & Haai & _).
  destruct (tour_after_lt s aj Ht Hajl) as (aaj & Haaj & _).
  rewrite Hai, Haj. simpl.
  case_decide as H1; [subst; eexists; split; [done|]; naive_solver|].
  case_decide as H2; [subst; eexists; split; [done|]; naive_solver|].
  rewrite Haai. simpl.
  case_decide as H3; [subst; eexists; split; [done|]; naive_solver|].
  rewrite Haaj. simpl. eexists. split; [done|].
  rewrite bool_decide_eq_true. split.
  - intros ->. right. exists aj. by right.
  - intros [[?|?]|[m [[? ?]|[? ?]]]]; congruence.
Qed.

(** The loop invariant: [result], [min_pair] hold the first lowest-cost
    candidate among the pairs [seen] so far. *)
Definition best_so_far (fuel : nat) (s : PathSolution) (tabu_set : gset (nat * nat))
    (acc : option PathSolution * option (nat * nat)) (seen : list (nat * nat)) : Prop :=
  match acc with
  | (None, None) => ∀ q, q ∈ seen → ¬ candidate s tabu_set q
  | (Some best, Some pr) =>
      candidate s tabu_set pr ∧ swap fuel s pr.1 pr.2 = Some best ∧
      ∃ cb, __cost best = Some cb ∧
        ∀ q, q ∈ seen → candidate s tabu_set q →
          ∃ sq cq, swap fuel s q.1 q.2 = Some sq ∧ __cost sq = Some cq ∧ cb <= cq
  | _ => False
  end.

Lemma swap_round_spec fuel s tabu_set acc seen pr :
  square → tour s → cost_consistent s → (dimension ≤ fuel)%nat →
  (pr.1 < pr.2 < dimension)%nat →
  best_so_far fuel s tabu_set acc seen →
  ∃ acc', swap_round fuel s tabu_set acc pr = Some acc' ∧
    best_so_far fuel s tabu_set acc' (seen ++ [pr]).
Proof.
  intros Hsq Ht Hcc Hfuel Hpr Hinv. unfold swap_round.
  destruct (swap_skipped_spec s pr.1 pr.2 Ht) as (sk & -> & Hsk); [lia..|]. simpl.
  assert (∀ acc0, (¬ candidate s tabu_set pr) →
    best_so_far fuel s tabu_set acc0 seen →
    best_so_far fuel s tabu_set acc0 (seen ++ [pr])) as Hkeep.
  { intros [[best|] [pr0|]] Hn; simpl; try done.
    - intros (Hc0 & Hs0 & cb & Hcb & Hall). do 2 (split; [done|]). exists cb.
      split; [done|]. intros q Hq Hcq. apply elem_of_app in Hq as [Hq|Hq]; [by apply Hall|].
      apply list_elem_of_singleton in Hq as ->. done.
    - intros Hall q Hq. apply elem_of_app in Hq as [Hq|Hq]; [by apply Hall|].
      by apply list_elem_of_singleton in Hq as ->. }
  destruct sk.
  { exists acc. split; [done|]. apply Hkeep; [|done].
    intros (_ & Hna & Hno & _). destruct Hsk as [Hsk _]. destruct (Hsk eq_refl); done. }
  case_decide as Htabu.
  { exists acc. split; [done|]. apply Hkeep; [|done]. by intros (_ & _ & _ & ?). }
  assert (candidate s tabu_set pr) as Hcand.
  { split; [done|]. repeat split; [| |done].
    - intros Hadj. destruct Hsk as [_ Hsk]. by specialize (Hsk (or_introl Hadj)).
    - intros Hadj. destruct Hsk as [_ Hsk]. by specialize (Hsk (or_intror Hadj)). }
  destruct (swap_is_Some fuel s pr.1 pr.2 Hsq Ht Hcc Hfuel) as (sw & cs & Hsw & Hcs); [lia..|].
  rewrite Hsw. simpl.
  destruct acc as [[best|] [pr0|]]; simpl in *; try done.
  - destruct Hinv as (Hc0 & Hs0 & cb & Hcb & Hall).
    unfold solution_lt, cost. rewrite Hcs, Hcb. simpl.
    case_bool_decide as Hlt.
    + eexists. split; [done|]. simpl. do 2 (split; [done|]). exists cs. split; [done|].
      intros q Hq Hcq. apply elem_of_app in Hq as [Hq|Hq].
      * destruct (Hall q Hq Hcq) as (sq & cq & ? & ? & ?). exists sq, cq.
        do 2 (split; [done|]). lra.
      * apply list_elem_of_singleton in Hq as ->. exists sw, cs. do 2 (split; [done|]). lra.
    + eexists. split; [done|]. simpl. do 2 (split; [done|]). exists cb. split; [done|].
      intros q Hq Hcq. apply elem_of_app in Hq as [Hq|Hq]; [by apply Hall|].
      apply list_elem_of_singleton in Hq as ->. exists sw, cs. do 2 (split; [done|]). lra.
  - eexists. split; [done|]. simpl. do 2 (split; [done|]). exists cs. split; [done|].
    intros q Hq Hcq. apply elem_of_app in Hq as [Hq|Hq]; [by destruct (Hinv q Hq)|].
    apply list_elem_of_singleton in Hq as ->. exists sw, cs. do 2 (split; [done|]). lra.
Qed.

Lemma swap_rounds_spec fuel s tabu_set pairs : ∀ acc seen,
  square → tour s → cost_consistent s → (dimension ≤ fuel)%nat →
  Forall (λ pr, pr.1 < pr.2 < dimension)%nat pairs →
  best_so_far fuel s tabu_set acc seen →
  ∃ acc', swap_rounds fuel s tabu_set acc pairs = Some acc' ∧
    best_so_far fuel s tabu_set acc' (seen ++ pairs).
Proof.
  induction pairs as [|pr pairs IH]; intros acc seen Hsq Ht Hcc Hfuel Hall Hinv.
  - exists acc. by rewrite app_nil_r.
  - apply Forall_cons in Hall as [Hpr Hall]. simpl.
    destruct (swap_round_spec fuel s tabu_set acc seen pr) as (acc1 & -> & Hinv1); [done..|].
    simpl. destruct (IH acc1 (seen ++ [pr])) as (acc' & Hrun & Hinv'); [done..|].
    exists acc'. split; [done|]. by rewrite <- app_assoc in Hinv'.
Qed.

(** C4 (amended).  On a valid tour, [SwapNeighborhood.find_best_candidate]
    skips exactly the pairs [first < second] that are adjacent in the cycle, or
    that have exactly one city between them, or whose signature is in the tabu
    set; it evaluates [swap] on every other pair and returns a candidate of
    lowest cost among them, or [None] when there is no such pair; the
    signature of the returned candidate is passed to [add_to_tabu]. *)
Theorem swap_find_best_candidate_spec (fuel : nat) (s : PathSolution)
    (tabu : Tabu.TabuState (nat * nat)) :
  square → tour s → cost_consistent s → (dimension ≤ fuel)%nat →
  Tabu.tabu_inv tabu → (0 ≤ Tabu._maxlen tabu)%Z →
  ∃ result tabu', find_best_candidate fuel s tabu = Some (result, tabu') ∧
    match result with
    | None => (∀ pr, ¬ candidate s (Tabu._tabu_set tabu) pr) ∧ tabu' = tabu
    | Some best =>
        ∃ pr cb, candidate s (Tabu._tabu_set tabu) pr ∧
          swap fuel s pr.1 pr.2 = Some best ∧ __cost best = Some cb ∧
          (∀ q, candidate s (Tabu._tabu_set tabu) q →
             ∃ sq cq, swap fuel s q.1 q.2 = Some sq ∧ __cost sq = Some cq ∧ cb <= cq) ∧
          Tabu.add_to_tabu tabu pr = Some tabu'
    end.
Proof.
  intros Hsq Ht Hcc Hfuel Hinv Hm. unfold find_best_candidate.
  destruct (swap_rounds_spec fuel s (Tabu._tabu_set tabu) (combinations2 dimension)
              (None, None) []) as ([[best|] [pr|]] & -> & Hbest); try done.
  { apply Forall_forall. intros [i j] Hij. by apply elem_of_combinations2 in Hij. }
  { intros q Hq. by apply elem_of_nil in Hq. }
  - simpl in *. destruct Hbest as (Hc & Hsw & cb & Hcb & Hall).
    destruct (Tabu.add_to_tabu_inv tabu pr Hinv Hm) as (tabu' & Hadd & _).
    rewrite Hadd. simpl. exists (Some best), tabu'. split; [done|]. exists pr, cb.
    do 3 (split; [done|]). split; [|done].
    intros [i j] Hq. apply Hall; [|done]. apply elem_of_combinations2. by destruct Hq.
  - simpl in *. exists None, tabu. split; [done|]. split; [|done].
    intros [i j] Hq. apply (Hbest (i, j)); [|done]. apply elem_of_combinations2.
    by destruct Hq.
Qed.

(** *** Rings cut into blocks *)

(** The last city of [X] is followed by the first city of [Y]. *)
Definition joined (P : nat → nat → Prop) (X Y : list nat) : Prop :=
  ∃ u v, last X = Some u ∧ head Y = Some v ∧ P u v.

Lemma chainR_app P l1 l2 :
  l1 ≠ [] → l2 ≠ [] →
  chainR P (l1 ++ l2) ↔ chainR P l1 ∧ joined P l1 l2 ∧ chainR P l2.
Proof.
  intros H1 H2. apply last_is_Some in H1 as [u Hu]. apply last_Some in Hu as [init ->].
  destruct l2 as [|v t]; [done|]. rewrite <- app_assoc. cbn [app].
  rewrite chainR_mid, chainR_cons2. unfold joined. rewrite last_snoc. cbn [head].
  split.
  - intros (? & ? & ?). split; [done|]. split; [|done]. by exists u, v.
  - intros (? & (u' & v' & [= <-] & [= <-] & ?) & ?). done.
Qed.

Lemma joined_app_r P X Y Z : Y ≠ [] → joined P X (Y ++ Z) ↔ joined P X Y.
Proof. intros HY. unfold joined. destruct Y; [done|]. done. Qed.

Lemma joined_app_l P X Y Z : Y ≠ [] → joined P (X ++ Y) Z ↔ joined P Y Z.
Proof.
  intros HY. unfold joined. apply last_is_Some in HY as [u Hu].
  apply last_Some in Hu as [init ->]. by rewrite app_assoc, !last_snoc.
Qed.

Lemma ring_alt a b p :
  p ≠ [] →
  ring a b p ↔ NoDup p ∧ length a = length p ∧ length b = length p ∧
               chainR (link a b) p ∧ joined (link a b) p p.
Proof.
  intros Hp. unfold ring. destruct p as [|h t]; [done|]. split.
  - intros (Hnd & Ha & Hb & h' & [= <-] & Hc). do 3 (split; [done|]).
    apply (chainR_app _ (h :: t) [h]) in Hc as (Hc & (u & v & Hu & [= <-] & Huv) & _); [|done..].
    split; [done|]. by exists u, h.
  - intros (Hnd & Ha & Hb & Hc & (u & v & Hu & [= <-] & Huv)). do 3 (split; [done|]).
    exists h. split; [done|]. apply (chainR_app _ (h :: t) [h]); [done..|].
    split; [done|]. split; [by exists u, h|done].
Qed.

Lemma ring_blocks2 a b A C :
  A ≠ [] → C ≠ [] →
  ring a b (A ++ C) ↔
  NoDup (A ++ C) ∧ length a = length (A ++ C) ∧ length b = length (A ++ C) ∧
  chainR (link a b) A ∧ chainR (link a b) C ∧
  joined (link a b) A C ∧ joined (link a b) C A.
Proof.
  intros HA HC. rewrite ring_alt by (by destruct A).
  rewrite chainR_app by done.
  rewrite (joined_app_l _ A C (A ++ C)) by done.
  rewrite (joined_app_r _ C A C) by done. tauto.
Qed.

Lemma ring_blocks3 a b A B C :
  A ≠ [] → B ≠ [] → C ≠ [] →
  ring a b (A ++ B ++ C) ↔
  NoDup (A ++ B ++ C) ∧ length a = length (A ++ B ++ C) ∧ length b = length (A ++ B ++ C) ∧
  chainR (link a b) A ∧ chainR (link a b) B ∧ chainR (link a b) C ∧
  joined (link a b) A B ∧ joined (link a b) B C ∧ joined (link a b) C A.
Proof.
  intros HA HB HC. rewrite ring_blocks2 by (done || by destruct B).
  rewrite chainR_app by done.
  rewrite (joined_app_r _ A B C) by done.
  rewrite (joined_app_l _ B C A) by done. tauto.
Qed.

Lemma ring_blocks4 a b A B C D :
  A ≠ [] → B ≠ [] → C ≠ [] → D ≠ [] →
  ring a b (A ++ B ++ C ++ D) ↔
  NoDup (A ++ B ++ C ++ D) ∧ length a = length (A ++ B ++ C ++ D) ∧
  length b = length (A ++ B ++ C ++ D) ∧
  chainR (link a b) A ∧ chainR (link a b) B ∧ chainR (link a b) C ∧ chainR (link a b) D ∧
  joined (link a b) A B ∧ joined (link a b) B C ∧ joined (link a b) C D ∧
  joined (link a b) D A.
Proof.
  intros HA HB HC HD. rewrite ring_blocks3 by (done || by destruct C).
  rewrite chainR_app by done.
  rewrite (joined_app_r _ B C D) by done.
  rewrite (joined_app_l _ C D A) by done. tauto.
Qed.

(** The distance from the last city of [X] to the first city of [Y]. *)
Definition gap (X Y : list nat) : R :=
  match last X, head Y with
  | Some u, Some v => distance u v
  | _, _ => 0
  end.

Lemma gap_eq X Y u v : last X = Some u → head Y = Some v → gap X Y = distance u v.
Proof. intros Hu Hv. unfold gap. by rewrite Hu, Hv. Qed.

Lemma walk_len_app l1 l2 :
  l1 ≠ [] → l2 ≠ [] → walk_len (l1 ++ l2) = walk_len l1 + gap l1 l2 + walk_len l2.
Proof.
  intros H1 H2. apply last_is_Some in H1 as [u Hu]. apply last_Some in Hu as [init ->].
  destruct l2 as [|v t]; [done|]. rewrite <- app_assoc. cbn [app].
  rewrite walk_len_mid, walk_len_cons2. unfold gap. rewrite last_snoc. cbn [head]. lra.
Qed.

Lemma gap_app_r X Y Z : Y ≠ [] → gap X (Y ++ Z) = gap X Y.
Proof. intros HY. unfold gap. by destruct Y. Qed.

Lemma gap_app_l X Y Z : Y ≠ [] → gap (X ++ Y) Z = gap Y Z.
Proof.
  intros HY. unfold gap. apply last_is_Some in HY as [u Hu].
  apply last_Some in Hu as [init ->]. by rewrite app_assoc, !last_snoc.
Qed.

Lemma tour_len_alt p : p ≠ [] → tour_len p = walk_len p + gap p p.
Proof.
  intros Hp. unfold tour_len. destruct p as [|h t]; [done|].
  rewrite (walk_len_app (h :: t) [h]) by done. rewrite walk_len_one.
  unfold gap. cbn [head]. lra.
Qed.

Lemma tour_len_blocks2 A C :
  A ≠ [] → C ≠ [] →
  tour_len (A ++ C) = walk_len A + gap A C + walk_len C + gap C A.
Proof.
  intros HA HC. rewrite tour_len_alt by (by destruct A).
  rewrite walk_len_app by done.
  rewrite (gap_app_l A C (A ++ C)) by done. rewrite (gap_app_r C A C) by done. lra.
Qed.

Lemma tour_len_blocks3 A B C :
  A ≠ [] → B ≠ [] → C ≠ [] →
  tour_len (A ++ B ++ C)
  = walk_len A + gap A B + walk_len B + gap B C + walk_len C + gap C A.
Proof.
  intros HA HB HC. rewrite tour_len_blocks2 by (done || by destruct B).
  rewrite (walk_len_app B C) by done.
  rewrite (gap_app_r A B C) by done. rewrite (gap_app_l B C A) by done. lra.
Qed.

Lemma tour_len_blocks4 A B C D :
  A ≠ [] → B ≠ [] → C ≠ [] → D ≠ [] →
  tour_len (A ++ B ++ C ++ D)
  = walk_len A + gap A B + walk_len B + gap B C + walk_len C + gap C D
    + walk_len D + gap D A.
Proof.
  intros HA HB HC HD. rewrite tour_len_blocks3 by (done || by destruct C).
  rewrite (walk_len_app C D) by done.
  rewrite (gap_app_r B C D) by done. rewrite (gap_app_l C D A) by done. lra.
Qed.

(** [l'] is [l] except, possibly, at the indices [keys]. *)
Definition agree_off (keys : list nat) (l l' : list nat) : Prop :=
  ∀ c, c ∉ keys → l' !! c = l !! c.

Lemma agree_off_nil l : agree_off [] l l.
Proof. by intros c _. Qed.

Lemma agree_off_insert keys l l' k v :
  agree_off keys l l' → agree_off (k :: keys) l (<[k:=v]> l').
Proof.
  intros Hagree c Hc. apply not_elem_of_cons in Hc as [Hne Hc].
  rewrite list_lookup_insert_ne by done. by apply Hagree.
Qed.

Lemma agree_off_weaken keys keys' l l' :
  agree_off keys l l' → (∀ c, c ∈ keys → c ∈ keys') → agree_off keys' l l'.
Proof. intros Hagree Hsub c Hc. apply Hagree. intros Hin. by apply Hc, Hsub. Qed.

(** A block keeps its links when the arrays change only at the source of
    its last city and at the target of its first one. *)
Lemma block_frame a b a' b' KA KB X :
  NoDup X → chainR (link a b) X →
  agree_off KA a a' → agree_off KB b b' →
  (∀ c, c ∈ X → c ∈ KA → last X = Some c) →
  (∀ c, c ∈ X → c ∈ KB → head X = Some c) →
  chainR (link a' b') X.
Proof.
  intros Hnd Hc Ha Hb. induction X as [|u X IH]; [done|].
  destruct X as [|v X]; [done|]. intros HKA HKB.
  apply chainR_cons2 in Hc as [[Huv Hvu] Hc].
  apply NoDup_cons in Hnd as [Hu Hnd]. apply NoDup_cons in Hnd as Hnd'.
  destruct Hnd' as [Hv _]. apply chainR_cons2. split.
  - split.
    + rewrite Ha; [done|]. intros Hin. specialize (HKA u ltac:(set_solver) Hin).
      rewrite last_cons_cons in HKA. apply last_Some_elem_of in HKA. done.
    + rewrite Hb; [done|]. intros Hin. specialize (HKB v ltac:(set_solver) Hin).
      simpl in HKB. injection HKB as ->. set_solver.
  - apply IH; [done..| |].
    + intros c Hin HK. specialize (HKA c ltac:(set_solver) HK).
      by rewrite last_cons_cons in HKA.
    + intros c Hin HK. specialize (HKB c ltac:(set_solver) HK).
      simpl in HKB. injection HKB as ->. done.
Qed.

(** *** The moves keep the tour *)

Lemma chainR_split P l :
  chainR P l ↔ ∀ l1 u v l2, l = l1 ++ u :: v :: l2 → P u v.
Proof.
  split.
  - intros Hc l1 u v l2 ->. apply chainR_mid in Hc as [_ Hc].
    by apply chainR_cons2 in Hc as [? _].
  - induction l as [|u l IH]; [done|]. destruct l as [|v l]; [done|].
    intros Hall. apply chainR_cons2. split.
    + by apply (Hall [] u v l).
    + apply IH. intros l1 u' v' l2 Heq. apply (Hall (u :: l1) u' v' l2). by rewrite Heq.
Qed.

(** The list in reverse order (the name [reverse] is taken by the move). *)
Local Abbreviation reversed := list.reverse (only parsing).

Lemma chainR_reverse P l : chainR P l → chainR (flip P) (reversed l).
Proof.
  rewrite !chainR_split. intros Hall l1 u v l2 Hrev. unfold flip.
  apply (Hall (reversed l2) v u (reversed l1)).
  rewrite <- (reverse_involutive l), Hrev, reverse_app, !reverse_cons, <- !app_assoc.
  done.
Qed.

(** Inside a block without repetition, a link never starts at the last
    city nor ends at the first one. *)
Lemma chainR_inside P l :
  NoDup l → chainR P l →
  chainR (λ u v, P u v ∧ u ∈ l ∧ v ∈ l ∧ last l ≠ Some u ∧ head l ≠ Some v) l.
Proof.
  rewrite !chainR_split. intros Hnd Hall l1 u v l2 ->.
  split; [by apply (Hall l1 u v l2)|]. split; [set_solver|]. split; [set_solver|].
  apply NoDup_app in Hnd as (_ & Hl1 & Hnd). apply NoDup_cons in Hnd as [Hu Hnd].
  apply NoDup_cons in Hnd as [Hv _]. split.
  - rewrite last_app_cons, last_cons_cons. intros Hlast.
    apply last_Some_elem_of in Hlast. set_solver.
  - destruct l1 as [|h l1]; simpl; intros [= ->]; set_solver.
Qed.

(** All listings of the cycle have the same length. *)
Lemma ring_tour_len a b p p' :
  square → length a = dimension → ring a b p → ring a b p' → tour_len p = tour_len p'.
Proof.
  intros Hsq Hlen Hp Hp'.
  pose proof (ring_cost a b p dimension Hsq Hp Hlen (le_n _)) as H1.
  pose proof (ring_cost a b p' dimension Hsq Hp' Hlen (le_n _)) as H2.
  congruence.
Qed.

(** The cycle of a tour listed from the city [x], and its cost. *)
Lemma tour_ring_at s fuel x :
  square → tour s → cost_consistent s → (dimension ≤ fuel)%nat → (x < dimension)%nat →
  ∃ q, ring (after s) (before s) (x :: q) ∧ cost fuel s = Some (tour_len (x :: q)).
Proof.
  intros Hsq Ht Hcc Hfuel Hx.
  destruct (tour_cost s fuel Hsq Ht Hcc Hfuel) as (q0 & Hring0 & Hcost).
  destruct (ring_from _ _ _ x Hring0) as (q & Hring & _).
  { by rewrite (tour_after _ Ht). }
  exists q. split; [done|]. rewrite Hcost. f_equal.
  apply (ring_tour_len (after s) (before s)); [done|apply Ht|done..].
Qed.

Lemma joined_link a b X Y :
  joined (link a b) X Y →
  ∃ u v, last X = Some u ∧ head Y = Some v ∧ a !! u = Some v ∧ b !! v = Some u ∧
    u ∈ X ∧ v ∈ Y.
Proof.
  intros (u & v & Hu & Hv & Ha & Hb). exists u, v. do 4 (split; [done|]).
  split; [by apply last_Some_elem_of|by apply head_Some_elem_of].
Qed.

Lemma joined_intro a b X Y u v :
  last X = Some u → head Y = Some v → a !! u = Some v → b !! v = Some u →
  joined (link a b) X Y.
Proof. intros. by exists u, v. Qed.

Ltac lookup_inserts :=
  repeat first
    [ rewrite list_lookup_insert_eq by (rewrite ?length_insert; lia)
    | rewrite list_lookup_insert_ne by set_solver ].

Lemma swap_nonadjacent (fuel : nat) (s : PathSolution) (x y : nat) :
  square → tour s → cost_consistent s → (dimension ≤ fuel)%nat →
  (x < dimension)%nat → (y < dimension)%nat → x ≠ y → ¬ adjacent (after s) x y →
  ∃ s' c, swap fuel s x y = Some s' ∧ tour s' ∧ __cost s' = Some c ∧
    cost fuel (mkPath (after s') (before s') None) = Some c.
Proof.
  intros Hsq Ht Hcc Hfuel Hx Hy Hxy Hadj.
  destruct (tour_ring_at s fuel x) as (q & Hring & Hcost); [done..|].
  pose proof (tour_after _ Ht) as Hla. pose proof (tour_before _ Ht) as Hlb.
  assert (y ∈ q) as Hyq.
  { assert (y ∈ x :: q) as Hin by (apply (ring_elem _ _ _ _ Hring); by rewrite Hla).
    set_solver. }
  apply list_elem_of_split in Hyq as (R1 & R2 & ->).
  change (x :: R1 ++ y :: R2) with ([x] ++ R1 ++ [y] ++ R2) in *.
  assert (R1 ≠ []) as HR1.
  { intros ->. apply (ring_blocks2 _ _ [x]) in Hring as (_ & _ & _ & _ & _ & J & _); [|done..].
    destruct J as (u & v & [= <-] & [= <-] & Hl & _). apply Hadj. by left. }
  assert (R2 ≠ []) as HR2.
  { intros ->. rewrite !app_assoc, app_nil_r in Hring.
    apply (ring_rotate _ _ (([x] ++ R1)) [y]) in Hring.
    apply (ring_blocks2 _ _ [y]) in Hring as (_ & _ & _ & _ & _ & J & _); [|done..].
    destruct J as (u & v & [= <-] & [= <-] & Hl & _). apply Hadj. by right. }
  pose proof Hring as Hring0.
  apply ring_blocks4 in Hring as (Hnd & _ & _ & _ & Hc1 & _ & Hc2 & J1 & J2 & J3 & J4);
    [|done..].
  apply joined_link in J1 as (? & ax & [= <-] & Hax & Haax & Hbax & _ & Hax1).
  apply joined_link in J2 as (by_ & ? & Hby & [= <-] & Haby & Hbby & Hby1 & _).
  apply joined_link in J3 as (? & ay & [= <-] & Hay & Haay & Hbay & _ & Hay2).
  apply joined_link in J4 as (bx & ? & Hbx & [= <-] & Habx & Hbbx & Hbx2 & _).
  assert (bx < dimension ∧ by_ < dimension ∧ ax < dimension ∧ ay < dimension)%nat
    as (Hbxlt & Hbylt & Haxlt & Haylt).
  { apply lookup_lt_Some in Habx, Haby, Hbax, Hbay. lia. }
  rewrite (swap_eval fuel s x y bx by_ ax ay (tour_len ([x] ++ R1 ++ [y] ++ R2)));
    [|done..].
  pose proof Hnd as Hnd0.
  apply NoDup_app in Hnd as (_ & Hx1 & Hnd). apply NoDup_app in Hnd as (Hnd1 & H12 & Hnd).
  apply NoDup_app in Hnd as (_ & Hy2 & Hnd2).
  set (a' := <[by_:=x]> (<[bx:=y]> (<[y:=ax]> (<[x:=ay]> (after s))))).
  set (b' := <[ay:=x]> (<[ax:=y]> (<[y:=bx]> (<[x:=by_]> (before s))))).
  assert (agree_off [by_; bx; y; x] (after s) a') as Hoffa.
  { repeat apply agree_off_insert. apply agree_off_nil. }
  assert (agree_off [ay; ax; y; x] (before s) b') as Hoffb.
  { repeat apply agree_off_insert. apply agree_off_nil. }
  assert (ring a' b' ([y] ++ R1 ++ [x] ++ R2)) as Hring'.
  { apply ring_blocks4; [done..|]. split.
    { assert ([y] ++ R1 ++ [x] ++ R2 ≡ₚ [x] ++ R1 ++ [y] ++ R2) as -> by solve_Permutation.
      done. }
    split. { unfold a'. rewrite !length_insert, Hla.
             pose proof (proj1 (proj2 Hring0)) as Hl. rewrite Hla in Hl.
             rewrite Hl, !length_app. simpl. lia. }
    split. { unfold b'. rewrite !length_insert, Hlb.
             pose proof (proj1 (proj2 (proj2 Hring0))) as Hl. rewrite Hlb in Hl.
             rewrite Hl, !length_app. simpl. lia. }
    split; [done|]. split.
    { apply (block_frame _ _ _ _ _ _ R1 Hnd1 Hc1 Hoffa Hoffb).
      - intros c Hc HK. apply elem_of_cons in HK as [->|HK]; [done|]. exfalso. set_solver.
      - intros c Hc HK. apply elem_of_cons in HK as [->|HK]; [exfalso; set_solver|].
        apply elem_of_cons in HK as [->|HK]; [done|]. exfalso. set_solver. }
    split; [done|]. split.
    { apply (block_frame _ _ _ _ _ _ R2 Hnd2 Hc2 Hoffa Hoffb).
      - intros c Hc HK. apply elem_of_cons in HK as [->|HK]; [exfalso; set_solver|].
        apply elem_of_cons in HK as [->|HK]; [done|]. exfalso. set_solver.
      - intros c Hc HK. apply elem_of_cons in HK as [->|HK]; [done|]. exfalso. set_solver. }
    split. { apply (joined_intro _ _ _ _ y ax); [done..| |]; unfold a', b'; lookup_inserts; done. }
    split. { apply (joined_intro _ _ _ _ by_ x); [done..| |]; unfold a', b'; lookup_inserts; done. }
    split. { apply (joined_intro _ _ _ _ x ay); [done..| |]; unfold a', b'; lookup_inserts; done. }
    apply (joined_intro _ _ _ _ bx y); [done..| |]; unfold a', b'; lookup_inserts; done. }
  eexists _, _. split; [done|]. cbn [after before __cost].
  split. { apply (ring_tour _ _ _ _ Hring'). unfold a'. by rewrite !length_insert. }
  split; [done|].
  rewrite (ring_cost a' b' _ fuel Hsq Hring'); [|unfold a'; by rewrite !length_insert|done].
  f_equal. rewrite !tour_len_blocks4 by done.
  rewrite (gap_eq [x] R1 x ax), (gap_eq R1 [y] by_ y), (gap_eq [y] R2 y ay),
    (gap_eq R2 [x] bx x), (gap_eq [y] R1 y ax), (gap_eq R1 [x] by_ x),
    (gap_eq [x] R2 x ay), (gap_eq R2 [y] bx y) by done.
  rewrite !walk_len_one. lra.
Qed.

(** X1.  [SwapNeighborhood.swap] on two cities that are not neighbours: the
    result is a tour again (the two cities have changed places in the cycle),
    and the cost attached by the delta update is the cost of walking it. *)
Theorem swap_keeps_tour (fuel : nat) (s : PathSolution) (x y : nat) :
  square → tour s → cost_consistent s → (dimension ≤ fuel)%nat →
  (x < dimension)%nat → (y < dimension)%nat → x ≠ y → ¬ adjacent (after s) x y →
  ∃ s' c, swap fuel s x y = Some s' ∧ tour s' ∧ __cost s' = Some c ∧
    cost fuel (mkPath (after s') (before s') None) = Some c.
Proof. apply swap_nonadjacent. Qed.

(** *** Segments of the path *)

Lemma make_segment_lookup path start L segment :
  make_segment path start L = Some segment →
  length segment = L ∧
  ∀ d, (d < L)%nat → segment !! d = path !! ((start + d) `mod` dimension)%nat.
Proof.
  unfold make_segment. intros Hseg. apply mapM_Some in Hseg. split.
  - apply Forall2_length in Hseg. by rewrite length_seq in Hseg.
  - intros d Hd. destruct (Forall2_lookup_l _ _ _ d d Hseg) as (c & -> & Hc); [|done].
    by rewrite lookup_seq_lt.
Qed.

(** A segment no longer than the path is the start of the path rotated to
    [start]. *)
Lemma segment_of_path path start L segment :
  length path = dimension → (start < dimension)%nat → (L ≤ dimension)%nat →
  make_segment path start L = Some segment →
  segment = take L (drop start path ++ take start path).
Proof.
  intros Hlen Hstart HL Hseg. apply make_segment_lookup in Hseg as [Hl Hlook].
  apply list_eq. intros i. destruct (decide (i < L)%nat) as [Hi|Hi].
  - rewrite (Hlook i Hi), lookup_take_lt by done.
    destruct (decide (start + i < dimension)%nat) as [Hlt|Hge].
    + rewrite lookup_app_l by (rewrite length_drop; lia).
      by rewrite lookup_drop, Nat.mod_small.
    + rewrite lookup_app_r by (rewrite length_drop; lia).
      rewrite length_drop, lookup_take_lt by lia. f_equal.
      symmetry. apply (Nat.mod_unique _ _ 1); lia.
  - rewrite lookup_take_ge by lia. apply lookup_ge_None. lia.
Qed.

(** A segment at least as long as the path holds every city of it. *)
Lemma segment_covers path start L segment c :
  length path = dimension → (start < dimension)%nat → (dimension ≤ L)%nat →
  make_segment path start L = Some segment → c ∈ path → c ∈ segment.
Proof.
  intros Hlen Hstart HL Hseg Hc. apply make_segment_lookup in Hseg as [Hl Hlook].
  apply list_elem_of_lookup in Hc as [j Hj]. pose proof (lookup_lt_Some _ _ _ Hj) as Hjlt.
  apply list_elem_of_lookup.
  destruct (decide (start ≤ j)%nat) as [Hle|Hgt].
  - exists (j - start)%nat. rewrite Hlook by lia.
    replace (start + (j - start))%nat with j by lia. by rewrite Nat.mod_small by lia.
  - exists (j + dimension - start)%nat. rewrite Hlook by lia. rewrite <- Hj. f_equal.
    symmetry. apply (Nat.mod_unique _ _ 1); lia.
Qed.

(** The path of a tour rotated to [start], cut after the segment built from
    [start]. *)
Lemma tour_segment s fuel path start L segment :
  square → tour s → cost_consistent s → (dimension ≤ fuel)%nat →
  get_path fuel s = Some path → (start < dimension)%nat →
  (1 ≤ L < dimension)%nat → make_segment path start L = Some segment →
  ∃ C, segment ≠ [] ∧ C ≠ [] ∧ length segment = L ∧
    ring (after s) (before s) (segment ++ C) ∧
    cost fuel s = Some (tour_len (segment ++ C)).
Proof.
  intros Hsq Ht Hcc Hfuel Hpath Hstart HL Hseg.
  destruct (tour_cost s fuel Hsq Ht Hcc Hfuel) as (q & Hring & Hcost).
  pose proof (tour_after _ Ht) as Hla.
  assert (length (0%nat :: q) = dimension) as Hlen.
  { destruct Hring as (_ & Hl & _). by rewrite <- Hl. }
  assert (path = 0%nat :: q) as ->.
  { destruct s as [a b c]. rewrite (ring_get_path a b c q fuel) in Hpath.
    - by injection Hpath.
    - done.
    - simpl in Hlen. lia. }
  set (rot := drop start (0%nat :: q) ++ take start (0%nat :: q)).
  assert (ring (after s) (before s) rot) as Hrot.
  { apply ring_rotate. by rewrite take_drop. }
  assert (length rot = dimension) as Hlrot.
  { unfold rot. rewrite length_app, length_drop, length_take. lia. }
  assert (L ≤ dimension)%nat as HLle by lia.
  pose proof (segment_of_path _ _ _ _ Hlen Hstart HLle Hseg) as Hsegment.
  fold rot in Hsegment. exists (drop L rot).
  assert (length segment = L) as Hlseg.
  { rewrite Hsegment, length_take. lia. }
  split. { intros ->. simpl in Hlseg. lia. }
  split. { intros Hnil. apply (f_equal length) in Hnil. rewrite length_drop in Hnil.
           simpl in Hnil. lia. }
  split; [done|]. rewrite Hsegment, take_drop. split; [done|].
  rewrite Hcost. f_equal. by apply (ring_tour_len (after s) (before s)).
Qed.

Lemma shift_guard_true s segment x :
  shift_guard s segment x = Some true →
  ∃ s0 sl bs as_, head segment = Some s0 ∧ last segment = Some sl ∧
    before s !! s0 = Some bs ∧ after s !! sl = Some as_ ∧
    x ≠ bs ∧ x ≠ as_ ∧ x ∉ segment.
Proof.
  unfold shift_guard. intros Hguard.
  destruct (head segment) as [s0|]; [|done]. simpl in Hguard.
  destruct (before s !! s0) as [bs|] eqn:Hbs; [|done]. simpl in Hguard.
  case_decide; [done|].
  destruct (last segment) as [sl|]; [|done]. simpl in Hguard.
  destruct (after s !! sl) as [as_|] eqn:Has; [|done]. simpl in Hguard.
  case_decide; [done|]. injection Hguard as Hin. apply bool_decide_eq_true in Hin.
  by exists s0, sl, bs, as_.
Qed.

Lemma insert_after_eval fuel s segment x s0 sl bs as_ ax c :
  square → length (after s) = dimension → length (before s) = dimension →
  head segment = Some s0 → last segment = Some sl →
  before s !! s0 = Some bs → after s !! sl = Some as_ → after s !! x = Some ax →
  (x < dimension ∧ s0 < dimension ∧ sl < dimension ∧ bs < dimension ∧
   as_ < dimension ∧ ax < dimension)%nat →
  cost fuel s = Some c →
  insert_after fuel s segment x =
  Some (mkPath
    (<[sl:=ax]> (<[x:=s0]> (<[bs:=as_]> (after s))))
    (<[ax:=sl]> (<[s0:=x]> (<[as_:=bs]> (before s))))
    (Some (c + distance bs as_ + distance x s0 + distance sl ax
           - distance bs s0 - distance sl as_ - distance x ax))).
Proof.
  intros Hsq Ha Hb Hs0 Hsl Hbs Has Hax Hlt Hc. unfold insert_after.
  rewrite Hs0, Hsl. cbn [mbind option_bind]. rewrite Hbs, Has, Hax, Hc. by run_move.
Qed.

Lemma insert_after_guarded (fuel : nat) (s : PathSolution) (path : list nat)
    (start segment_length : nat) (segment : list nat) (x : nat) :
  square → tour s → cost_consistent s → (dimension ≤ fuel)%nat →
  get_path fuel s = Some path →
  (start < dimension)%nat → (1 ≤ segment_length)%nat →
  make_segment path start segment_length = Some segment →
  (x < dimension)%nat → shift_guard s segment x = Some true →
  ∃ s' c, insert_after fuel s segment x = Some s' ∧ tour s' ∧ __cost s' = Some c ∧
    cost fuel (mkPath (after s') (before s') None) = Some c.
Proof.
  intros Hsq Ht Hcc Hfuel Hpath Hstart HL Hseg Hx Hguard.
  pose proof (tour_after _ Ht) as Hla. pose proof (tour_before _ Ht) as Hlb.
  apply shift_guard_true in Hguard as (s0 & sl & bs & as_ & Hs0 & Hsl & Hbs & Has & Hxbs & _ & Hxs).
  destruct (tour_cost s fuel Hsq Ht Hcc Hfuel) as (q0 & Hq0 & _).
  assert (path = 0%nat :: q0) as Hpatheq.
  { destruct s as [a b c]. simpl in *. rewrite (ring_get_path a b c q0 fuel Hq0) in Hpath.
    - by injection Hpath.
    - destruct Hq0 as (_ & Hl & _). simpl in Hl. lia. }
  assert (x ∈ path) as Hxpath.
  { rewrite Hpatheq. apply (ring_elem _ _ _ _ Hq0). by rewrite Hla. }
  assert (length path = dimension) as Hlpath.
  { rewrite Hpatheq. destruct Hq0 as (_ & Hl & _). by rewrite <- Hl. }
  assert (segment_length < dimension)%nat as HLlt.
  { destruct (decide (segment_length < dimension)%nat) as [|Hge]; [done|]. exfalso.
    apply Hxs. apply (segment_covers path start segment_length); [done..|lia|done|done]. }
  destruct (tour_segment s fuel path start segment_length segment)
    as (R & HS & HR & _ & Hring & Hcost); [done..|lia|done|].
  assert (x ∈ R) as HxR.
  { assert (x ∈ segment ++ R) as Hin by (apply (ring_elem _ _ _ _ Hring); by rewrite Hla).
    set_solver. }
  apply list_elem_of_split in HxR as (R1 & R2 & ->).
  assert (R2 ≠ []) as HR2.
  { intros ->. apply ring_blocks2 in Hring as (_ & _ & _ & _ & _ & _ & J); [|done..].
    destruct J as (u & v & Hu & Hv & _ & Hb). rewrite last_snoc in Hu.
    injection Hu as <-. rewrite Hs0 in Hv. injection Hv as <-. congruence. }
  set (X := R1 ++ [x]).
  assert (X ≠ []) as HX by (unfold X; by destruct R1).
  replace (segment ++ R1 ++ x :: R2) with (segment ++ X ++ R2) in *
    by (unfold X; by rewrite <- !app_assoc).
  assert (last X = Some x) as HlastX by (unfold X; apply last_snoc).
  pose proof Hring as Hring0.
  apply ring_blocks3 in Hring as (Hnd & _ & _ & HcS & HcX & HcR & J1 & J2 & J3); [|done..].
  apply joined_link in J1 as (? & hx & Hsl' & Hhx & Hasl & Hbhx & HslS & HhxX).
  rewrite Hsl in Hsl'. injection Hsl' as <-.
  rewrite Has in Hasl. injection Hasl as <-.
  apply joined_link in J2 as (? & ax & Hx' & Hax & Haax & Hbax & _ & HaxR).
  rewrite HlastX in Hx'. injection Hx' as <-.
  apply joined_link in J3 as (lr & ? & Hlr & Hs0' & Halr & Hblr & HlrR & Hs0S).
  rewrite Hs0 in Hs0'. injection Hs0' as <-.
  rewrite Hbs in Hblr. injection Hblr as <-.
  assert (x ∈ X) as HxX by (by apply last_Some_elem_of).
  assert (s0 < dimension ∧ sl < dimension ∧ bs < dimension ∧ as_ < dimension ∧
          ax < dimension)%nat as (Hs0lt & Hsllt & Hbslt & Haslt & Haxlt).
  { apply lookup_lt_Some in Hbs, Has, Halr, Hbhx, Hbax. lia. }
  rewrite (insert_after_eval fuel s segment x s0 sl bs as_ ax
             (tour_len (segment ++ X ++ R2))); [|done..].
  apply NoDup_app in Hnd as (HndS & HSX & Hnd). apply NoDup_app in Hnd as (HndX & HXR & HndR).
  set (a' := <[sl:=ax]> (<[x:=s0]> (<[bs:=as_]> (after s)))).
  set (b' := <[ax:=sl]> (<[s0:=x]> (<[as_:=bs]> (before s)))).
  assert (agree_off [sl; x; bs] (after s) a') as Hoffa.
  { repeat apply agree_off_insert. apply agree_off_nil. }
  assert (agree_off [ax; s0; as_] (before s) b') as Hoffb.
  { repeat apply agree_off_insert. apply agree_off_nil. }
  assert (ring a' b' (X ++ segment ++ R2)) as Hring'.
  { apply ring_blocks3; [done..|]. split.
    { apply NoDup_app. split; [done|]. split; [set_solver|].
      apply NoDup_app. split; [done|]. split; [set_solver|done]. }
    split. { unfold a'. rewrite !length_insert, Hla.
             pose proof (proj1 (proj2 Hring0)) as Hl. rewrite Hla in Hl.
             rewrite Hl, !length_app. lia. }
    split. { unfold b'. rewrite !length_insert, Hlb.
             pose proof (proj1 (proj2 (proj2 Hring0))) as Hl. rewrite Hlb in Hl.
             rewrite Hl, !length_app. lia. }
    split.
    { apply (block_frame _ _ _ _ _ _ X HndX HcX Hoffa Hoffb).
      - intros c Hc HK. apply elem_of_cons in HK as [->|HK]; [exfalso; set_solver|].
        apply elem_of_cons in HK as [->|HK]; [done|]. exfalso. set_solver.
      - intros c Hc HK. apply elem_of_cons in HK as [->|HK]; [exfalso; set_solver|].
        apply elem_of_cons in HK as [->|HK]; [exfalso; set_solver|].
        apply list_elem_of_singleton in HK as ->. done. }
    split.
    { apply (block_frame _ _ _ _ _ _ segment HndS HcS Hoffa Hoffb).
      - intros c Hc HK. apply elem_of_cons in HK as [->|HK]; [done|]. exfalso. set_solver.
      - intros c Hc HK. apply elem_of_cons in HK as [->|HK]; [exfalso; set_solver|].
        apply elem_of_cons in HK as [->|HK]; [done|]. exfalso. set_solver. }
    split.
    { apply (block_frame _ _ _ _ _ _ R2 HndR HcR Hoffa Hoffb).
      - intros c Hc HK. apply elem_of_cons in HK as [->|HK]; [exfalso; set_solver|].
        apply elem_of_cons in HK as [->|HK]; [exfalso; set_solver|].
        apply list_elem_of_singleton in HK as ->. done.
      - intros c Hc HK. apply elem_of_cons in HK as [->|HK]; [done|]. exfalso. set_solver. }
    split. { apply (joined_intro _ _ _ _ x s0); [done..| |]; unfold a', b'; lookup_inserts; done. }
    split. { apply (joined_intro _ _ _ _ sl ax); [done..| |]; unfold a', b'; lookup_inserts; done. }
    apply (joined_intro _ _ _ _ bs as_); [done..| |]; unfold a', b'; lookup_inserts; done. }
  eexists _, _. split; [done|]. cbn [after before __cost].
  split. { apply (ring_tour _ _ _ _ Hring'). unfold a'. by rewrite !length_insert. }
  split; [done|].
  rewrite (ring_cost a' b' _ fuel Hsq Hring'); [|unfold a'; by rewrite !length_insert|done].
  f_equal. rewrite !tour_len_blocks3 by done.
  rewrite (gap_eq segment X sl as_), (gap_eq X R2 x ax), (gap_eq R2 segment bs s0),
    (gap_eq X segment x s0), (gap_eq segment R2 sl ax), (gap_eq R2 X bs as_) by done.
  lra.
Qed.

(** X2.  [SegmentShift.insert_after] on a segment built by the candidate loop and
    a target that passes its guard: the result is a tour again (the segment
    has moved behind the target), and the cost attached by the delta update is
    the cost of walking it. *)
Theorem insert_after_keeps_tour (fuel : nat) (s : PathSolution) (path : list nat)
    (start segment_length : nat) (segment : list nat) (x : nat) :
  square → tour s → cost_consistent s → (dimension ≤ fuel)%nat →
  get_path fuel s = Some path →
  (start < dimension)%nat → (1 ≤ segment_length)%nat →
  make_segment path start segment_length = Some segment →
  (x < dimension)%nat → shift_guard s segment x = Some true →
  ∃ s' c, insert_after fuel s segment x = Some s' ∧ tour s' ∧ __cost s' = Some c ∧
    cost fuel (mkPath (after s') (before s') None) = Some c.
Proof. apply insert_after_guarded. Qed.

(** *** Reversing a segment *)

Lemma exchange_spec segment : ∀ b a,
  NoDup segment →
  Forall (λ c, (c < length a)%nat ∧ (c < length b)%nat) segment →
  ∃ b1 a1, exchange b a segment = Some (b1, a1) ∧
    length b1 = length b ∧ length a1 = length a ∧
    (∀ c, c ∈ segment → b1 !! c = a !! c ∧ a1 !! c = b !! c) ∧
    (∀ c, c ∉ segment → b1 !! c = b !! c ∧ a1 !! c = a !! c).
Proof.
  induction segment as [|i segment IH]; intros b a Hnd Hlt.
  - exists b, a. split; [done|]. do 2 (split; [done|]). split; [|done].
    intros c Hc. by apply elem_of_nil in Hc.
  - apply NoDup_cons in Hnd as [Hi Hnd]. apply Forall_cons in Hlt as [[Hia Hib] Hlt].
    destruct (lookup_lt_is_Some_2 a i Hia) as [ai Hai].
    destruct (lookup_lt_is_Some_2 b i Hib) as [bi Hbi].
    destruct (IH (<[i:=ai]> b) (<[i:=bi]> a) Hnd) as (b1 & a1 & Hex & Hlb & Hla & Hin & Hout).
    { by rewrite !length_insert. }
    exists b1, a1. split.
    { cbn [exchange]. rewrite Hai, Hbi. cbn [mbind option_bind].
      rewrite !setitem_Some by done. done. }
    rewrite !length_insert in *. do 2 (split; [done|]). split.
    + intros c Hc. apply elem_of_cons in Hc as [->|Hc].
      * destruct (Hout i Hi) as [-> ->]. by rewrite !list_lookup_insert_eq.
      * destruct (Hin c Hc) as [-> ->].
        rewrite !list_lookup_insert_ne by (intros ->; done). done.
    + intros c Hc. apply not_elem_of_cons in Hc as [Hne Hc].
      destruct (Hout c Hc) as [-> ->]. by rewrite !list_lookup_insert_ne.
Qed.

Lemma reverse_eval fuel s segment s0 sl bs as_ b1 a1 c :
  square →
  head segment = Some s0 → last segment = Some sl →
  before s !! s0 = Some bs → after s !! sl = Some as_ →
  (s0 < dimension ∧ sl < dimension ∧ bs < dimension ∧ as_ < dimension)%nat →
  cost fuel s = Some c →
  exchange (before s) (after s) segment = Some (b1, a1) →
  length b1 = dimension → length a1 = dimension →
  reverse fuel s segment =
  Some (mkPath
    (<[s0:=as_]> (<[bs:=sl]> a1))
    (<[as_:=s0]> (<[sl:=bs]> b1))
    (Some (c + distance bs sl + distance s0 as_ - distance bs s0 - distance sl as_))).
Proof.
  intros Hsq Hs0 Hsl Hbs Has Hlt Hc Hex Hlb Hla. unfold reverse.
  rewrite Hs0, Hsl. cbn [mbind option_bind]. rewrite Hbs, Has, Hc. run_move.
  rewrite Hex. by run_move.
Qed.

Lemma distance_sym u v : symmetric → distance u v = distance v u.
Proof. intros Hsym. unfold distance. by rewrite Hsym. Qed.

(** With a symmetric table a path is as long backwards as forwards. *)
Lemma walk_len_reversed l : symmetric → walk_len (reversed l) = walk_len l.
Proof.
  intros Hsym. induction l as [|u l IH]; [done|]. rewrite reverse_cons.
  destruct l as [|v l]; [done|].
  rewrite walk_len_app, IH, walk_len_one, walk_len_cons2.
  - rewrite (gap_eq _ _ v u); [rewrite (distance_sym v u Hsym); lra| |done].
    by rewrite last_reverse.
  - rewrite reverse_cons. by destruct (reversed l).
  - done.
Qed.

Lemma reverse_segment (fuel : nat) (s : PathSolution) (path : list nat)
    (start segment_length : nat) (segment : list nat) :
  square → tour s → cost_consistent s → (dimension ≤ fuel)%nat →
  get_path fuel s = Some path →
  (start < dimension)%nat → (1 ≤ segment_length < dimension)%nat →
  make_segment path start segment_length = Some segment →
  ∃ s' c, reverse fuel s segment = Some s' ∧ tour s' ∧ __cost s' = Some c ∧
    (symmetric → cost fuel (mkPath (after s') (before s') None) = Some c).
Proof.
  intros Hsq Ht Hcc Hfuel Hpath Hstart HL Hseg.
  pose proof (tour_after _ Ht) as Hla. pose proof (tour_before _ Ht) as Hlb.
  destruct (tour_segment s fuel path start segment_length segment)
    as (C & HS & HC & _ & Hring & Hcost); [done..|].
  pose proof Hring as Hring0.
  apply ring_blocks2 in Hring as (Hnd & _ & _ & HcS & HcC & J1 & J2); [|done..].
  apply joined_link in J1 as (sl & as_ & Hsl & Has_ & Has & Hbas & HslS & HasC).
  apply joined_link in J2 as (bs & s0 & Hbs_ & Hs0 & Habs & Hbs & HbsC & Hs0S).
  assert (s0 < dimension ∧ sl < dimension ∧ bs < dimension ∧ as_ < dimension)%nat
    as (Hs0lt & Hsllt & Hbslt & Haslt).
  { apply lookup_lt_Some in Hbs, Has, Habs, Hbas. lia. }
  apply NoDup_app in Hnd as (HndS & HSC & HndC).
  destruct (exchange_spec segment (before s) (after s) HndS)
    as (b1 & a1 & Hex & Hlb1 & Hla1 & Hin & Hout).
  { apply Forall_forall. intros c Hc.
    assert (c < length (after s))%nat; [|lia].
    apply (ring_elem_lt _ _ _ _ Hring0). set_solver. }
  rewrite Hlb in Hlb1. rewrite Hla in Hla1.
  rewrite (reverse_eval fuel s segment s0 sl bs as_ b1 a1 (tour_len (segment ++ C)));
    [|done..].
  set (a' := <[s0:=as_]> (<[bs:=sl]> a1)).
  set (b' := <[as_:=s0]> (<[sl:=bs]> b1)).
  assert (agree_off (s0 :: bs :: segment) (after s) a') as Hoffa.
  { repeat apply agree_off_insert. intros c Hc. by apply Hout. }
  assert (agree_off (as_ :: sl :: segment) (before s) b') as Hoffb.
  { repeat apply agree_off_insert. intros c Hc. by apply Hout. }
  assert (reversed segment ≠ []) as Hrev.
  { intros Hnil. apply (f_equal length) in Hnil. rewrite length_reverse in Hnil.
    by destruct segment. }
  assert (ring a' b' (reversed segment ++ C)) as Hring'.
  { apply ring_blocks2; [done..|]. split.
    { apply NoDup_app. split; [by rewrite reverse_Permutation|]. split; [|done].
      intros c Hc. rewrite elem_of_reverse in Hc. by apply HSC. }
    split. { unfold a'. rewrite !length_insert, Hla1.
             pose proof (proj1 (proj2 Hring0)) as Hl. rewrite Hla in Hl.
             by rewrite Hl, !length_app, length_reverse. }
    split. { unfold b'. rewrite !length_insert, Hlb1.
             pose proof (proj1 (proj2 (proj2 Hring0))) as Hl. rewrite Hlb in Hl.
             by rewrite Hl, !length_app, length_reverse. }
    split.
    { apply chainR_inside in HcS; [|done]. apply chainR_reverse in HcS.
      revert HcS. apply chainR_impl. unfold flip.
      intros u v ((Hav & Hbu) & Hv & Hu & Hlast & Hhead). split.
      - unfold a'. rewrite list_lookup_insert_ne by congruence.
        rewrite list_lookup_insert_ne by set_solver.
        destruct (Hin u Hu) as [_ ->]. done.
      - unfold b'. rewrite list_lookup_insert_ne by set_solver.
        rewrite list_lookup_insert_ne by congruence.
        destruct (Hin v Hv) as [-> _]. done. }
    split.
    { apply (block_frame _ _ _ _ _ _ C HndC HcC Hoffa Hoffb).
      - intros c Hc HK. apply elem_of_cons in HK as [->|HK]; [exfalso; set_solver|].
        apply elem_of_cons in HK as [->|HK]; [done|]. exfalso. set_solver.
      - intros c Hc HK. apply elem_of_cons in HK as [->|HK]; [done|]. exfalso.
        set_solver. }
    split.
    { apply (joined_intro _ _ _ _ s0 as_); [by rewrite last_reverse|done| |];
        unfold a', b'; lookup_inserts; done. }
    apply (joined_intro _ _ _ _ bs sl); [done|by rewrite head_reverse| |];
      unfold a', b'; lookup_inserts; done. }
  eexists _, _. split; [done|]. cbn [after before __cost].
  split. { apply (ring_tour _ _ _ _ Hring'). unfold a'. by rewrite !length_insert. }
  split; [done|]. intros Hsym.
  rewrite (ring_cost a' b' _ fuel Hsq Hring'); [|unfold a'; by rewrite !length_insert|done].
  f_equal. rewrite !tour_len_blocks2 by done. rewrite walk_len_reversed by done.
  rewrite (gap_eq segment C sl as_), (gap_eq C segment bs s0),
    (gap_eq (reversed segment) C s0 as_), (gap_eq C (reversed segment) bs sl);
    [lra|done|by rewrite head_reverse|by rewrite last_reverse|done..].
Qed.

(** X3.  [SegmentReverse.reverse] on a segment built by the candidate loop that
    is shorter than the cycle: the result is a tour again (the segment is
    walked backwards), and on a symmetric table the cost attached by the
    delta update is the cost of walking it. *)
Theorem reverse_keeps_tour (fuel : nat) (s : PathSolution) (path : list nat)
    (start segment_length : nat) (segment : list nat) :
  square → tour s → cost_consistent s → (dimension ≤ fuel)%nat →
  get_path fuel s = Some path →
  (start < dimension)%nat → (1 ≤ segment_length < dimension)%nat →
  make_segment path start segment_length = Some segment →
  ∃ s' c, reverse fuel s segment = Some s' ∧ tour s' ∧ __cost s' = Some c ∧
    (symmetric → cost fuel (mkPath (after s') (before s') None) = Some c).
Proof. apply reverse_segment. Qed.

(** X8.  On a tour whose cost is not memoized yet, [get_path] and [cost]
    both end within [dimension] rounds of their loops; [get_path] lists every
    city once, from the depot, and [cost] is the length of that path closed
    back to the depot. *)
Theorem cost_walks_path (fuel : nat) (s : PathSolution) :
  square → tour s → __cost s = None → (dimension ≤ fuel)%nat →
  ∃ path, get_path fuel s = Some path ∧ head path = Some 0%nat ∧
    path ≡ₚ seq 0 dimension ∧ cost fuel s = Some (tour_len path).
Proof.
  intros Hsq Ht Hnone Hfuel.
  destruct (tour_cost s fuel Hsq Ht) as (q & Hring & Hcost); [|done|].
  { intros c Hc. congruence. }
  pose proof (tour_after _ Ht) as Hla. pose proof (ring_perm _ _ _ Hring) as Hperm.
  rewrite Hla in Hperm. exists (0%nat :: q). split; [|done].
  destruct s as [a b c]. apply ring_get_path; [done|].
  apply Permutation_length in Hperm. rewrite length_seq in Hperm. simpl in Hperm. lia.
Qed.

(** *** Swapping twice *)

(** [swap] on the cycle listed from [x]: the two cities change places. *)
Lemma swap_ring fuel s x y R1 R2 :
  square → length (after s) = dimension → length (before s) = dimension →
  ring (after s) (before s) ([x] ++ R1 ++ [y] ++ R2) → R1 ≠ [] → R2 ≠ [] →
  (dimension ≤ fuel)%nat →
  cost fuel s = Some (tour_len ([x] ++ R1 ++ [y] ++ R2)) →
  ∃ s', swap fuel s x y = Some s' ∧
    ring (after s') (before s') ([y] ++ R1 ++ [x] ++ R2) ∧
    length (after s') = dimension ∧ length (before s') = dimension ∧
    __cost s' = Some (tour_len ([y] ++ R1 ++ [x] ++ R2)).
Proof.
  intros Hsq Hla Hlb Hring HR1 HR2 Hfuel Hcost.
  pose proof Hring as Hring0.
  apply ring_blocks4 in Hring as (Hnd & _ & _ & _ & Hc1 & _ & Hc2 & J1 & J2 & J3 & J4);
    [|done..].
  apply joined_link in J1 as (? & ax & [= <-] & Hax & Haax & Hbax & _ & Hax1).
  apply joined_link in J2 as (by_ & ? & Hby & [= <-] & Haby & Hbby & Hby1 & _).
  apply joined_link in J3 as (? & ay & [= <-] & Hay & Haay & Hbay & _ & Hay2).
  apply joined_link in J4 as (bx & ? & Hbx & [= <-] & Habx & Hbbx & Hbx2 & _).
  assert (x < dimension ∧ y < dimension ∧ bx < dimension ∧ by_ < dimension ∧
          ax < dimension ∧ ay < dimension)%nat as Hlt.
  { apply lookup_lt_Some in Habx, Haby, Hbax, Hbay, Haax, Haay. lia. }
  rewrite (swap_eval fuel s x y bx by_ ax ay (tour_len ([x] ++ R1 ++ [y] ++ R2)));
    [|done..].
  apply NoDup_app in Hnd as (_ & Hx1 & Hnd). apply NoDup_app in Hnd as (Hnd1 & H12 & Hnd).
  apply NoDup_app in Hnd as (_ & Hy2 & Hnd2).
  set (a' := <[by_:=x]> (<[bx:=y]> (<[y:=ax]> (<[x:=ay]> (after s))))).
  set (b' := <[ay:=x]> (<[ax:=y]> (<[y:=bx]> (<[x:=by_]> (before s))))).
  assert (agree_off [by_; bx; y; x] (after s) a') as Hoffa.
  { repeat apply agree_off_insert. apply agree_off_nil. }
  assert (agree_off [ay; ax; y; x] (before s) b') as Hoffb.
  { repeat apply agree_off_insert. apply agree_off_nil. }
  destruct Hlt as (Hxlt & Hylt & Hbxlt & Hbylt & Haxlt & Haylt).
  assert (ring a' b' ([y] ++ R1 ++ [x] ++ R2)) as Hring'.
  { apply ring_blocks4; [done..|]. split.
    { apply NoDup_app. split; [apply NoDup_singleton|]. split; [set_solver|].
      apply NoDup_app. split; [done|]. split; [set_solver|].
      apply NoDup_app. split; [apply NoDup_singleton|]. split; [set_solver|done]. }
    split. { unfold a'. rewrite !length_insert, Hla.
             pose proof (proj1 (proj2 Hring0)) as Hl. rewrite Hla in Hl.
             rewrite Hl, !length_app. simpl. lia. }
    split. { unfold b'. rewrite !length_insert, Hlb.
             pose proof (proj1 (proj2 (proj2 Hring0))) as Hl. rewrite Hlb in Hl.
             rewrite Hl, !length_app. simpl. lia. }
    split; [done|]. split.
    { apply (block_frame _ _ _ _ _ _ R1 Hnd1 Hc1 Hoffa Hoffb).
      - intros c Hc HK. apply elem_of_cons in HK as [->|HK]; [done|]. exfalso. set_solver.
      - intros c Hc HK. apply elem_of_cons in HK as [->|HK]; [exfalso; set_solver|].
        apply elem_of_cons in HK as [->|HK]; [done|]. exfalso. set_solver. }
    split; [done|]. split.
    { apply (block_frame _ _ _ _ _ _ R2 Hnd2 Hc2 Hoffa Hoffb).
      - intros c Hc HK. apply elem_of_cons in HK as [->|HK]; [exfalso; set_solver|].
        apply elem_of_cons in HK as [->|HK]; [done|]. exfalso. set_solver.
      - intros c Hc HK. apply elem_of_cons in HK as [->|HK]; [done|]. exfalso. set_solver. }
    split. { apply (joined_intro _ _ _ _ y ax); [done..| |]; unfold a', b'; lookup_inserts; done. }
    split. { apply (joined_intro _ _ _ _ by_ x); [done..| |]; unfold a', b'; lookup_inserts; done. }
    split. { apply (joined_intro _ _ _ _ x ay); [done..| |]; unfold a', b'; lookup_inserts; done. }
    apply (joined_intro _ _ _ _ bx y); [done..| |]; unfold a', b'; lookup_inserts; done. }
  eexists. split; [done|]. cbn [after before __cost]. split; [done|].
  split; [unfold a'; by rewrite !length_insert|].
  split; [unfold b'; by rewrite !length_insert|].
  f_equal. rewrite !tour_len_blocks4 by done.
  rewrite (gap_eq [x] R1 x ax), (gap_eq R1 [y] by_ y), (gap_eq [y] R2 y ay),
    (gap_eq R2 [x] bx x), (gap_eq [y] R1 y ax), (gap_eq R1 [x] by_ x),
    (gap_eq [x] R2 x ay), (gap_eq R2 [y] bx y) by done.
  rewrite !walk_len_one. lra.
Qed.

(** The cycle determines the two arrays. *)
Lemma ring_neighbours a b l1 i l2 :
  ring a b (l1 ++ i :: l2) →
  a !! i = head (l2 ++ l1 ++ [i]) ∧ b !! i = last (i :: l2 ++ l1).
Proof.
  intros Hring. apply (ring_rotate _ _ l1 (i :: l2)) in Hring. cbn [app] in Hring.
  destruct Hring as (_ & _ & _ & h & [= <-] & Hchain).
  destruct (l2 ++ l1) as [|v rest] eqn:Hrest.
  - rewrite app_assoc, Hrest. cbn [app] in *. by destruct Hchain as [[Ha Hb] _].
  - rewrite app_assoc, Hrest. cbn [app] in Hchain |- *. split.
    + by destruct Hchain as [[Ha _] _].
    + change (i :: v :: rest ++ [i]) with ((i :: v :: rest) ++ [i]) in Hchain.
      destruct (last (i :: v :: rest)) as [z|] eqn:Hz; [|by apply last_None in Hz].
      apply last_Some in Hz as [init Hinit]. rewrite Hinit, <- app_assoc in Hchain.
      apply chainR_mid in Hchain as [_ Hchain]. cbn [app] in Hchain.
      by destruct Hchain as [[_ Hb] _].
Qed.

Lemma ring_arrays a b a' b' p : ring a b p → ring a' b' p → a = a' ∧ b = b'.
Proof.
  intros Hp Hp'.
  pose proof Hp as (_ & Hla & Hlb & _). pose proof Hp' as (_ & Hla' & Hlb' & _).
  assert (∀ i, (i < length p)%nat → a !! i = a' !! i ∧ b !! i = b' !! i) as Hsame.
  { intros i Hi. assert (i ∈ p) as Hin.
    { apply (ring_elem _ _ _ _ Hp). by rewrite Hla. }
    apply list_elem_of_split in Hin as (l1 & l2 & ->).
    destruct (ring_neighbours _ _ _ _ _ Hp) as [-> ->].
    by destruct (ring_neighbours _ _ _ _ _ Hp') as [-> ->]. }
  split; apply list_eq; intros i; destruct (decide (i < length p)%nat) as [Hi|Hi].
  - by destruct (Hsame i Hi).
  - by rewrite !lookup_ge_None_2 by lia.
  - by destruct (Hsame i Hi).
  - by rewrite !lookup_ge_None_2 by lia.
Qed.

(** X20.  [swap] undoes itself: on a valid tour, swapping two cities that
    are not neighbours and then swapping the same two cities in the result
    gives back the arrays and the cost of the tour one started from. *)
Theorem swap_twice (fuel : nat) (s : PathSolution) (x y : nat) :
  square → tour s → cost_consistent s → (dimension ≤ fuel)%nat →
  (x < dimension)%nat → (y < dimension)%nat → x ≠ y → ¬ adjacent (after s) x y →
  ∃ s' s'', swap fuel s x y = Some s' ∧ swap fuel s' x y = Some s'' ∧
    after s'' = after s ∧ before s'' = before s ∧ cost fuel s'' = cost fuel s.
Proof.
  intros Hsq Ht Hcc Hfuel Hx Hy Hxy Hadj.
  destruct (tour_ring_at s fuel x) as (q & Hring & Hcost); [done..|].
  pose proof (tour_after _ Ht) as Hla. pose proof (tour_before _ Ht) as Hlb.
  assert (y ∈ q) as Hyq.
  { assert (y ∈ x :: q) as Hin by (apply (ring_elem _ _ _ _ Hring); by rewrite Hla).
    set_solver. }
  apply list_elem_of_split in Hyq as (R1 & R2 & ->).
  change (x :: R1 ++ y :: R2) with ([x] ++ R1 ++ [y] ++ R2) in *.
  assert (R1 ≠ []) as HR1.
  { intros ->. apply (ring_blocks2 _ _ [x]) in Hring as (_ & _ & _ & _ & _ & J & _); [|done..].
    destruct J as (u & v & [= <-] & [= <-] & Hl & _). apply Hadj. by left. }
  assert (R2 ≠ []) as HR2.
  { intros ->. rewrite !app_assoc, app_nil_r in Hring.
    apply (ring_rotate _ _ (([x] ++ R1)) [y]) in Hring.
    apply (ring_blocks2 _ _ [y]) in Hring as (_ & _ & _ & _ & _ & J & _); [|done..].
    destruct J as (u & v & [= <-] & [= <-] & Hl & _). apply Hadj. by right. }
  destruct (swap_ring fuel s x y R1 R2) as (s' & Hswap & Hring' & Hla' & Hlb' & Hcost');
    [done..|].
  apply (ring_rotate _ _ ([y] ++ R1) ([x] ++ R2)) in Hring'.
  rewrite <- !app_assoc in Hring'.
  destruct (swap_ring fuel s' x y R2 R1) as (s'' & Hswap' & Hring'' & Hla'' & Hlb'' & Hcost'');
    [done..| |].
  { unfold cost. rewrite Hcost'. f_equal.
    rewrite (app_assoc [y] R1 ([x] ++ R2)), (tour_len_rotate ([y] ++ R1) ([x] ++ R2)).
    by rewrite <- !app_assoc. }
  apply (ring_rotate _ _ ([y] ++ R2) ([x] ++ R1)) in Hring''.
  rewrite <- !app_assoc in Hring''.
  destruct (ring_arrays _ _ _ _ _ Hring'' Hring) as [Ha Hb].
  exists s', s''. do 4 (split; [done|]).
  rewrite Hcost. unfold cost. rewrite Hcost''. f_equal.
  rewrite (app_assoc [y] R2 ([x] ++ R1)), (tour_len_rotate ([y] ++ R2) ([x] ++ R1)).
  by rewrite <- !app_assoc.
Qed.

(** *** The swap neighbourhood keeps the invariant *)




(** *** The candidate loop of the shift neighbourhood *)

(** The body of the inner loop of [SegmentShift.find_best_candidate], for
    the target [index], on the loop variables [result] and [min_pair]. *)
Definition shift_round (fuel : nat) (solution : PathSolution) (tabu_set : gset (nat * nat))
    (segment : list nat) (acc : option PathSolution * option (nat * nat)) (index : nat)
  : option (option PathSolution * option (nat * nat)) :=
  passes ← shift_guard solution segment index;
  if (passes : bool) then
    s0 ← head segment;
    let pr := (s0, index) in
    if decide (pr ∈ tabu_set) then Some acc
    else
      inserted ← insert_after fuel solution segment index;
      match acc.1 with
      | None => Some (Some inserted, Some pr)
      | Some result =>
          lt ← solution_lt fuel inserted result;
          if (lt : bool) then Some (Some inserted, Some pr) else Some acc
      end
  else Some acc.

(** The body of the outer loop, for the segment that starts at position
    [start] of the path. *)
Definition shift_rounds (fuel : nat) (solution : PathSolution) (tabu_set : gset (nat * nat))
    (path : list nat) (segment_length : nat)
    (acc : option PathSolution * option (nat * nat)) (start : nat)
  : option (option PathSolution * option (nat * nat)) :=
  segment ← make_segment path start segment_length;
  foldl (λ acc index, acc ← acc; shift_round fuel solution tabu_set segment acc index)
        (Some acc) (seq 0 dimension).

(** [SegmentShift.find_best_candidate]: the candidate returned and the tabu
    state of the class afterwards. *)
Definition shift_find_best_candidate (fuel : nat) (solution : PathSolution)
    (segment_length : nat) (tabu : Tabu.TabuState (nat * nat))
  : option (option PathSolution * Tabu.TabuState (nat * nat)) :=
  if decide (dimension + 2 < segment_length)%nat then Some (None, tabu)
  else
    path ← get_path fuel solution;
    '(result, min_pair) ←
      foldl (λ acc start,
               acc ← acc; shift_rounds fuel solution (Tabu._tabu_set tabu) path segment_length
                            acc start)
            (Some (None, None)) (seq 0 dimension);
    match min_pair with
    | Some pr => tabu' ← Tabu.add_to_tabu tabu pr; Some (result, tabu')
    | None => Some (result, tabu)
    end.

(** The moves the loops evaluate: the segment that starts at position
    [start] of the path, put behind the city [index]. *)
Definition shift_candidate (s : PathSolution) (tabu_set : gset (nat * nat))
    (path : list nat) (segment_length : nat) (move : nat * nat) (segment : list nat)
  : Prop :=
  (move.1 < dimension)%nat ∧ (move.2 < dimension)%nat ∧
  make_segment path move.1 segment_length = Some segment ∧
  shift_guard s segment move.2 = Some true ∧
  ∀ s0, head segment = Some s0 → (s0, move.2) ∉ tabu_set.

(** What the loop variables hold once the moves [seen] have been looked
    at. *)
Definition shift_best (fuel : nat) (s : PathSolution) (tabu_set : gset (nat * nat))
    (path : list nat) (segment_length : nat)
    (acc : option PathSolution * option (nat * nat)) (seen : list (nat * nat)) : Prop :=
  match acc with
  | (None, None) =>
      ∀ q segment, q ∈ seen → ¬ shift_candidate s tabu_set path segment_length q segment
  | (Some best, Some pr) =>
      ∃ move segment cb,
        shift_candidate s tabu_set path segment_length move segment ∧
        head segment = Some pr.1 ∧ pr.2 = move.2 ∧
        insert_after fuel s segment move.2 = Some best ∧
        tour best ∧ __cost best = Some cb ∧
        cost fuel (mkPath (after best) (before best) None) = Some cb ∧
        ∀ q segment', q ∈ seen →
          shift_candidate s tabu_set path segment_length q segment' →
          ∃ sq cq, insert_after fuel s segment' q.2 = Some sq ∧ __cost sq = Some cq ∧
            cb <= cq
  | _ => False
  end.

(** A loop whose body can raise, with an invariant on what has been
    iterated over. *)
Lemma foldl_option_inv {A B} (f : B → A → option B) (I : B → list A → Prop) (l : list A) :
  ∀ b seen,
  I b seen →
  (∀ b seen a, a ∈ l → I b seen → ∃ b', f b a = Some b' ∧ I b' (seen ++ [a])) →
  ∃ b', foldl (λ acc a, b ← acc; f b a) (Some b) l = Some b' ∧ I b' (seen ++ l).
Proof.
  induction l as [|a l IH]; intros b seen Hb Hstep.
  - exists b. by rewrite app_nil_r.
  - cbn [foldl mbind option_bind].
    destruct (Hstep b seen a) as (b1 & -> & Hb1); [by left|done|].
    destruct (IH b1 (seen ++ [a]) Hb1) as (b' & Hrun & Hb').
    { intros b0 seen0 a0 Ha0. apply Hstep. by right. }
    exists b'. split; [done|]. by rewrite <- app_assoc in Hb'.
Qed.

Lemma make_segment_runs path start L :
  length path = dimension → (start < dimension)%nat →
  ∃ segment, make_segment path start L = Some segment ∧ length segment = L ∧
    ∀ c, c ∈ segment → c ∈ path.
Proof.
  intros Hlen Hstart.
  destruct (mapM (λ d, path !! ((start + d) `mod` dimension)%nat) (seq 0 L))
    as [segment|] eqn:Hseg.
  - exists segment. split; [done|].
    destruct (make_segment_lookup path start L segment Hseg) as [Hl Hlook].
    split; [done|]. intros c Hc. apply list_elem_of_lookup in Hc as [d Hd].
    rewrite Hlook in Hd by (apply lookup_lt_Some in Hd; lia).
    by apply list_elem_of_lookup_2 in Hd.
  - exfalso. apply mapM_None_1 in Hseg. apply Exists_exists in Hseg as (d & _ & Hd).
    apply lookup_ge_None in Hd.
    pose proof (Nat.mod_upper_bound (start + d) dimension). lia.
Qed.

Lemma shift_guard_runs s segment index :
  tour s → segment ≠ [] → (∀ c, c ∈ segment → (c < dimension)%nat) →
  ∃ passes, shift_guard s segment index = Some passes.
Proof.
  intros Ht Hne Hlt. unfold shift_guard.
  destruct (head segment) as [s0|] eqn:Hs0; [|by destruct segment].
  cbn [mbind option_bind].
  destruct (tour_before_lt s s0 Ht) as (bs & -> & _).
  { apply Hlt. by apply head_Some_elem_of. }
  cbn [mbind option_bind]. case_decide; [by eexists|].
  destruct (last segment) as [sl|] eqn:Hsl; [|by apply last_None in Hsl].
  cbn [mbind option_bind].
  destruct (tour_after_lt s sl Ht) as (as_ & -> & _).
  { apply Hlt. by apply last_Some_elem_of. }
  cbn [mbind option_bind]. case_decide; by eexists.
Qed.

Lemma shift_round_spec fuel s tabu_set path L acc seen start index segment :
  square → tour s → cost_consistent s → (dimension ≤ fuel)%nat →
  get_path fuel s = Some path → (1 ≤ L)%nat →
  (start < dimension)%nat → (index < dimension)%nat →
  make_segment path start L = Some segment →
  (∀ c, c ∈ segment → (c < dimension)%nat) →
  shift_best fuel s tabu_set path L acc seen →
  ∃ acc', shift_round fuel s tabu_set segment acc index = Some acc' ∧
    shift_best fuel s tabu_set path L acc' (seen ++ [(start, index)]).
Proof.
  intros Hsq Ht Hcc Hfuel Hpath HL Hstart Hindex Hseg Hcities Hinv. unfold shift_round.
  assert (segment ≠ []) as Hne.
  { apply make_segment_lookup in Hseg as [Hl _]. intros ->. simpl in Hl. lia. }
  destruct (shift_guard_runs s segment index Ht Hne Hcities) as [passes Hguard].
  rewrite Hguard. cbn [mbind option_bind].
  assert (∀ acc0, (∀ segment', ¬ shift_candidate s tabu_set path L (start, index) segment') →
    shift_best fuel s tabu_set path L acc0 seen →
    shift_best fuel s tabu_set path L acc0 (seen ++ [(start, index)])) as Hkeep.
  { intros [[best|] [pr0|]] Hn; cbn [shift_best]; try done.
    - intros (move & sg & cb & Hc & Hh & Hp & Hins & Htour & Hcb & Hwalk & Hall).
      exists move, sg, cb. do 7 (split; [done|]). intros q sg' Hq Hcq.
      apply elem_of_app in Hq as [Hq|Hq]; [by apply (Hall q sg')|].
      apply list_elem_of_singleton in Hq as ->. by destruct (Hn sg').
    - intros Hall q sg' Hq. apply elem_of_app in Hq as [Hq|Hq]; [by apply Hall|].
      apply list_elem_of_singleton in Hq as ->. apply Hn. }
  destruct passes.
  2: { exists acc. split; [done|]. apply Hkeep; [|done].
       intros sg' (_ & _ & Hsg' & Hg' & _). cbn [fst snd] in *. congruence. }
  destruct (head segment) as [s0|] eqn:Hs0; [|by destruct segment].
  cbn [mbind option_bind]. case_decide as Htabu.
  { exists acc. split; [done|]. apply Hkeep; [|done].
    intros sg' (_ & _ & Hsg' & _ & Hfree). cbn [fst snd] in *.
    assert (sg' = segment) as -> by congruence. by apply (Hfree s0). }
  assert (shift_candidate s tabu_set path L (start, index) segment) as Hcand.
  { do 4 (split; [done|]). cbn [fst snd]. intros s0' Hs0'. congruence. }
  destruct (insert_after_guarded fuel s path start L segment index)
    as (ins & ci & Hins & Htour & Hci & Hwalk); [done..|].
  rewrite Hins. cbn [mbind option_bind].
  assert (shift_best fuel s tabu_set path L (Some ins, Some (s0, index)) [(start, index)])
    as Hfirst.
  { exists (start, index), segment, ci. do 7 (split; [done|]). intros q sg' Hq Hcq.
    apply list_elem_of_singleton in Hq as ->. destruct Hcq as (_ & _ & Hsg' & _).
    cbn [fst snd] in *. assert (sg' = segment) as -> by congruence.
    exists ins, ci. do 2 (split; [done|]). lra. }
  destruct acc as [[best|] [pr0|]]; cbn [shift_best fst] in *; try done.
  - destruct Hinv as (move & sg & cb & Hc & Hh & Hp & Hbest & Htb & Hcb & Hwb & Hall).
    unfold solution_lt, cost. rewrite Hci, Hcb. cbn [mbind option_bind].
    case_bool_decide as Hlt.
    + eexists. split; [done|]. exists (start, index), segment, ci.
      do 7 (split; [done|]). intros q sg' Hq Hcq. apply elem_of_app in Hq as [Hq|Hq].
      * destruct (Hall q sg' Hq Hcq) as (sq & cq & ? & ? & ?). exists sq, cq.
        do 2 (split; [done|]). lra.
      * apply list_elem_of_singleton in Hq as ->. destruct Hcq as (_ & _ & Hsg' & _).
        cbn [fst snd] in *. assert (sg' = segment) as -> by congruence.
        exists ins, ci. do 2 (split; [done|]). lra.
    + eexists. split; [done|]. exists move, sg, cb. do 7 (split; [done|]).
      intros q sg' Hq Hcq. apply elem_of_app in Hq as [Hq|Hq]; [by apply Hall|].
      apply list_elem_of_singleton in Hq as ->. destruct Hcq as (_ & _ & Hsg' & _).
      cbn [fst snd] in *. assert (sg' = segment) as -> by congruence.
      exists ins, ci. do 2 (split; [done|]). lra.
  - eexists. split; [done|]. exists (start, index), segment, ci.
    do 7 (split; [done|]). intros q sg' Hq Hcq. apply elem_of_app in Hq as [Hq|Hq].
    + by destruct (Hinv q sg' Hq).
    + apply list_elem_of_singleton in Hq as ->. destruct Hcq as (_ & _ & Hsg' & _).
      cbn [fst snd] in *. assert (sg' = segment) as -> by congruence.
      exists ins, ci. do 2 (split; [done|]). lra.
Qed.

Lemma tour_path s fuel path :
  tour s → (dimension ≤ fuel)%nat → get_path fuel s = Some path →
  path ≡ₚ seq 0 dimension.
Proof.
  intros Ht Hfuel Hpath. destruct (tour_ring s Ht) as (q & Hring).
  pose proof (ring_perm _ _ _ Hring) as Hperm. rewrite (tour_after _ Ht) in Hperm.
  destruct s as [a b c]. rewrite (ring_get_path a b c q fuel Hring) in Hpath.
  - by injection Hpath as <-.
  - apply Permutation_length in Hperm. rewrite length_seq in Hperm. simpl in Hperm. lia.
Qed.

Lemma shift_rounds_spec fuel s tabu_set path L acc seen start :
  square → tour s → cost_consistent s → (dimension ≤ fuel)%nat →
  get_path fuel s = Some path → (1 ≤ L)%nat → (start < dimension)%nat →
  shift_best fuel s tabu_set path L acc seen →
  ∃ acc', shift_rounds fuel s tabu_set path L acc start = Some acc' ∧
    shift_best fuel s tabu_set path L acc'
      (seen ++ ((λ index, (start, index)) <$> seq 0 dimension)).
Proof.
  intros Hsq Ht Hcc Hfuel Hpath HL Hstart Hinv.
  pose proof (tour_path s fuel path Ht Hfuel Hpath) as Hperm.
  destruct (make_segment_runs path start L) as (segment & Hseg & _ & Hcities); [|done|].
  { apply Permutation_length in Hperm. by rewrite length_seq in Hperm. }
  unfold shift_rounds. rewrite Hseg. cbn [mbind option_bind].
  destruct (foldl_option_inv (shift_round fuel s tabu_set segment)
              (λ b done_, shift_best fuel s tabu_set path L b
                            (seen ++ ((λ index, (start, index)) <$> done_)))
              (seq 0 dimension) acc []) as (acc' & Hrun & Hinv').
  - by rewrite app_nil_r.
  - intros b done_ index Hindex Hb. apply elem_of_seq in Hindex.
    destruct (shift_round_spec fuel s tabu_set path L b
                (seen ++ ((λ index, (start, index)) <$> done_)) start index segment)
      as (b' & Hround & Hb'); [done..|lia|done| |done|].
    { intros c Hc. apply Hcities in Hc. rewrite Hperm in Hc. apply elem_of_seq in Hc. lia. }
    exists b'. split; [done|]. by rewrite fmap_app, app_assoc.
  - exists acc'. split; [done|]. done.
Qed.

(** All the moves the two loops go through. *)
Definition all_moves : list (nat * nat) :=
  start ← seq 0 dimension; (λ index, (start, index)) <$> seq 0 dimension.

Lemma shift_find_best_candidate_run (fuel : nat) (s : PathSolution) (segment_length : nat)
    (tabu : Tabu.TabuState (nat * nat)) :
  square → tour s → cost_consistent s → (dimension ≤ fuel)%nat →
  (1 ≤ segment_length)%nat → Tabu.tabu_inv tabu → (0 ≤ Tabu._maxlen tabu)%Z →
  ∃ path result tabu',
    get_path fuel s = Some path ∧
    shift_find_best_candidate fuel s segment_length tabu = Some (result, tabu') ∧
    match result with
    | None =>
        (∀ move segment,
           ¬ shift_candidate s (Tabu._tabu_set tabu) path segment_length move segment) ∧
        tabu' = tabu
    | Some best =>
        ∃ move segment s0 cb,
          shift_candidate s (Tabu._tabu_set tabu) path segment_length move segment ∧
          head segment = Some s0 ∧
          insert_after fuel s segment move.2 = Some best ∧
          tour best ∧ __cost best = Some cb ∧
          cost fuel (mkPath (after best) (before best) None) = Some cb ∧
          (∀ q segment',
             shift_candidate s (Tabu._tabu_set tabu) path segment_length q segment' →
             ∃ sq cq, insert_after fuel s segment' q.2 = Some sq ∧ __cost sq = Some cq ∧
               cb <= cq) ∧
          Tabu.add_to_tabu tabu (s0, move.2) = Some tabu'
    end.
Proof.
  intros Hsq Ht Hcc Hfuel HL Hinv Hm.
  destruct (tour_ring s Ht) as (q & Hring).
  assert (get_path fuel s = Some (0%nat :: q)) as Hpath.
  { pose proof (ring_perm _ _ _ Hring) as Hperm. rewrite (tour_after _ Ht) in Hperm.
    destruct s as [a b c]. apply ring_get_path; [done|].
    apply Permutation_length in Hperm. rewrite length_seq in Hperm. simpl in Hperm. lia. }
  set (path := 0%nat :: q) in *.
  pose proof (tour_path s fuel path Ht Hfuel Hpath) as Hperm.
  assert (length path = dimension) as Hlpath.
  { apply Permutation_length in Hperm. by rewrite length_seq in Hperm. }
  exists path. unfold shift_find_best_candidate. case_decide as Hlong.
  { exists None, tabu. do 2 (split; [done|]). split; [|done].
    intros move segment (Hstart & Hindex & Hseg & Hguard & _).
    apply shift_guard_true in Hguard as (s0 & sl & bs & as_ & _ & _ & _ & _ & _ & _ & Hout).
    apply Hout. apply (segment_covers path move.1 segment_length); [done..|lia|done|].
    rewrite Hperm. apply elem_of_seq. lia. }
  rewrite Hpath. cbn [mbind option_bind].
  destruct (foldl_option_inv
              (λ acc start, shift_rounds fuel s (Tabu._tabu_set tabu) path segment_length
                              acc start)
              (λ b done_, shift_best fuel s (Tabu._tabu_set tabu) path segment_length b
                            (start ← done_; (λ index, (start, index)) <$> seq 0 dimension))
              (seq 0 dimension) (None, None) []) as (acc & -> & Hbest).
  - intros move segment Hin. by apply elem_of_nil in Hin.
  - intros b done_ start Hstart Hb. apply elem_of_seq in Hstart.
    destruct (shift_rounds_spec fuel s (Tabu._tabu_set tabu) path segment_length b
                (start ← done_; (λ index, (start, index)) <$> seq 0 dimension) start)
      as (b' & Hrun & Hb'); [done..|lia|done|].
    exists b'. split; [done|]. rewrite bind_app. cbn [mbind list_bind]. by rewrite app_nil_r.
  - cbn [app] in Hbest. fold all_moves in Hbest.
    assert (∀ move segment,
              shift_candidate s (Tabu._tabu_set tabu) path segment_length move segment →
              move ∈ all_moves) as Hall_moves.
    { intros [start index] segment (Hstart & Hindex & _). cbn [fst snd] in *.
      unfold all_moves. apply list_elem_of_bind. exists start. split.
      - apply list_elem_of_fmap. exists index. split; [done|]. apply elem_of_seq. lia.
      - apply elem_of_seq. lia. }
    cbn [mbind option_bind]. destruct acc as [[best|] [pr|]]; cbn [shift_best] in Hbest;
      try done.
    + destruct Hbest as (move & segment & cb & Hcand & Hhead & Hpr & Hins & Htour & Hcb
                         & Hwalk & Hall).
      destruct (Tabu.add_to_tabu_inv tabu pr Hinv Hm) as (tabu' & Hadd & _).
      rewrite Hadd. cbn [mbind option_bind]. exists (Some best), tabu'. split; [done|].
      split; [done|]. exists move, segment, pr.1, cb. do 6 (split; [done|]). split.
      * intros q' segment' Hq'. apply Hall; [|done]. by apply (Hall_moves q' segment').
      * rewrite <- Hpr. by destruct pr.
    + exists None, tabu. do 2 (split; [done|]). split; [|done].
      intros move segment Hcand. apply (Hbest move segment); [|done].
      by apply (Hall_moves move segment).
Qed.

(** X17.  On a valid tour and with a segment length of at least 1,
    [SegmentShift.find_best_candidate] evaluates [insert_after] for every
    segment start and every target that passes the guard and whose signature
    (first city of the segment, target) is not tabu; it returns a candidate
    of lowest cost among them, which is a valid tour with its exact cost,
    and hands its signature to [add_to_tabu]; it returns [None] and leaves
    the tabu list alone exactly when there is no such move. *)
Theorem shift_find_best_candidate_spec (fuel : nat) (s : PathSolution)
    (segment_length : nat) (tabu : Tabu.TabuState (nat * nat)) :
  square → tour s → cost_consistent s → (dimension ≤ fuel)%nat →
  (1 ≤ segment_length)%nat → Tabu.tabu_inv tabu → (0 ≤ Tabu._maxlen tabu)%Z →
  ∃ path result tabu',
    get_path fuel s = Some path ∧
    shift_find_best_candidate fuel s segment_length tabu = Some (result, tabu') ∧
    match result with
    | None =>
        (∀ move segment,
           ¬ shift_candidate s (Tabu._tabu_set tabu) path segment_length move segment) ∧
        tabu' = tabu
    | Some best =>
        ∃ move segment s0 cb,
          shift_candidate s (Tabu._tabu_set tabu) path segment_length move segment ∧
          head segment = Some s0 ∧
          insert_after fuel s segment move.2 = Some best ∧
          tour best ∧ __cost best = Some cb ∧
          cost fuel (mkPath (after best) (before best) None) = Some cb ∧
          (∀ q segment',
             shift_candidate s (Tabu._tabu_set tabu) path segment_length q segment' →
             ∃ sq cq, insert_after fuel s segment' q.2 = Some sq ∧ __cost sq = Some cq ∧
               cb <= cq) ∧
          Tabu.add_to_tabu tabu (s0, move.2) = Some tabu'
    end.
Proof. apply shift_find_best_candidate_run. Qed.

(** A target passes the guard only when at least three cities are outside
    the segment: the one before it, the one after it, and the target. *)
Lemma shift_candidate_room fuel s tabu_set path L move segment :
  square → tour s → cost_consistent s → (dimension ≤ fuel)%nat →
  get_path fuel s = Some path → (1 ≤ L)%nat →
  shift_candidate s tabu_set path L move segment → (L + 3 ≤ dimension)%nat.
Proof.
  intros Hsq Ht Hcc Hfuel Hpath HL (Hstart & Hindex & Hseg & Hguard & _).
  pose proof (tour_path s fuel path Ht Hfuel Hpath) as Hperm.
  assert (length path = dimension) as Hlpath.
  { apply Permutation_length in Hperm. by rewrite length_seq in Hperm. }
  apply shift_guard_true in Hguard as (s0 & sl & bs & as_ & Hs0 & Hsl & Hbs & Has & Hxbs & Hxas & Hout).
  assert (L < dimension)%nat as HLlt.
  { destruct (decide (L < dimension)%nat) as [|Hge]; [done|]. exfalso. apply Hout.
    apply (segment_covers path move.1 L); [done..|lia|done|].
    rewrite Hperm. apply elem_of_seq. lia. }
  destruct (tour_segment s fuel path move.1 L segment) as (C & HS & HC & Hlseg & Hring & _);
    [done..|lia|done|].
  assert (move.2 ∈ C) as HxC.
  { assert (move.2 ∈ segment ++ C) as Hin.
    { apply (ring_elem _ _ _ _ Hring). by rewrite (tour_after _ Ht). }
    set_solver. }
  assert (length (segment ++ C) = dimension) as Hltotal.
  { destruct Hring as (_ & Hl & _). by rewrite <- Hl, (tour_after _ Ht). }
  rewrite length_app, Hlseg in Hltotal.
  apply ring_blocks2 in Hring as (_ & _ & _ & _ & _ & J1 & J2); [|done..].
  apply joined_link in J1 as (sl' & hc & Hsl' & Hhc & Hasl & _).
  apply joined_link in J2 as (lc & s0' & Hlc & Hs0' & _ & Hbs0 & _).
  assert (sl' = sl) as -> by congruence. assert (s0' = s0) as -> by congruence.
  assert (hc = as_) as -> by congruence. assert (lc = bs) as -> by congruence.
  destruct C as [|c1 [|c2 [|c3 C]]]; simpl in *; try lia.
  - injection Hhc as ->. set_solver.
  - injection Hhc as ->. injection Hlc as ->. set_solver.
Qed.

(** X18.  When fewer than three cities are left outside a segment
    ([dimension < segment_length + 3]), no target ever passes the guard:
    [SegmentShift.find_best_candidate] returns [None] and leaves the tabu
    list as it is. *)
Theorem shift_neighbourhood_empty (fuel : nat) (s : PathSolution)
    (segment_length : nat) (tabu : Tabu.TabuState (nat * nat)) :
  square → tour s → cost_consistent s → (dimension ≤ fuel)%nat →
  (1 ≤ segment_length)%nat → Tabu.tabu_inv tabu → (0 ≤ Tabu._maxlen tabu)%Z →
  (dimension < segment_length + 3)%nat →
  shift_find_best_candidate fuel s segment_length tabu = Some (None, tabu).
Proof.
  intros Hsq Ht Hcc Hfuel HL Hinv Hm Hsmall.
  destruct (shift_find_best_candidate_run fuel s segment_length tabu)
    as (path & [best|] & tabu' & Hpath & Hrun & Hres); [done..| |].
  - exfalso. destruct Hres as (move & segment & s0 & cb & Hcand & _).
    pose proof (shift_candidate_room fuel s _ path segment_length move segment
                  Hsq Ht Hcc Hfuel Hpath HL Hcand). lia.
  - destruct Hres as [_ ->]. done.
Qed.

(** *** The candidate search of the reverse neighbourhood *)


















(** *** [PathSolution.initial]: the nearest-neighbour tour *)

(** [min(l, key=key)]: the first element of least key in the order of
    iteration; [ValueError] on an empty sequence. *)
Fixpoint min_loop (key : nat → option R) (best : nat) (kbest : R) (l : list nat)
  : option nat :=
  match l with
  | [] => Some best
  | c :: l' =>
      kc ← key c;
      if decide (kc < kbest) then min_loop key c kc l' else min_loop key best kbest l'
  end.

Definition min_by (key : nat → option R) (l : list nat) : option nat :=
  match l with
  | [] => None
  | c :: l' => kc ← key c; min_loop key c kc l'
  end.

Lemma min_loop_spec key l : ∀ best kbest,
  key best = Some kbest → (∀ c, c ∈ l → is_Some (key c)) →
  ∃ m km, min_loop key best kbest l = Some m ∧ m ∈ best :: l ∧ key m = Some km ∧
    km <= kbest ∧ ∀ c kc, c ∈ l → key c = Some kc → km <= kc.
Proof.
  induction l as [|a l IH]; intros best kbest Hbest Hkeys.
  - exists best, kbest. split; [done|]. split; [by left|]. split; [done|].
    split; [lra|]. intros c kc Hc. by apply elem_of_nil in Hc.
  - destruct (Hkeys a) as [ka Hka]; [by left|]. cbn [min_loop]. rewrite Hka.
    cbn [mbind option_bind]. case_decide as Hlt.
    + destruct (IH a ka Hka) as (m & km & Hrun & Hm & Hkm & Hle & Hall).
      { intros c Hc. apply Hkeys. by right. }
      exists m, km. split; [done|]. split; [set_solver|]. split; [done|].
      split; [lra|]. intros c kc Hc Hkc. apply elem_of_cons in Hc as [->|Hc].
      * assert (kc = ka) as -> by congruence. done.
      * by apply (Hall c).
    + destruct (IH best kbest Hbest) as (m & km & Hrun & Hm & Hkm & Hle & Hall).
      { intros c Hc. apply Hkeys. by right. }
      exists m, km. split; [done|]. split; [set_solver|]. split; [done|].
      split; [done|]. intros c kc Hc Hkc. apply elem_of_cons in Hc as [->|Hc].
      * assert (kc = ka) as -> by congruence. lra.
      * by apply (Hall c).
Qed.

Lemma min_by_spec key l :
  l ≠ [] → (∀ c, c ∈ l → is_Some (key c)) →
  ∃ m km, min_by key l = Some m ∧ m ∈ l ∧ key m = Some km ∧
    ∀ c kc, c ∈ l → key c = Some kc → km <= kc.
Proof.
  intros Hne Hkeys. destruct l as [|a l]; [done|].
  destruct (Hkeys a) as [ka Hka]; [by left|]. cbn [min_by]. rewrite Hka.
  cbn [mbind option_bind].
  destruct (min_loop_spec key l a ka Hka) as (m & km & Hrun & Hm & Hkm & Hle & Hall).
  { intros c Hc. apply Hkeys. by right. }
  exists m, km. do 3 (split; [done|]). intros c kc Hc Hkc.
  apply elem_of_cons in Hc as [->|Hc]; [|by apply (Hall c)].
  assert (kc = ka) as -> by congruence. done.
Qed.

Lemma filter_ne_perm (c : nat) (l : list nat) :
  NoDup l → c ∈ l → l ≡ₚ c :: filter (λ e, e ≠ c) l.
Proof.
  intros Hnd Hc. apply NoDup_Permutation; [done| |].
  - apply NoDup_cons. split; [|by apply NoDup_filter].
    intros Hin. apply list_elem_of_filter in Hin as [Hne _]. done.
  - intros e. rewrite elem_of_cons, list_elem_of_filter.
    destruct (decide (e = c)) as [->|Hne]; naive_solver.
Qed.

Section nearest.
(** The order in which Python iterates over the set [cities], which the
    language leaves open; it may depend on the history of the set, which
    [path] records.  The set itself is kept as a list without repetition. *)
Variable iteration_order : list nat → list nat → list nat.

Definition order_ok : Prop :=
  ∀ path cities, iteration_order path cities ≡ₚ cities.

(** The [while len(cities) > 0] loop. *)
Fixpoint visit (fuel : nat) (path cities : list nat) : option (list nat) :=
  match cities with
  | [] => Some path
  | _ :: _ =>
      match fuel with
      | O => None
      | S fuel' =>
          current ← last path;
          row ← distances !! current;
          insert ← min_by (λ c, row !! c) (iteration_order path cities);
          visit fuel' (path ++ [insert]) (filter (λ c, c ≠ insert) cities)
      end
  end.

(** The body of the [for index in range(dimension)] loop, on the two
    arrays; their entries are Python integers, [-1] where nothing has been
    stored yet. *)
Definition link_city (path : list nat) (arrays : list Z * list Z) (index : nat)
  : option (list Z * list Z) :=
  next ← path !! ((index + 1) `mod` dimension)%nat;
  city ← path !! index;
  after ← setitem arrays.1 city (Z.of_nat next);
  previous ←
    path !! Z.to_nat ((Z.of_nat index - 1 + Z.of_nat dimension) `mod` Z.of_nat dimension)%Z;
  before ← setitem arrays.2 city (Z.of_nat previous);
  Some (after, before).

(** [PathSolution.initial], up to the call of the constructor: the result
    is the pair of arrays [after], [before] handed to it. *)
Definition initial (fuel : nat) : option (list Z * list Z) :=
  let after := replicate dimension (-1)%Z in
  let before := replicate dimension (-1)%Z in
  path ← visit fuel [0%nat] (seq 1 (dimension - 1));
  foldl (λ acc index, arrays ← acc; link_city path arrays index)
        (Some (after, before)) (seq 0 dimension).

(** Each city of the path is a nearest one among those not visited before
    it. *)
Definition greedy (path : list nat) : Prop :=
  ∀ k u v w, path !! k = Some u → path !! S k = Some v →
    (w < dimension)%nat → w ∉ take (S k) path → distance u v <= distance u w.

Lemma visit_spec : ∀ fuel path cities,
  order_ok → square →
  path ++ cities ≡ₚ seq 0 dimension → head path = Some 0%nat → greedy path →
  (length cities ≤ fuel)%nat →
  ∃ p, visit fuel path cities = Some p ∧ p ≡ₚ seq 0 dimension ∧
    head p = Some 0%nat ∧ greedy p.
Proof.
  induction fuel as [|fuel IH]; intros path cities Hord Hsq Hperm Hhead Hgreedy Hfuel.
  - destruct cities; [|simpl in Hfuel; lia]. exists path.
    rewrite app_nil_r in Hperm. done.
  - destruct cities as [|c0 cities].
    { exists path. rewrite app_nil_r in Hperm. done. }
    set (cs := c0 :: cities) in *. cbn [visit]. fold cs.
    assert (NoDup (path ++ cs)) as Hnd by (rewrite Hperm; apply NoDup_seq).
    apply NoDup_app in Hnd as (Hndp & Hdisj & Hndc).
    assert (∀ c, c ∈ path ++ cs → (c < dimension)%nat) as Hlt.
    { intros c Hc. rewrite Hperm in Hc. apply elem_of_seq in Hc. lia. }
    destruct (last path) as [current|] eqn:Hlast.
    2: { apply last_None in Hlast. by subst. }
    cbn [mbind option_bind].
    assert (current < dimension)%nat as Hcur.
    { apply Hlt. apply elem_of_app. left. by apply last_Some_elem_of. }
    destruct Hsq as [Hrows Hcols].
    destruct (lookup_lt_is_Some_2 distances current) as [row Hrow]; [lia|].
    assert (length row = dimension) as Hlrow.
    { rewrite Forall_forall in Hcols. apply Hcols. by apply list_elem_of_lookup_2 in Hrow. }
    rewrite Hrow. cbn [mbind option_bind].
    destruct (min_by_spec (λ c, row !! c) (iteration_order path cs))
      as (insert & km & -> & Hin & Hkm & Hmin).
    { intros Hnil. pose proof (Hord path cs) as Hp. rewrite Hnil in Hp.
      by apply Permutation_nil_cons in Hp. }
    { intros c Hc. rewrite (Hord path cs) in Hc. apply lookup_lt_is_Some_2.
      rewrite Hlrow. apply Hlt. set_solver. }
    cbn [mbind option_bind]. rewrite (Hord path cs) in Hin.
    apply IH; [done|done| | | |].
    + rewrite <- Hperm, <- app_assoc. cbn [app].
      by rewrite <- (filter_ne_perm insert cs).
    + by destruct path.
    + intros k u v w Hu Hv Hw Hnew.
      destruct (decide (S k < length path)%nat) as [Hk|Hk].
      * rewrite lookup_app_l in Hu, Hv by lia. rewrite take_app_le in Hnew by lia.
        by apply (Hgreedy k u v w).
      * assert (S k = length path) as Hk'.
        { apply lookup_lt_Some in Hv. rewrite length_app in Hv. simpl in Hv. lia. }
        rewrite Hk' in Hnew, Hv. rewrite take_app_length in Hnew.
        rewrite lookup_app_l in Hu by lia.
        rewrite last_lookup in Hlast. replace (pred (length path)) with k in Hlast by lia.
        assert (u = current) as -> by congruence.
        rewrite list_lookup_middle in Hv by done. injection Hv as <-.
        assert (w ∈ cs) as Hwc.
        { assert (w ∈ path ++ cs) as Hin'.
          { rewrite Hperm. apply elem_of_seq. lia. }
          set_solver. }
        destruct (lookup_lt_is_Some_2 row w) as [kw Hkw]; [lia|].
        unfold distance, dist. rewrite Hrow. cbn [mbind option_bind].
        rewrite Hkm, Hkw. cbn [default]. apply (Hmin w kw); [|done].
        by rewrite (Hord path cs).
    + assert (length cs = S (length (filter (λ c, c ≠ insert) cs))) as Hlen.
      { by rewrite (filter_ne_perm insert cs) at 1. }
      lia.
Qed.

Lemma chainR_lookup P l :
  (∀ i u v, l !! i = Some u → l !! S i = Some v → P u v) → chainR P l.
Proof.
  intros Hall. apply chainR_split. intros l1 u v l2 ->.
  apply (Hall (length l1)).
  - by rewrite list_lookup_middle.
  - rewrite lookup_app_r by lia.
    by replace (S (length l1) - length l1)%nat with 1%nat by lia.
Qed.

(** The positions [(index + 1) % dimension] and
    [(index - 1 + dimension) % dimension]. *)
Definition next_in (i : nat) : nat :=
  if decide (i + 1 = dimension)%nat then 0%nat else (i + 1)%nat.

Definition previous_in (i : nat) : nat :=
  if decide (i = 0)%nat then (dimension - 1)%nat else (i - 1)%nat.

Lemma mod_next i : (i < dimension)%nat → ((i + 1) `mod` dimension)%nat = next_in i.
Proof.
  intros Hi. unfold next_in. case_decide as Heq.
  - rewrite Heq. apply Nat.Div0.mod_same.
  - apply Nat.mod_small. lia.
Qed.

Lemma mod_previous i :
  (i < dimension)%nat →
  Z.to_nat ((Z.of_nat i - 1 + Z.of_nat dimension) `mod` Z.of_nat dimension)%Z
  = previous_in i.
Proof.
  intros Hi. unfold previous_in. case_decide as Heq.
  - subst. rewrite Z.mod_small by lia. lia.
  - replace (Z.of_nat i - 1 + Z.of_nat dimension)%Z
      with (Z.of_nat (i - 1) + 1 * Z.of_nat dimension)%Z by lia.
    rewrite Z.mod_add by lia. rewrite Z.mod_small by lia. lia.
Qed.

(** The arrays once the cities at the positions before [k] are linked. *)
Definition linked (p : list nat) (k : nat) (arrays : list Z * list Z) : Prop :=
  length arrays.1 = dimension ∧ length arrays.2 = dimension ∧
  ∀ i c, (i < k)%nat → p !! i = Some c →
    ∃ u v, p !! next_in i = Some u ∧ p !! previous_in i = Some v ∧
      arrays.1 !! c = Some (Z.of_nat u) ∧ arrays.2 !! c = Some (Z.of_nat v).

Lemma link_city_spec p k arrays :
  p ≡ₚ seq 0 dimension → (k < dimension)%nat → linked p k arrays →
  ∃ arrays', link_city p arrays k = Some arrays' ∧ linked p (S k) arrays'.
Proof.
  intros Hperm Hk (Hla & Hlb & Hdone).
  assert (length p = dimension) as Hlp.
  { apply Permutation_length in Hperm. by rewrite length_seq in Hperm. }
  assert (NoDup p) as Hnd by (rewrite Hperm; apply NoDup_seq).
  assert (∀ i c, p !! i = Some c → (c < dimension)%nat) as Hlt.
  { intros i c Hc. apply list_elem_of_lookup_2 in Hc. rewrite Hperm in Hc.
    apply elem_of_seq in Hc. lia. }
  assert (next_in k < dimension ∧ previous_in k < dimension)%nat as [Hn Hp].
  { unfold next_in, previous_in. repeat case_decide; lia. }
  destruct (lookup_lt_is_Some_2 p k) as [c Hc]; [lia|].
  destruct (lookup_lt_is_Some_2 p (next_in k)) as [u Hu]; [lia|].
  destruct (lookup_lt_is_Some_2 p (previous_in k)) as [v Hv]; [lia|].
  pose proof (Hlt _ _ Hc) as Hclt.
  unfold link_city. rewrite mod_next, mod_previous by done.
  rewrite Hu, Hc, Hv. cbn [mbind option_bind].
  rewrite (setitem_Some arrays.1) by lia. cbn [mbind option_bind].
  rewrite (setitem_Some arrays.2) by lia. cbn [mbind option_bind].
  eexists. split; [done|]. unfold linked. cbn [fst snd].
  split; [by rewrite length_insert|].
  split; [by rewrite length_insert|]. intros i c' Hi Hc'.
  destruct (decide (i = k)) as [->|Hik].
  - assert (c' = c) as -> by congruence. exists u, v.
    do 2 (split; [done|]). by rewrite !list_lookup_insert_eq by lia.
  - destruct (Hdone i c') as (u' & v' & Hu' & Hv' & Ha & Hb); [lia|done|].
    exists u', v'. do 2 (split; [done|]).
    assert (c ≠ c') as Hne.
    { intros ->. apply Hik. by apply (NoDup_lookup p i k c'). }
    by rewrite !list_lookup_insert_ne by done.
Qed.

Lemma link_cities_spec p len : ∀ k arrays,
  p ≡ₚ seq 0 dimension → (k + len = dimension)%nat → linked p k arrays →
  ∃ arrays', foldl (λ acc index, arrays ← acc; link_city p arrays index)
               (Some arrays) (seq k len) = Some arrays' ∧
    linked p dimension arrays'.
Proof.
  induction len as [|len IH]; intros k arrays Hperm Hk Hlinked.
  - exists arrays. split; [done|]. by replace k with dimension in Hlinked by lia.
  - cbn [seq foldl mbind option_bind].
    destruct (link_city_spec p k arrays) as (arrays1 & -> & Hlinked1); [done|lia|done|].
    apply IH; [done|lia|done].
Qed.

(** Arrays in which every city is linked hold indices only, and describe
    the cycle [p]. *)
Lemma linked_ring p A B :
  (1 ≤ dimension)%nat → p ≡ₚ seq 0 dimension → linked p dimension (A, B) →
  A = Z.of_nat <$> (Z.to_nat <$> A) ∧ B = Z.of_nat <$> (Z.to_nat <$> B) ∧
  ring (Z.to_nat <$> A) (Z.to_nat <$> B) p.
Proof.
  intros Hdim Hperm (Hla & Hlb & Hdone). cbn [fst snd] in *.
  assert (length p = dimension) as Hlp.
  { apply Permutation_length in Hperm. by rewrite length_seq in Hperm. }
  assert (NoDup p) as Hnd by (rewrite Hperm; apply NoDup_seq).
  assert (∀ c, (c < dimension)%nat → ∃ i, (i < dimension)%nat ∧ p !! i = Some c) as Hpos.
  { intros c Hc. assert (c ∈ p) as Hin by (rewrite Hperm; apply elem_of_seq; lia).
    apply list_elem_of_lookup in Hin as [i Hi]. exists i. split; [|done].
    apply lookup_lt_Some in Hi. lia. }
  assert (∀ (L : list Z),
            length L = dimension →
            (∀ c, (c < dimension)%nat → ∃ u : nat, L !! c = Some (Z.of_nat u)) →
            L = Z.of_nat <$> (Z.to_nat <$> L)) as Hindices.
  { intros L HlL Hall. apply list_eq. intros c. rewrite !list_lookup_fmap.
    destruct (decide (c < dimension)%nat) as [Hc|Hc].
    - destruct (Hall c Hc) as [u ->]. simpl. by rewrite Nat2Z.id.
    - rewrite lookup_ge_None_2 by lia. done. }
  split; [|split].
  - apply Hindices; [done|]. intros c Hc. destruct (Hpos c Hc) as (i & Hi & Hpi).
    destruct (Hdone i c Hi Hpi) as (u & v & _ & _ & Ha & _). by exists u.
  - apply Hindices; [done|]. intros c Hc. destruct (Hpos c Hc) as (i & Hi & Hpi).
    destruct (Hdone i c Hi Hpi) as (u & v & _ & _ & _ & Hb). by exists v.
  - split; [done|]. rewrite !length_fmap. do 2 (split; [lia|]).
    destruct p as [|h p']; [simpl in Hlp; lia|]. exists h. split; [done|].
    apply chainR_lookup. intros i u v Hu Hv.
    assert (i < dimension)%nat as Hi.
    { apply lookup_lt_Some in Hv. rewrite length_app in Hv. simpl in *. lia. }
    rewrite lookup_app_l in Hu by lia.
    destruct (Hdone i u Hi Hu) as (u1 & _ & Hu1 & _ & Ha & _).
    assert ((h :: p') !! next_in i = Some v) as Hnext.
    { unfold next_in. case_decide as Heq.
      - rewrite lookup_app_r in Hv by lia.
        replace (S i - length (h :: p'))%nat with 0%nat in Hv by lia. done.
      - rewrite lookup_app_l in Hv by lia. by replace (i + 1)%nat with (S i) by lia. }
    assert (next_in i < dimension)%nat as Hnlt.
    { apply lookup_lt_Some in Hnext. lia. }
    destruct (Hdone (next_in i) v Hnlt Hnext) as (_ & v1 & _ & Hv1 & _ & Hb).
    assert (previous_in (next_in i) = i) as Hback.
    { unfold previous_in, next_in. repeat case_decide; lia. }
    rewrite Hback in Hv1. split.
    + rewrite list_lookup_fmap, Ha. simpl. rewrite Nat2Z.id. congruence.
    + rewrite list_lookup_fmap, Hb. simpl. rewrite Nat2Z.id. congruence.
Qed.

(** X9.  With a square table and at least one city, [initial] ends (within
    [dimension] rounds of its [while] loop) whatever the order in which the
    set of cities is iterated; the arrays it hands to the constructor hold
    indices only and form a valid tour; the path of that tour starts at the
    depot and each of its cities is, among the cities not visited before it,
    one nearest to its predecessor. *)
Theorem initial_nearest_neighbour (fuel : nat) :
  order_ok → square → (1 ≤ dimension)%nat → (dimension ≤ fuel)%nat →
  ∃ s path,
    initial fuel = Some (Z.of_nat <$> after s, Z.of_nat <$> before s) ∧
    __cost s = None ∧ tour s ∧ get_path fuel s = Some path ∧ greedy path.
Proof.
  intros Hord Hsq Hdim Hfuel. unfold initial.
  destruct (visit_spec fuel [0%nat] (seq 1 (dimension - 1)))
    as (p & -> & Hperm & Hhead & Hgreedy); [done|done| |done| | |].
  { destruct dimension as [|n]; [lia|]. simpl. by rewrite Nat.sub_0_r. }
  { intros k u v w Hu Hv. destruct k; done. }
  { rewrite length_seq. lia. }
  cbn [mbind option_bind].
  destruct (link_cities_spec p dimension 0
              (replicate dimension (-1)%Z, replicate dimension (-1)%Z))
    as ([A B] & -> & Hlinked); [done|lia| |].
  { unfold linked. cbn [fst snd]. rewrite !length_replicate. do 2 (split; [done|]).
    intros i c Hi. lia. }
  destruct (linked_ring p A B Hdim Hperm Hlinked) as (HA & HB & Hring).
  exists (mkPath (Z.to_nat <$> A) (Z.to_nat <$> B) None), p. cbn [after before __cost].
  split; [by rewrite <- HA, <- HB|]. split; [done|].
  assert (length (Z.to_nat <$> A) = dimension) as Hla.
  { rewrite length_fmap. by destruct Hlinked as (? & _). }
  split; [by apply (ring_tour _ _ _ p)|]. split; [|done].
  destruct p as [|h q]; [done|]. injection Hhead as ->.
  apply ring_get_path; [done|].
  apply Permutation_length in Hperm. rewrite length_seq in Hperm. simpl in Hperm. lia.
Qed.

End nearest.

End tsp.

(** *** Concrete instances *)

(** Five cities on the cycle 0 → 1 → 2 → 3 → 4 → 0, at the points
    (0,0), (1,0), (2,1), (1,2), (0,1), with the distance table
    [import_problem] computes for them. *)
Definition cycle5 : PathSolution := mkPath [1; 2; 3; 4; 0] [4; 0; 1; 2; 3] None.

Definition table5 : list (list R) :=
  [ [0; 1; 3; 3; 1]; [1; 0; 2; 2; 2]; [3; 2; 0; 2; 2]; [3; 2; 2; 0; 2]; [1; 2; 2; 2; 0] ]%R.

(** Six cities on the cycle 0 → 1 → ... → 5 → 0, on a line. *)
Definition cycle6 : PathSolution := mkPath [1; 2; 3; 4; 5; 0] [5; 0; 1; 2; 3; 4] None.

Definition table6 : list (list R) :=
  [ [0; 1; 2; 3; 4; 5]; [1; 0; 1; 2; 3; 4]; [2; 1; 0; 1; 2; 3];
    [3; 2; 1; 0; 1; 2]; [4; 3; 2; 1; 0; 1]; [5; 4; 3; 2; 1; 0] ]%R.

Lemma square_table5 : square 5 table5.
Proof. split; [done|]. repeat constructor. Qed.

Lemma square_table6 : square 6 table6.
Proof. split; [done|]. repeat constructor. Qed.

Lemma tour_cycle5 : tour 5 cycle5.
Proof.
  apply (ring_tour 5 _ _ _ [0; 1; 2; 3; 4]); [|done].
  split; [by apply (bool_decide_unpack _)|]. do 2 (split; [done|]).
  exists 0. split; [done|]. simpl. unfold link. simpl. tauto.
Qed.

Lemma tour_cycle6 : tour 6 cycle6.
Proof.
  apply (ring_tour 6 _ _ _ [0; 1; 2; 3; 4; 5]); [|done].
  split; [by apply (bool_decide_unpack _)|]. do 2 (split; [done|]).
  exists 0. split; [done|]. simpl. unfold link. simpl. tauto.
Qed.

Lemma swap_find_best_candidate_spec_witness :
  ∃ result tabu',
    find_best_candidate 6 table6 6 cycle6 Tabu.initial_tabu = Some (result, tabu') ∧
    match result with
    | None => (∀ pr, ¬ candidate 6 cycle6 (Tabu._tabu_set Tabu.initial_tabu) pr) ∧
              tabu' = Tabu.initial_tabu
    | Some best =>
        ∃ pr cb, candidate 6 cycle6 (Tabu._tabu_set Tabu.initial_tabu) pr ∧
          swap table6 6 cycle6 pr.1 pr.2 = Some best ∧ __cost best = Some cb ∧
          (∀ q, candidate 6 cycle6 (Tabu._tabu_set Tabu.initial_tabu) q →
             ∃ sq cq, swap table6 6 cycle6 q.1 q.2 = Some sq ∧ __cost sq = Some cq ∧
               (cb <= cq)%R) ∧
          Tabu.add_to_tabu Tabu.initial_tabu pr = Some tabu'
    end.
Proof.
  apply (swap_find_best_candidate_spec 6 table6 6 cycle6 Tabu.initial_tabu).
  - exact square_table6.
  - exact tour_cycle6.
  - intros c Hc. discriminate.
  - lia.
  - apply Tabu.initial_tabu_inv.
  - simpl. lia.
Defined.

(** C4 as stated fails: on the five-city cycle with an empty tabu set the
    pair (0, 2) is neither adjacent nor tabu, and yet the loop skips it (as it
    skips every pair) and [find_best_candidate] returns [None]. *)
Lemma swap_skips_pair_one_apart :
  tour 5 cycle5 ∧
  find_best_candidate 5 table5 5 cycle5 Tabu.initial_tabu = Some (None, Tabu.initial_tabu) ∧
  swap_skipped (after cycle5) 0 2 = Some true ∧
  ¬ adjacent (after cycle5) 0 2 ∧
  (0, 2) ∉ Tabu._tabu_set (Tabu.initial_tabu (T := nat * nat)).
Proof.
  split; [exact tour_cycle5|]. split; [reflexivity|]. split; [reflexivity|]. split.
  - intros [H|H]; discriminate.
  - apply not_elem_of_empty.
Qed.

(** C2 at its failing input.  With [segment_length = 5] on five cities the
    candidate loop of [SegmentReverse] builds the segment [0; 1; 2; 3; 4], the
    whole cycle; [reverse] then returns arrays in which cities 0 and 4 are
    their own successor and predecessor: [after] and [before] are no longer
    inverse of each other and the walk from the depot is back after one step. *)
Lemma reverse_whole_cycle_breaks_tour :
  tour 5 cycle5 ∧
  get_path 5 cycle5 = Some [0; 1; 2; 3; 4] ∧
  make_segment 5 [0; 1; 2; 3; 4] 0 5 = Some [0; 1; 2; 3; 4] ∧
  ∃ s', reverse table5 5 cycle5 [0; 1; 2; 3; 4] = Some s' ∧
    after s' = [0; 0; 1; 2; 4] ∧ before s' = [0; 2; 3; 4; 4] ∧
    get_path 5 s' = Some [0] ∧
    ¬ mutual_inverse (after s') (before s') ∧
    ¬ tour 5 s'.
Proof.
  split; [exact tour_cycle5|]. split; [reflexivity|]. split; [reflexivity|].
  eexists. split; [reflexivity|]. split; [reflexivity|]. split; [reflexivity|].
  split; [reflexivity|]. split.
  - intros Hinv. specialize (Hinv 1 0). simpl in Hinv. destruct Hinv as [Hinv _].
    specialize (Hinv eq_refl). discriminate.
  - intros [_ _ Hinv _]. specialize (Hinv 1 0). simpl in Hinv. destruct Hinv as [Hinv _].
    specialize (Hinv eq_refl). discriminate.
Qed.

(** C1 at its failing input.  On the same move the cost attached by the
    delta update is 6, while the walk over the returned solution gives 0. *)
Lemma reverse_whole_cycle_cost_differs :
  ∃ s' c, reverse table5 5 cycle5 [0; 1; 2; 3; 4] = Some s' ∧
    __cost s' = Some c ∧ c = 6%R ∧
    cost table5 5 (mkPath (after s') (before s') None) = Some 0%R.
Proof.
  eexists _, _. split; [reflexivity|]. split; [reflexivity|]. split.
  - lra.
  - cbn. f_equal. lra.
Qed.

(** The three moves on the six-city cycle. *)
Lemma swap_keeps_tour_witness :
  ∃ s' c, swap table6 6 cycle6 0 3 = Some s' ∧ tour 6 s' ∧ __cost s' = Some c ∧
    cost table6 6 (mkPath (after s') (before s') None) = Some c.
Proof.
  apply (swap_keeps_tour 6 table6 6 cycle6 0 3).
  - exact square_table6.
  - exact tour_cycle6.
  - intros c Hc. discriminate.
  - lia.
  - lia.
  - lia.
  - lia.
  - intros [H|H]; discriminate.
Defined.

Lemma insert_after_keeps_tour_witness :
  ∃ s' c, insert_after table6 6 cycle6 [1; 2] 4 = Some s' ∧ tour 6 s' ∧
    __cost s' = Some c ∧
    cost table6 6 (mkPath (after s') (before s') None) = Some c.
Proof.
  apply (insert_after_keeps_tour 6 table6 6 cycle6 [0; 1; 2; 3; 4; 5] 1 2 [1; 2] 4).
  - exact square_table6.
  - exact tour_cycle6.
  - intros c Hc. discriminate.
  - lia.
  - reflexivity.
  - lia.
  - lia.
  - reflexivity.
  - lia.
  - reflexivity.
Defined.

Lemma reverse_keeps_tour_witness :
  ∃ s' c, reverse table6 6 cycle6 [1; 2; 3] = Some s' ∧ tour 6 s' ∧
    __cost s' = Some c ∧
    (symmetric table6 → cost table6 6 (mkPath (after s') (before s') None) = Some c).
Proof.
  apply (reverse_keeps_tour 6 table6 6 cycle6 [0; 1; 2; 3; 4; 5] 1 3 [1; 2; 3]).
  - exact square_table6.
  - exact tour_cycle6.
  - intros c Hc. discriminate.
  - lia.
  - reflexivity.
  - lia.
  - lia.
  - reflexivity.
Defined.

Lemma cost_walks_path_witness :
  ∃ path, get_path 6 cycle6 = Some path ∧ head path = Some 0 ∧
    path ≡ₚ seq 0 6 ∧ cost table6 6 cycle6 = Some (tour_len table6 path).
Proof.
  apply (cost_walks_path 6 table6 6 cycle6).
  - exact square_table6.
  - exact tour_cycle6.
  - reflexivity.
  - lia.
Defined.

Lemma initial_nearest_neighbour_witness :
  ∃ s path,
    initial 6 table6 (λ _ cities, cities) 6
    = Some (Z.of_nat <$> after s, Z.of_nat <$> before s) ∧
    __cost s = None ∧ tour 6 s ∧ get_path 6 s = Some path ∧ greedy 6 table6 path.
Proof.
  apply (initial_nearest_neighbour 6 table6 (λ _ cities, cities) 6).
  - intros path cities. reflexivity.
  - exact square_table6.
  - lia.
  - lia.
Defined.

(** The shift neighbourhood on the six-city and on the five-city cycle. *)
Lemma shift_find_best_candidate_spec_witness :
  ∃ path result tabu',
    get_path 6 cycle6 = Some path ∧
    shift_find_best_candidate 6 table6 6 cycle6 1 Tabu.initial_tabu = Some (result, tabu') ∧
    match result with
    | None =>
        (∀ move segment,
           ¬ shift_candidate 6 cycle6 (Tabu._tabu_set Tabu.initial_tabu) path 1 move segment) ∧
        tabu' = Tabu.initial_tabu
    | Some best =>
        ∃ move segment s0 cb,
          shift_candidate 6 cycle6 (Tabu._tabu_set Tabu.initial_tabu) path 1 move segment ∧
          head segment = Some s0 ∧
          insert_after table6 6 cycle6 segment move.2 = Some best ∧
          tour 6 best ∧ __cost best = Some cb ∧
          cost table6 6 (mkPath (after best) (before best) None) = Some cb ∧
          (∀ q segment',
             shift_candidate 6 cycle6 (Tabu._tabu_set Tabu.initial_tabu) path 1 q segment' →
             ∃ sq cq, insert_after table6 6 cycle6 segment' q.2 = Some sq ∧
               __cost sq = Some cq ∧ (cb <= cq)%R) ∧
          Tabu.add_to_tabu Tabu.initial_tabu (s0, move.2) = Some tabu'
    end.
Proof.
  apply (shift_find_best_candidate_spec 6 table6 6 cycle6 1 Tabu.initial_tabu).
  - exact square_table6.
  - exact tour_cycle6.
  - intros c Hc. discriminate.
  - lia.
  - lia.
  - apply Tabu.initial_tabu_inv.
  - simpl. lia.
Defined.

Lemma shift_neighbourhood_empty_witness :
  shift_find_best_candidate 5 table5 5 cycle5 3 Tabu.initial_tabu
  = Some (None, Tabu.initial_tabu).
Proof.
  apply (shift_neighbourhood_empty 5 table5 5 cycle5 3 Tabu.initial_tabu).
  - exact square_table5.
  - exact tour_cycle5.
  - intros c Hc. discriminate.
  - lia.
  - lia.
  - apply Tabu.initial_tabu_inv.
  - simpl. lia.
  - lia.
Defined.

Lemma swap_twice_witness :
  ∃ s' s'', swap table6 6 cycle6 0 3 = Some s' ∧ swap table6 6 s' 0 3 = Some s'' ∧
    after s'' = after cycle6 ∧ before s'' = before cycle6 ∧
    cost table6 6 s'' = cost table6 6 cycle6.
Proof.
  apply (swap_twice 6 table6 6 cycle6 0 3).
  - exact square_table6.
  - exact tour_cycle6.
  - intros c Hc. discriminate.
  - lia.
  - lia.
  - lia.
  - lia.
  - intros [H|H]; discriminate.
Defined.



(** *** [PathSolution.import_problem] *)

Section import.
Open Scope R_scope.

(** The body of the inner loop: [distances[i][j] = distances[j][i] =
    abs(x[i] - x[j]) + abs(y[i] - y[j])]. *)
Definition fill_entry (x y : list R) (i : nat) (distances : list (list R)) (j : nat)
  : option (list (list R)) :=
  xi ← x !! i; xj ← x !! j; yi ← y !! i; yj ← y !! j;
  let value := Rabs (xi - xj) + Rabs (yi - yj) in
  row ← distances !! i;
  row ← setitem row j value;
  distances ← setitem distances i row;
  row ← distances !! j;
  row ← setitem row i value;
  setitem distances j row.

(** [for j in range(i + 1, dimension)] *)
Definition fill_row (dimension : nat) (x y : list R) (distances : list (list R)) (i : nat)
  : option (list (list R)) :=
  foldl (λ acc j, distances ← acc; fill_entry x y i distances j)
        (Some distances) (seq (S i) (dimension - S i)).

(** The part of [import_problem] after the file has been read: [dimension]
    and [edge_weight_type] are the two header fields, [x] and [y] the
    coordinates of the matched city lines.  The result is the table stored in
    [distances]; every failure ends in [ProblemParsingException]. *)
Definition import_problem (dimension : nat) (edge_weight_type : string) (x y : list R)
  : option (list (list R)) :=
  if decide (edge_weight_type = "EUC_2D") then
    foldl (λ acc i, distances ← acc; fill_row dimension x y distances i)
          (Some (replicate dimension (replicate dimension 0))) (seq 0 dimension)
  else None.

(** *** The table [import_problem] fills *)

(** The value stored for the pair [a], [b]. *)
Definition manhattan (x y : list R) (a b : nat) : R :=
  Rabs (x !!! a - x !!! b) + Rabs (y !!! a - y !!! b).

(** [T] is an [n] by [n] table with the entries [val]. *)
Definition table_is (n : nat) (T : list (list R)) (val : nat → nat → R) : Prop :=
  length T = n ∧
  ∀ a, (a < n)%nat → ∃ row, T !! a = Some row ∧ length row = n ∧
    ∀ b, (b < n)%nat → row !! b = Some (val a b).

(** The entries once the rows before [i] are done and row [i] is done up
    to column [j0]. *)
Definition filled (x y : list R) (i j0 : nat) (a b : nat) : R :=
  if decide (a ≠ b ∧ (a `min` b < i ∨ (a `min` b = i ∧ a `max` b < j0)))%nat
  then manhattan x y a b else 0.

Lemma manhattan_sym x y a b : manhattan x y a b = manhattan x y b a.
Proof. unfold manhattan. by rewrite (Rabs_minus_sym (x !!! a)), (Rabs_minus_sym (y !!! a)). Qed.

Lemma manhattan_diag x y a : manhattan x y a a = 0.
Proof. unfold manhattan. rewrite !Rminus_diag, Rabs_R0. lra. Qed.

Lemma table_is_ext n T val val' :
  table_is n T val → (∀ a b, (a < n)%nat → (b < n)%nat → val a b = val' a b) →
  table_is n T val'.
Proof.
  intros [Hlen Hrows] Hext. split; [done|]. intros a Ha.
  destruct (Hrows a Ha) as (row & Hrow & Hl & Hval). exists row.
  do 2 (split; [done|]). intros b Hb. rewrite <- Hext by done. by apply Hval.
Qed.

Lemma fill_entry_spec n x y i j T :
  (i < j < n)%nat → (n ≤ length x)%nat → (n ≤ length y)%nat →
  table_is n T (filled x y i j) →
  ∃ T', fill_entry x y i T j = Some T' ∧ table_is n T' (filled x y i (S j)).
Proof.
  intros Hij Hx Hy [Hlen Hrows]. unfold fill_entry.
  rewrite !(list_lookup_lookup_total_lt x), !(list_lookup_lookup_total_lt y) by lia.
  cbn [mbind option_bind].
  destruct (Hrows i) as (ri & Hri & Hlri & Hvi); [lia|].
  destruct (Hrows j) as (rj & Hrj & Hlrj & Hvj); [lia|].
  rewrite Hri. cbn [mbind option_bind].
  rewrite (setitem_Some ri j) by lia. cbn [mbind option_bind].
  rewrite (setitem_Some T i) by lia. cbn [mbind option_bind].
  rewrite list_lookup_insert_ne by lia. rewrite Hrj. cbn [mbind option_bind].
  rewrite (setitem_Some rj i) by lia. cbn [mbind option_bind].
  rewrite setitem_Some by (rewrite length_insert; lia).
  eexists. split; [done|]. fold (manhattan x y i j). split.
  { by rewrite !length_insert. }
  intros a Ha. destruct (decide (a = j)) as [->|Haj]; [|destruct (decide (a = i)) as [->|Hai]].
  - exists (<[i:=manhattan x y i j]> rj).
    split; [by rewrite list_lookup_insert_eq by (rewrite length_insert; lia)|].
    split; [by rewrite length_insert|]. intros b Hb.
    destruct (decide (b = i)) as [->|Hbi].
    + rewrite list_lookup_insert_eq by lia. f_equal. unfold filled.
      rewrite decide_True by lia. apply manhattan_sym.
    + rewrite list_lookup_insert_ne by done. rewrite (Hvj b Hb). f_equal.
      unfold filled. repeat case_decide; try done; lia.
  - exists (<[j:=manhattan x y i j]> ri).
    split; [by rewrite list_lookup_insert_ne, list_lookup_insert_eq by lia|].
    split; [by rewrite length_insert|]. intros b Hb.
    destruct (decide (b = j)) as [->|Hbj].
    + rewrite list_lookup_insert_eq by lia. f_equal. unfold filled.
      by rewrite decide_True by lia.
    + rewrite list_lookup_insert_ne by done. rewrite (Hvi b Hb). f_equal.
      unfold filled. repeat case_decide; try done; lia.
  - destruct (Hrows a Ha) as (ra & Hra & Hlra & Hva). exists ra.
    split; [by rewrite !list_lookup_insert_ne by done|]. split; [done|].
    intros b Hb. rewrite (Hva b Hb). f_equal.
    unfold filled. repeat case_decide; try done; lia.
Qed.

Lemma fill_columns_spec n x y i len : ∀ j T,
  (i < j)%nat → (j + len = n)%nat → (n ≤ length x)%nat → (n ≤ length y)%nat →
  table_is n T (filled x y i j) →
  ∃ T', foldl (λ acc j, distances ← acc; fill_entry x y i distances j)
          (Some T) (seq j len) = Some T' ∧
    table_is n T' (filled x y i n).
Proof.
  induction len as [|len IH]; intros j T Hij Hn Hx Hy HT.
  - exists T. split; [done|]. by replace j with n in HT by lia.
  - cbn [seq foldl mbind option_bind].
    destruct (fill_entry_spec n x y i j T) as (T1 & -> & HT1); [lia|done..|].
    apply IH; [lia|lia|done..].
Qed.

Lemma fill_row_spec n x y i T :
  (i < n)%nat → (n ≤ length x)%nat → (n ≤ length y)%nat →
  table_is n T (filled x y i 0) →
  ∃ T', fill_row n x y T i = Some T' ∧ table_is n T' (filled x y (S i) 0).
Proof.
  intros Hi Hx Hy HT. unfold fill_row.
  destruct (fill_columns_spec n x y i (n - S i) (S i) T) as (T' & -> & HT'); [lia..|done|done| |].
  - apply (table_is_ext _ _ _ _ HT). intros a b Ha Hb. unfold filled.
    repeat case_decide; try done; lia.
  - exists T'. split; [done|]. apply (table_is_ext _ _ _ _ HT'). intros a b Ha Hb.
    unfold filled. repeat case_decide; try done; lia.
Qed.

Lemma fill_rows_spec n x y len : ∀ i T,
  (i + len = n)%nat → (n ≤ length x)%nat → (n ≤ length y)%nat →
  table_is n T (filled x y i 0) →
  ∃ T', foldl (λ acc i, distances ← acc; fill_row n x y distances i)
          (Some T) (seq i len) = Some T' ∧
    table_is n T' (manhattan x y).
Proof.
  induction len as [|len IH]; intros i T Hn Hx Hy HT.
  - exists T. split; [done|]. apply (table_is_ext _ _ _ _ HT). intros a b Ha Hb.
    unfold filled. case_decide as Hc; [done|].
    assert (a = b) as -> by lia. by rewrite manhattan_diag.
  - cbn [seq foldl mbind option_bind].
    destruct (fill_row_spec n x y i T) as (T1 & -> & HT1); [lia|done..|].
    apply IH; [lia|done..].
Qed.


Lemma table_is_square n T val : table_is n T val → square n T.
Proof.
  intros [Hlen Hrows]. split; [done|]. apply Forall_forall. intros row Hrow.
  apply list_elem_of_lookup in Hrow as [a Ha].
  destruct (Hrows a) as (row' & Hrow' & Hl & _).
  { apply lookup_lt_Some in Ha. lia. }
  congruence.
Qed.

Lemma table_is_dist n T val a b :
  table_is n T val → (a < n)%nat → (b < n)%nat → dist T a b = Some (val a b).
Proof.
  intros [_ Hrows] Ha Hb. destruct (Hrows a Ha) as (row & Hrow & _ & Hval).
  unfold dist. rewrite Hrow. cbn [mbind option_bind]. by apply Hval.
Qed.

Lemma table_is_outside n T val a b :
  table_is n T val → (n ≤ a ∨ n ≤ b)%nat → dist T a b = None.
Proof.
  intros [Hlen Hrows] Hab. unfold dist. destruct (T !! a) as [row|] eqn:Hrow; [|done].
  cbn [mbind option_bind]. pose proof (lookup_lt_Some _ _ _ Hrow) as Ha.
  destruct (Hrows a) as (row' & Hrow' & Hl & _); [lia|].
  apply lookup_ge_None. assert (row = row') as -> by congruence. lia.
Qed.

Lemma import_problem_rows (dimension : nat) (x y : list R) :
  (dimension ≤ length x)%nat → (dimension ≤ length y)%nat →
  ∃ distances, import_problem dimension "EUC_2D" x y = Some distances ∧
    table_is dimension distances (manhattan x y).
Proof.
  intros Hx Hy. unfold import_problem. rewrite decide_True by done.
  apply fill_rows_spec; [lia|done..|].
  split; [by rewrite length_replicate|]. intros a Ha. exists (replicate dimension 0).
  split; [by apply lookup_replicate_2|]. split; [by rewrite length_replicate|].
  intros b Hb. rewrite lookup_replicate_2 by done. f_equal. unfold filled.
  rewrite decide_False; [done|lia].
Qed.

(** X4.  When there are at least [dimension] coordinates,
    [import_problem] of an [EUC_2D] instance succeeds; the table it stores is
    [dimension] by [dimension] and symmetric, and its entry for the cities
    [i] and [j] is [abs(x[i] - x[j]) + abs(y[i] - y[j])] (0 on the diagonal). *)
Theorem import_problem_table (dimension : nat) (x y : list R) :
  (dimension ≤ length x)%nat → (dimension ≤ length y)%nat →
  ∃ distances, import_problem dimension "EUC_2D" x y = Some distances ∧
    square dimension distances ∧ symmetric distances ∧
    ∀ i j xi xj yi yj, (i < dimension)%nat → (j < dimension)%nat →
      x !! i = Some xi → x !! j = Some xj → y !! i = Some yi → y !! j = Some yj →
      dist distances i j = Some (Rabs (xi - xj) + Rabs (yi - yj)).
Proof.
  intros Hx Hy. destruct (import_problem_rows dimension x y Hx Hy) as (T & Himport & HT).
  exists T. split; [done|]. split; [by apply (table_is_square _ _ _ HT)|]. split.
  - intros i j. destruct (decide (i < dimension ∧ j < dimension)%nat) as [[Hi Hj]|Hout].
    + rewrite !(table_is_dist _ _ _ _ _ HT) by done. f_equal. apply manhattan_sym.
    + rewrite !(table_is_outside _ _ _ _ _ HT) by lia. done.
  - intros i j xi xj yi yj Hi Hj Hxi Hxj Hyi Hyj.
    rewrite (table_is_dist _ _ _ _ _ HT) by done. f_equal. unfold manhattan.
    by rewrite (list_lookup_total_correct _ _ _ Hxi), (list_lookup_total_correct _ _ _ Hxj),
      (list_lookup_total_correct _ _ _ Hyi), (list_lookup_total_correct _ _ _ Hyj).
Qed.

Lemma import_problem_table_witness :
  ∃ distances, import_problem 2 "EUC_2D" [0; 3] [0; 4] = Some distances ∧
    square 2 distances ∧ symmetric distances ∧
    ∀ i j xi xj yi yj, (i < 2)%nat → (j < 2)%nat →
      [0; 3] !! i = Some xi → [0; 3] !! j = Some xj →
      [0; 4] !! i = Some yi → [0; 4] !! j = Some yj →
      dist distances i j = Some (Rabs (xi - xj) + Rabs (yi - yj)).
Proof. apply (import_problem_table 2 [0; 3] [0; 4]); simpl; lia. Defined.


(** The metric the claim expects for [EUC_2D]. *)
Definition euclidean (x y : list R) (i j : nat) : option R :=
  xi ← x !! i; xj ← x !! j; yi ← y !! i; yj ← y !! j;
  Some (sqrt ((xi - xj) * (xi - xj) + (yi - yj) * (yi - yj))).

(** C3 at its failing input.  For the two cities (0,0) and (3,4) of an
    [EUC_2D] instance the table holds 7, the sum of the coordinate
    differences, where the Euclidean distance is 5. *)
Lemma import_problem_not_euclidean :
  ∃ distances, import_problem 2 "EUC_2D" [0; 3] [0; 4] = Some distances ∧
    dist distances 0 1 = Some 7 ∧ dist distances 1 0 = Some 7 ∧
    euclidean [0; 3] [0; 4] 0 1 = Some 5.
Proof.
  eexists. split; [reflexivity|].
  assert (Rabs (0 - 3) + Rabs (0 - 4) = 7) as Hman.
  { rewrite !Rabs_left by lra. lra. }
  split; [|split].
  - cbn. by rewrite Hman.
  - cbn. by rewrite Hman.
  - cbn. f_equal. replace ((0 - 3) * (0 - 3) + (0 - 4) * (0 - 4)) with (5 * 5) by lra.
    apply sqrt_square. lra.
Qed.

End import.

End TSP.

(** ** Drone and truck delivery ([ts/d2d/solutions.py]) *)

Module D2D.

(** The exceptions the code can raise; [OutOfFuel] stands for a [while] loop
    that has not finished within the fuel given to the model. *)
Inductive exn :=
  | IndexError | ValueError | ZeroDivisionError | StopIteration | OutOfFuel.

Inductive result (A : Type) : Type :=
  | Ok (a : A)
  | Raise (e : exn).
Arguments Ok {A} a.
Arguments Raise {A} e.

#[global] Instance result_ret : MRet result := @Ok.
#[global] Instance result_bind : MBind result := λ A B f m,
  match m with Ok a => f a | Raise e => Raise e end.

(** [l[i]] *)
Definition getitem {A} (l : list A) (i : nat) : result A :=
  match l !! i with Some a => Ok a | None => Raise IndexError end.

(** [l[-1]] and [l[-2]] *)
Definition getlast {A} (l : list A) : result A :=
  match last l with Some a => Ok a | None => Raise IndexError end.

Definition getlast2 {A} (l : list A) : result A :=
  match rev l with _ :: a :: _ => Ok a | _ => Raise IndexError end.

(** Float division *)
Definition fdiv (a b : R) : result R :=
  if decide (b = 0%R) then Raise ZeroDivisionError else Ok (a / b)%R.

(** A [for] loop with a body that can raise. *)
Fixpoint foldlM {A B} (f : B → A → result B) (b : B) (l : list A) : result B :=
  match l with
  | [] => Ok b
  | a :: l' => b' ← f b a; foldlM f b' l'
  end.

(** A generator expression materialised by [tuple(...)]. *)
Fixpoint mapR {A B} (f : A → result B) (l : list A) : result (list B) :=
  match l with
  | [] => Ok []
  | a :: l' => b ← f a; bs ← mapR f l'; Ok (b :: bs)
  end.

(** [next(it)] for [it = itertools.cycle(l)] after [k] earlier calls. *)
Definition cycle_next {A} (l : list A) (k : nat) : result (A * nat) :=
  match l !! (k `mod` length l) with
  | Some a => Ok (a, S k)
  | None => Raise StopIteration
  end.

(** [min(l, key=key)]: the first element of least key. *)
Fixpoint min_loop {A} (key : A → result R) (best : A) (kbest : R) (l : list A) : result A :=
  match l with
  | [] => Ok best
  | a :: l' =>
      ka ← key a;
      if decide (ka < kbest)%R then min_loop key a ka l' else min_loop key best kbest l'
  end.

Definition min_by {A} (key : A → result R) (l : list A) : result A :=
  match l with
  | [] => Raise ValueError
  | a :: l' => ka ← key a; min_loop key a ka l'
  end.

(** [l.insert(-1, v)] *)
Definition insert_before_last {A} (l : list A) (v : A) : list A :=
  match rev l with
  | [] => [v]
  | z :: r => rev r ++ [v; z]
  end.

Inductive DroneEnergyConsumptionMode := LINEAR | NON_LINEAR.

(** Modelled from the spec: the physical configuration records of [config.py],
    which is not among the sources.  [DroneConfig] has the attributes that
    [solutions.py] reads from a [DroneLinearConfig] and from a
    [DroneNonlinearConfig] alike; [TruckConfig] the maximum velocity and the
    hourly coefficients. *)
Record DroneConfig := mkDrone {
  altitude : R;
  takeoff_speed : R;
  landing_speed : R;
  cruise_speed : R;
  capacity : R;
  battery : R;
  takeoff_power : R → R;
  cruise_power : R → R;
  landing_power : R → R;
}.

Record TruckConfig := mkTruck {
  maximum_velocity : R;
  coefficients : list R;
}.

(** [D2DPathSolution]; the last four fields are those [SolutionMetricsMixin]
    stores. *)
Record D2DPathSolution := mkSolution {
  _to_propagate : bool;
  drone_paths : list (list (list nat));
  technician_paths : list (list nat);
  drone_arrival_timestamps : list (list (list R));
  technician_arrival_timestamps : list (list R);
  drone_timespans : list R;
  drone_waiting_times : list (list R);
  technician_timespans : list R;
  technician_waiting_times : list R;
}.

Section d2d.
(** The class attributes set by [import_problem] and [import_config]. *)
Variable customers_count drones_count technicians_count : nat.
Variable drones_flight_duration : R.
Variable x y demands : list R.
Variable dronable : list bool.
Variable drone_service_time technician_service_time : list R.
Variable energy_mode : DroneEnergyConsumptionMode.
Variable truck_config : TruckConfig.
Variable drone_linear_config drone_nonlinear_config : list DroneConfig.

Open Scope R_scope.

(** [D2DPathSolution.distance] *)
Definition distance (first second : nat) : result R :=
  xf ← getitem x first; xs ← getitem x second;
  yf ← getitem y first; ys ← getitem y second;
  Ok (sqrt ((xf - xs) ^ 2 + (yf - ys) ^ 2)).

(** [cls.drone_linear_config[drone] if cls.energy_mode == LINEAR else
    cls.drone_nonlinear_config[drone]] *)
Definition drone_config (drone : nat) : result DroneConfig :=
  match energy_mode with
  | LINEAR => getitem drone_linear_config drone
  | NON_LINEAR => getitem drone_nonlinear_config drone
  end.

(** [config.altitude * (1 / config.takeoff_speed + 1 / config.landing_speed)] *)
Definition vertical_time (config : DroneConfig) : result R :=
  up ← fdiv 1 (takeoff_speed config);
  down ← fdiv 1 (landing_speed config);
  Ok (altitude config * (up + down)).

(** The body of the loop of [calculate_drone_arrival_timestamps], on the
    loop variables [result] and [last]. *)
Definition drone_arrival_step (config : DroneConfig) (vertical : R)
    (st : list R * nat) (index : nat) : result (list R * nat) :=
  previous ← getlast st.1;
  service ← getitem drone_service_time st.2;
  d ← distance st.2 index;
  cruise ← fdiv d (cruise_speed config);
  Ok (st.1 ++ [previous + service + vertical + cruise], index).

Definition calculate_drone_arrival_timestamps (path : list nat) (drone : nat) (offset : R)
  : result (list R) :=
  last ← getitem path 0;
  config ← drone_config drone;
  vertical ← vertical_time config;
  st ← foldlM (drone_arrival_step config vertical) ([offset], last) (tail path);
  Ok st.1.

(** [_ensure_drone_arrival_timestamps] *)
Definition _ensure_drone_arrival_timestamps (path : list nat) (drone : option nat)
    (arrival_timestamps : option (list R)) : result (list R) :=
  match arrival_timestamps with
  | None =>
      match drone with
      | None => Raise ValueError
      | Some drone => calculate_drone_arrival_timestamps path drone 0
      end
  | Some arrival_timestamps => Ok arrival_timestamps
  end.

(** The loop shared by the two waiting-time functions:
    [result += arrival_timestamps[-1] - arrival_timestamps[path_index] -
     service_time[index]] over [enumerate(path)]. *)
Definition waiting_step (service_time : list R) (arrival_timestamps : list R)
    (acc : R) (entry : nat * nat) : result R :=
  final ← getlast arrival_timestamps;
  arrival ← getitem arrival_timestamps entry.1;
  service ← getitem service_time entry.2;
  Ok (acc + (final - arrival - service)).

Definition enumerate {A} (l : list A) : list (nat * A) := imap (λ i a, (i, a)) l.

(** [calculate_drone_total_waiting_time]; the call of
    [_ensure_drone_arrival_timestamps] passes [drone] only. *)
Definition calculate_drone_total_waiting_time (path : list nat) (drone : option nat)
    (arrival_timestamps : option (list R)) : result R :=
  arrival_timestamps ← _ensure_drone_arrival_timestamps path drone None;
  foldlM (waiting_step drone_service_time arrival_timestamps) 0 (enumerate path).

(** [calculate_drone_flight_duration] *)
Definition calculate_drone_flight_duration (path : list nat) (drone : option nat)
    (arrival_timestamps : option (list R)) : result R :=
  arrival_timestamps ← _ensure_drone_arrival_timestamps path drone arrival_timestamps;
  final ← getlast arrival_timestamps;
  first ← getitem arrival_timestamps 0;
  Ok (final - first).

(** [calculate_total_weight] *)
Definition calculate_total_weight (path : list nat) : result R :=
  foldlM (λ acc index, d ← getitem demands index; Ok (acc + d)) 0 path.

(** The body of the loop of [calculate_drone_energy_consumption], on the
    loop variables [result] and [weight]; [entry] is [(path_index, index)]. *)
Definition energy_step (path : list nat) (config : DroneConfig) (takeoff_time landing_time : R)
    (st : R * R) (entry : nat * nat) : result (R * R) :=
  last ← getitem path (entry.1 - 1);
  d ← distance last entry.2;
  cruise_time ← fdiv d (cruise_speed config);
  demand ← getitem demands entry.2;
  Ok (st.1 + (takeoff_time * takeoff_power config st.2
              + cruise_time * cruise_power config st.2
              + landing_time * landing_power config st.2),
      st.2 + demand).

(** [calculate_drone_energy_consumption]; [drone] is not optional here. *)
Definition calculate_drone_energy_consumption (path : list nat) (drone : nat)
    (arrival_timestamps : option (list R)) : result R :=
  arrival_timestamps ← _ensure_drone_arrival_timestamps path (Some drone) arrival_timestamps;
  config ← drone_config drone;
  takeoff_time ← fdiv (altitude config) (takeoff_speed config);
  landing_time ← fdiv (altitude config) (landing_speed config);
  st ← foldlM (energy_step path config takeoff_time landing_time) (0, 0)
        (imap (λ i index, (S i, index)) (tail path));
  Ok st.1.

(** The variables of the [while distance > 0] loop of
    [calculate_technician_arrival_timestamps]: [timestamp], [distance],
    [current_within_timespan], [velocity] and [coefficients_iter], the last
    one as the number of calls of [next] made so far on the cycling iterator. *)
Record travel_state := mkTravel {
  tv_timestamp : R;
  tv_distance : R;
  tv_within : R;
  tv_velocity : R;
  tv_iter : nat;
}.

Fixpoint travel (fuel : nat) (st : travel_state) : result travel_state :=
  if decide (0 < tv_distance st) then
    match fuel with
    | O => Raise OutOfFuel
    | S fuel' =>
        q ← fdiv (tv_distance st) (tv_velocity st);
        let time_shift := Rmin q (3600 - tv_within st) in
        let timestamp := tv_timestamp st + time_shift in
        let distance := tv_distance st - time_shift * tv_velocity st in
        let current_within_timespan := tv_within st + time_shift in
        if decide (3600 <= current_within_timespan) then
          nx ← cycle_next (coefficients truck_config) (tv_iter st);
          travel fuel' (mkTravel timestamp distance 0
                          (maximum_velocity truck_config * nx.1) nx.2)
        else
          travel fuel' (mkTravel timestamp distance current_within_timespan
                          (tv_velocity st) (tv_iter st))
    end
  else Ok st.

(** The variables of the [for] loop around it: [result], [last],
    [current_within_timespan], [velocity] and [coefficients_iter]. *)
Record truck_state := mkTruckState {
  ts_result : list R;
  ts_last : nat;
  ts_within : R;
  ts_velocity : R;
  ts_iter : nat;
}.

Definition technician_arrival_step (fuel : nat) (st : truck_state) (index : nat)
  : result truck_state :=
  timestamp ← getlast (ts_result st);
  d ← distance (ts_last st) index;
  tr ← travel fuel (mkTravel timestamp d (ts_within st) (ts_velocity st) (ts_iter st));
  Ok (mkTruckState (ts_result st ++ [tv_timestamp tr]) index (tv_within tr)
        (tv_velocity tr) (tv_iter tr)).

(** [calculate_technician_arrival_timestamps] *)
Definition calculate_technician_arrival_timestamps (fuel : nat) (path : list nat)
  : result (list R) :=
  last ← getitem path 0;
  nx ← cycle_next (coefficients truck_config) 0;
  st ← foldlM (technician_arrival_step fuel)
        (mkTruckState [0] last 0 (maximum_velocity truck_config * nx.1) nx.2) (tail path);
  Ok (ts_result st).

(** [calculate_technician_total_waiting_time] *)
Definition calculate_technician_total_waiting_time (fuel : nat) (path : list nat)
    (arrival_timestamps : option (list R)) : result R :=
  arrival_timestamps ←
    match arrival_timestamps with
    | None => calculate_technician_arrival_timestamps fuel path
    | Some arrival_timestamps => Ok arrival_timestamps
    end;
  foldlM (waiting_step technician_service_time arrival_timestamps) 0 (enumerate path).

(** *** The constructor *)

(** [a or b] on an optional tuple: [None] and the empty tuple are false. *)
Definition or_else {A} (given : option (list A)) (computed : result (list A))
  : result (list A) :=
  match given with
  | Some (a :: l) => Ok (a :: l)
  | _ => computed
  end.

(** The local function [get_arrival_timestamps] of [__init__]: the inner
    loop over the routes of one drone, on the loop variables [offset] and
    [drone_arrivals], and the outer loop over the drones. *)
Definition drone_arrivals_step (drone : nat) (st : R * list (list R)) (path : list nat)
  : result (R * list (list R)) :=
  arrivals ← calculate_drone_arrival_timestamps path drone st.1;
  offset ← getlast arrivals;
  Ok (offset, st.2 ++ [arrivals]).

Definition drone_arrivals (entry : nat * list (list nat)) : result (list (list R)) :=
  st ← foldlM (drone_arrivals_step entry.1) (0, []) entry.2;
  Ok st.2.

Definition get_arrival_timestamps (drone_paths : list (list (list nat)))
  : result (list (list (list R))) :=
  mapR drone_arrivals (enumerate drone_paths).

(** The waiting times of the routes of one drone, as the constructor
    computes them. *)
Definition drone_waiting_row (drone_arrival_timestamps : list (list (list R)))
    (entry : nat * list (list nat)) : result (list R) :=
  arrivals ← getitem drone_arrival_timestamps entry.1;
  mapR (λ pa : list nat * list R,
          calculate_drone_total_waiting_time pa.1 (Some entry.1) (Some pa.2))
       (zip entry.2 arrivals).

(** ... and of one truck. *)
Definition technician_waiting_entry (fuel : nat) (pa : list nat * list R) : result R :=
  calculate_technician_total_waiting_time fuel pa.1 (Some pa.2).

(** The local function [__last_element] of [__init__]: [__tuple[-1][-1]], or
    [0.0] on [IndexError]. *)
Definition __last_element (t : list (list R)) : R :=
  match last t with
  | Some inner => match last inner with Some v => v | None => 0 end
  | None => 0
  end.

(** [D2DPathSolution.__init__] *)
Definition __init__ (fuel : nat)
    (drone_paths : list (list (list nat))) (technician_paths : list (list nat))
    (drone_arrival_timestamps : option (list (list (list R))))
    (technician_arrival_timestamps : option (list (list R)))
    (drone_timespans : option (list R))
    (drone_waiting_times : option (list (list R)))
    (technician_timespans : option (list R))
    (technician_waiting_times : option (list R))
  : result D2DPathSolution :=
  drone_arrival_timestamps ←
    match drone_arrival_timestamps with
    | None => get_arrival_timestamps drone_paths
    | Some given => Ok given
    end;
  technician_arrival_timestamps ←
    match technician_arrival_timestamps with
    | None => mapR (calculate_technician_arrival_timestamps fuel) technician_paths
    | Some given => Ok given
    end;
  drone_timespans ←
    or_else drone_timespans (Ok (__last_element <$> drone_arrival_timestamps));
  drone_waiting_times ←
    or_else drone_waiting_times
      (mapR (drone_waiting_row drone_arrival_timestamps) (enumerate drone_paths));
  technician_timespans ←
    or_else technician_timespans (mapR getlast technician_arrival_timestamps);
  technician_waiting_times ←
    or_else technician_waiting_times
      (mapR (technician_waiting_entry fuel)
            (zip technician_paths technician_arrival_timestamps));
  Ok (mkSolution true drone_paths technician_paths
        drone_arrival_timestamps technician_arrival_timestamps
        drone_timespans drone_waiting_times technician_timespans technician_waiting_times).

(** *** The initial solution *)

(** [set(e for e in range(1, 1 + customers_count) if dronable[e])] for
    [want = true], and with [not dronable[e]] for [want = false].  The set is
    kept as the list of its elements in increasing order; [min] breaks ties by
    the order of iteration, on which no property below depends. *)
Definition customers_where (want : bool) : result (list nat) :=
  foldlM (λ acc e, d ← getitem dronable e;
                   Ok (if decide (d = want) then acc ++ [e] else acc))
         [] (seq 1 customers_count).

(** [s.remove(index)] *)
Definition discard (index : nat) (s : list nat) : list nat :=
  filter (λ e, e ≠ index) s.

(** [paths[-1].append(v)] *)
Definition append_to_last (paths : list (list nat)) (v : nat) : result (list (list nat)) :=
  match rev paths with
  | [] => Raise IndexError
  | p :: r => Ok (rev r ++ [p ++ [v]])
  end.

(** The first [while] loop of [initial]. *)
Fixpoint serve_technician_only (fuel : nat) (technician_paths : list (list nat))
    (technician_paths_iter : nat) (technician_only : list nat)
  : result (list (list nat)) :=
  match technician_only with
  | [] => Ok technician_paths
  | _ :: _ =>
      match fuel with
      | O => Raise OutOfFuel
      | S fuel' =>
          let position := (technician_paths_iter `mod` length technician_paths)%nat in
          nx ← cycle_next technician_paths technician_paths_iter;
          tail_ ← getlast nx.1;
          index ← min_by (distance tail_) technician_only;
          serve_technician_only fuel'
            (<[position := nx.1 ++ [index]]> technician_paths) nx.2
            (discard index technician_only)
      end
  end.

(** The three-way feasibility test on the hypothetical route. *)
Definition infeasible (config : DroneConfig) (drone : nat)
    (hypothetical_path : list nat) (hypothetical_arrival_timestamps : list R)
  : result bool :=
  weight ← calculate_total_weight hypothetical_path;
  if decide (capacity config < weight) then Ok true else
  duration ← calculate_drone_flight_duration hypothetical_path (Some drone)
               (Some hypothetical_arrival_timestamps);
  if decide (drones_flight_duration < duration) then Ok true else
  energy ← calculate_drone_energy_consumption hypothetical_path drone
             (Some hypothetical_arrival_timestamps);
  Ok (bool_decide (battery config < energy)).

(** [min(technician_paths, key=lambda path: cls.distance(index, path[-2]))],
    as the position of that path in [technician_paths]. *)
Definition nearest_technician (technician_paths : list (list nat)) (index : nat)
  : result nat :=
  min_by (λ position, path ← getitem technician_paths position;
                      stop ← getlast2 path;
                      distance index stop)
         (seq 0 (length technician_paths)).

(** The second [while] loop of [initial]. *)
Fixpoint serve_dronable (fuel : nat) (drone_paths : list (list (list nat)))
    (technician_paths : list (list nat)) (drone_iter : nat) (dronable_set : list nat)
  : result (list (list (list nat)) * list (list nat)) :=
  match dronable_set with
  | [] => Ok (drone_paths, technician_paths)
  | _ :: _ =>
      match fuel with
      | O => Raise OutOfFuel
      | S fuel' =>
          nx ← cycle_next (seq 0 drones_count) drone_iter;
          let drone := nx.1 in
          paths ← getitem drone_paths drone;
          config ← drone_config drone;
          path ← getlast paths;
          tail_ ← getlast path;
          index ← min_by (distance tail_) dronable_set;
          let hypothetical_path := path ++ [index; 0%nat] in
          hypothetical_arrival_timestamps ←
            calculate_drone_arrival_timestamps hypothetical_path drone 0;
          split ← infeasible config drone hypothetical_path hypothetical_arrival_timestamps;
          if (split : bool) then
            closed ← append_to_last paths 0%nat;
            position ← nearest_technician technician_paths index;
            technician_path ← getitem technician_paths position;
            serve_dronable fuel'
              (<[drone := closed ++ [[0%nat]]]> drone_paths)
              (<[position := insert_before_last technician_path index]> technician_paths)
              nx.2 (discard index dronable_set)
          else
            extended ← append_to_last paths index;
            serve_dronable fuel' (<[drone := extended]> drone_paths) technician_paths
              nx.2 (discard index dronable_set)
      end
  end.

(** [D2DPathSolution.initial] *)
Definition initial (fuel : nat) : result D2DPathSolution :=
  let technician_paths := replicate technicians_count [0%nat] in
  technician_only ← customers_where false;
  technician_paths ← serve_technician_only fuel technician_paths 0 technician_only;
  let technician_paths := (λ path, path ++ [0%nat]) <$> technician_paths in
  let drone_paths := replicate drones_count [[0%nat]] in
  dronable_set ← customers_where true;
  served ← serve_dronable fuel drone_paths technician_paths 0 dronable_set;
  drone_paths ← mapR (λ paths, append_to_last paths 0%nat) served.1;
  __init__ fuel
    ((λ paths, filter (λ path : list nat, (2 < length path)%nat) paths) <$> drone_paths)
    served.2 None None None None None None.

(** *** Basic facts about the helpers *)

Lemma getitem_Ok {A} (l : list A) i a : l !! i = Some a → getitem l i = Ok a.
Proof. intros Hl. unfold getitem. by rewrite Hl. Qed.

Lemma getitem_lt {A} (l : list A) i : (i < length l)%nat → ∃ a, getitem l i = Ok a ∧ l !! i = Some a.
Proof.
  intros Hi. destruct (lookup_lt_is_Some_2 l i Hi) as [a Ha]. exists a.
  split; [by apply getitem_Ok|done].
Qed.

Lemma getlast_snoc {A} (l : list A) a : getlast (l ++ [a]) = Ok a.
Proof. unfold getlast. by rewrite last_snoc. Qed.

Lemma fdiv_Ok a b : b ≠ 0 → fdiv a b = Ok (a / b).
Proof. intros Hb. unfold fdiv. by case_decide. Qed.

Lemma bind_Ok {A B} (a : A) (f : A → result B) : (Ok a ≫= f) = f a.
Proof. done. Qed.

Lemma foldlM_nil {A B} (f : B → A → result B) b : foldlM f b [] = Ok b.
Proof. done. Qed.

Lemma foldlM_cons {A B} (f : B → A → result B) b a l :
  foldlM f b (a :: l) = f b a ≫= λ b', foldlM f b' l.
Proof. done. Qed.

Lemma mapR_cons {A B} (f : A → result B) a l :
  mapR f (a :: l) = f a ≫= λ b, mapR f l ≫= λ bs, Ok (b :: bs).
Proof. done. Qed.

(** A location whose coordinates are known. *)
Definition located (c : nat) : Prop := (c < length x)%nat ∧ (c < length y)%nat.

Lemma distance_located a b :
  located a → located b →
  ∃ xa ya xb yb, x !! a = Some xa ∧ y !! a = Some ya ∧ x !! b = Some xb ∧ y !! b = Some yb ∧
    distance a b = Ok (sqrt ((xa - xb) ^ 2 + (ya - yb) ^ 2)).
Proof.
  intros [Hxa Hya] [Hxb Hyb].
  destruct (getitem_lt x a Hxa) as (xa & Hgxa & ?).
  destruct (getitem_lt y a Hya) as (ya & Hgya & ?).
  destruct (getitem_lt x b Hxb) as (xb & Hgxb & ?).
  destruct (getitem_lt y b Hyb) as (yb & Hgyb & ?).
  exists xa, ya, xb, yb. do 4 (split; [done|]).
  unfold distance. by rewrite Hgxa, Hgxb, Hgya, Hgyb.
Qed.

Lemma distance_nonneg a b d : distance a b = Ok d → 0 <= d.
Proof.
  unfold distance. destruct (getitem x a); [|done]. destruct (getitem x b); [|done].
  destruct (getitem y a); [|done]. destruct (getitem y b); [|done].
  simpl. intros [= <-]. apply sqrt_pos.
Qed.

(** C6 at its failing input.  Whatever the path, a call of
    [calculate_drone_total_waiting_time] with precomputed arrival timestamps
    and no drone raises [ValueError]: the timestamps are not handed on to
    [_ensure_drone_arrival_timestamps]. *)
Lemma waiting_time_drops_timestamps (path : list nat) (arrival_timestamps : list R) :
  calculate_drone_total_waiting_time path None (Some arrival_timestamps) = Raise ValueError ∧
  _ensure_drone_arrival_timestamps path None (Some arrival_timestamps) = Ok arrival_timestamps.
Proof. done. Qed.

(** The sibling [calculate_drone_flight_duration] does hand them on. *)
Lemma flight_duration_uses_timestamps (path : list nat) (first : R) (later : list R) :
  ∃ duration,
    calculate_drone_flight_duration path None (Some (first :: later)) = Ok duration.
Proof.
  unfold calculate_drone_flight_duration. simpl. unfold getlast.
  destruct (last (first :: later)) as [final|] eqn:Hlast; [by eexists|].
  by apply last_None in Hlast.
Qed.

(** *** Drone arrival times *)

(** What a location of a drone route needs: coordinates and a service time,
    which is not negative. *)
Definition drone_known (c : nat) : Prop :=
  located c ∧ (c < length drone_service_time)%nat.

Definition drone_stop (c : nat) : Prop :=
  located c ∧ ∃ service, drone_service_time !! c = Some service ∧ 0 <= service.

Lemma drone_stop_known c : drone_stop c → drone_known c.
Proof. intros (Hloc & service & Hs & _). split; [done|]. by apply lookup_lt_Some in Hs. Qed.

Lemma drone_arrival_step_Ok config vertical res last index previous service d :
  cruise_speed config ≠ 0 →
  getlast res = Ok previous →
  drone_service_time !! last = Some service →
  distance last index = Ok d →
  drone_arrival_step config vertical (res, last) index
  = Ok (res ++ [previous + service + vertical + d / cruise_speed config], index).
Proof.
  intros Hcruise Hprev Hservice Hd. unfold drone_arrival_step. cbn [fst snd].
  rewrite Hprev, bind_Ok, (getitem_Ok _ _ _ Hservice), bind_Ok, Hd, bind_Ok.
  by rewrite fdiv_Ok, !bind_Ok by done.
Qed.

Lemma drone_arrival_fold config vertical rest : ∀ res last previous,
  cruise_speed config ≠ 0 →
  getlast res = Ok previous →
  Forall drone_known (last :: rest) →
  ∃ new final, foldlM (drone_arrival_step config vertical) (res, last) rest
                 = Ok (res ++ new, final) ∧
    length new = length rest ∧
    ∀ k a b t, (last :: rest) !! k = Some a → rest !! k = Some b →
      (previous :: new) !! k = Some t →
      ∃ service xa ya xb yb, drone_service_time !! a = Some service ∧
        x !! a = Some xa ∧ y !! a = Some ya ∧ x !! b = Some xb ∧ y !! b = Some yb ∧
        new !! k = Some (t + service + vertical +
                         sqrt ((xa - xb) ^ 2 + (ya - yb) ^ 2) / cruise_speed config).
Proof.
  induction rest as [|index rest IH]; intros res last previous Hcruise Hprev Hstops.
  - exists [], last. rewrite app_nil_r. split; [done|]. split; [done|].
    intros k a b t _ Hb. by rewrite lookup_nil in Hb.
  - apply Forall_cons in Hstops as [[Hloc Hservice] Hstops].
    apply lookup_lt_is_Some_2 in Hservice as [service Hservice].
    pose proof Hstops as [[Hloci _] _]%Forall_cons.
    destruct (distance_located last index Hloc Hloci)
      as (xa & ya & xb & yb & Hxa & Hya & Hxb & Hyb & Hd).
    rewrite foldlM_cons.
    rewrite (drone_arrival_step_Ok _ _ _ _ _ _ _ _ Hcruise Hprev Hservice Hd), bind_Ok.
    set (t1 := previous + service + vertical +
               sqrt ((xa - xb) ^ 2 + (ya - yb) ^ 2) / cruise_speed config).
    destruct (IH (res ++ [t1]) index t1 Hcruise (getlast_snoc _ _) Hstops)
      as (new & final & Hfold & Hlen & Hstep).
    exists (t1 :: new), final. rewrite Hfold. split; [by rewrite <- app_assoc|].
    split; [cbn [length]; lia|].
    intros [|k] a b t Ha Hb Ht.
    + injection Ha as <-. injection Hb as <-. injection Ht as <-.
      exists service, xa, ya, xb, yb. by repeat split.
    + by apply (Hstep k a b t).
Qed.

Lemma vertical_time_Ok config :
  takeoff_speed config ≠ 0 → landing_speed config ≠ 0 →
  vertical_time config
  = Ok (altitude config * (1 / takeoff_speed config + 1 / landing_speed config)).
Proof. intros Ht Hl. unfold vertical_time. by rewrite !fdiv_Ok, !bind_Ok by done. Qed.

(** The function on any non-empty route. *)
Lemma drone_arrival_run (path : list nat) (drone : nat) (offset : R) (config : DroneConfig) :
  path ≠ [] →
  drone_config drone = Ok config →
  0 < takeoff_speed config → 0 < landing_speed config → 0 < cruise_speed config →
  Forall drone_known path →
  ∃ ts, calculate_drone_arrival_timestamps path drone offset = Ok ts ∧
    length ts = length path ∧
    ts !! 0%nat = Some offset ∧
    (∀ k a b t, path !! k = Some a → path !! S k = Some b → ts !! k = Some t →
       ∃ service xa ya xb yb, drone_service_time !! a = Some service ∧
         x !! a = Some xa ∧ y !! a = Some ya ∧ x !! b = Some xb ∧ y !! b = Some yb ∧
         ts !! S k =
         Some (t + service
               + altitude config * (1 / takeoff_speed config + 1 / landing_speed config)
               + sqrt ((xa - xb) ^ 2 + (ya - yb) ^ 2) / cruise_speed config)).
Proof.
  intros Hne Hconfig Hto Hla Hcr Hstops.
  destruct path as [|first rest]; [done|].
  destruct (drone_arrival_fold config
              (altitude config * (1 / takeoff_speed config + 1 / landing_speed config))
              rest [offset] first offset) as (new & final & Hfold & Hlen & Hstep);
    [lra|done|done|].
  exists (offset :: new). split; [|split; [|split]].
  - unfold calculate_drone_arrival_timestamps. cbn [tail].
    rewrite (getitem_Ok (first :: rest) 0 first eq_refl), bind_Ok, Hconfig, bind_Ok.
    rewrite vertical_time_Ok, bind_Ok by lra. by rewrite Hfold, bind_Ok.
  - cbn [length]. lia.
  - done.
  - intros k a b t Ha Hb Ht. by apply (Hstep k a b t).
Qed.

(** C9.  On a route that starts at the depot, for a drone whose speeds are
    positive and whose altitude is not negative, with service times that are
    not negative, [calculate_drone_arrival_timestamps] returns one timestamp
    per location, the first one being [offset]; each later one is the one
    before plus the service time of the location left, the vertical time
    [altitude * (1 / takeoff_speed + 1 / landing_speed)] and the Euclidean
    distance to the next location over the cruise speed; the timestamps never
    decrease. *)
Theorem drone_arrival_timestamps_spec (path : list nat) (drone : nat) (offset : R)
    (config : DroneConfig) :
  path !! 0%nat = Some 0%nat →
  drone_config drone = Ok config →
  0 < takeoff_speed config → 0 < landing_speed config → 0 < cruise_speed config →
  0 <= altitude config →
  Forall drone_stop path →
  ∃ ts, calculate_drone_arrival_timestamps path drone offset = Ok ts ∧
    length ts = length path ∧
    ts !! 0%nat = Some offset ∧
    (∀ k a b t, path !! k = Some a → path !! S k = Some b → ts !! k = Some t →
       ∃ service xa ya xb yb, drone_service_time !! a = Some service ∧
         x !! a = Some xa ∧ y !! a = Some ya ∧ x !! b = Some xb ∧ y !! b = Some yb ∧
         ts !! S k =
         Some (t + service
               + altitude config * (1 / takeoff_speed config + 1 / landing_speed config)
               + sqrt ((xa - xb) ^ 2 + (ya - yb) ^ 2) / cruise_speed config)) ∧
    (∀ k t t', ts !! k = Some t → ts !! S k = Some t' → t <= t').
Proof.
  intros Hdepot Hconfig Hto Hla Hcr Halt Hstops.
  destruct (drone_arrival_run path drone offset config)
    as (ts & Hrun & Hlen & Hfirst & Hedge); try done.
  { by destruct path. }
  { eapply Forall_impl; [done|]. apply drone_stop_known. }
  exists ts. do 4 (split; [done|]).
  intros k t t' Ht Ht'.
  assert (S k < length path)%nat as Hk.
  { apply lookup_lt_Some in Ht'. lia. }
  destruct (lookup_lt_is_Some_2 path k) as [a Ha]; [lia|].
  destruct (lookup_lt_is_Some_2 path (S k)) as [b Hb]; [lia|].
  destruct (Hedge k a b t Ha Hb Ht) as (service & xa & ya & xb & yb & Hs & _ & _ & _ & _ & Hnext).
  assert (0 <= sqrt ((xa - xb) ^ 2 + (ya - yb) ^ 2) / cruise_speed config) as Hq.
  { apply Rmult_le_pos; [apply sqrt_pos|]. apply Rlt_le, Rinv_0_lt_compat. lra. }
  revert Hnext Hq. generalize (sqrt ((xa - xb) ^ 2 + (ya - yb) ^ 2) / cruise_speed config).
  intros q Hnext Hq. rewrite Hnext in Ht'. injection Ht' as <-.
  assert (0 <= service) as Hs0.
  { rewrite Forall_forall in Hstops.
    destruct (Hstops a (list_elem_of_lookup_2 _ _ _ Ha)) as (_ & service' & Hs' & ?).
    congruence. }
  assert (0 <= altitude config * (1 / takeoff_speed config + 1 / landing_speed config)).
  { apply Rmult_le_pos; [done|].
    apply Rplus_le_le_0_compat; apply Rlt_le, Rdiv_lt_0_compat; lra. }
  lra.
Qed.

(** *** Truck arrival times *)

Lemma travel_eq fuel st :
  travel fuel st =
  if decide (0 < tv_distance st) then
    match fuel with
    | O => Raise OutOfFuel
    | S fuel' =>
        q ← fdiv (tv_distance st) (tv_velocity st);
        let time_shift := Rmin q (3600 - tv_within st) in
        let timestamp := tv_timestamp st + time_shift in
        let distance := tv_distance st - time_shift * tv_velocity st in
        let current_within_timespan := tv_within st + time_shift in
        if decide (3600 <= current_within_timespan) then
          nx ← cycle_next (coefficients truck_config) (tv_iter st);
          travel fuel' (mkTravel timestamp distance 0
                          (maximum_velocity truck_config * nx.1) nx.2)
        else
          travel fuel' (mkTravel timestamp distance current_within_timespan
                          (tv_velocity st) (tv_iter st))
    end
  else Ok st.
Proof. by destruct fuel. Qed.

(** The truck can move: a positive maximum velocity and at least one
    hourly coefficient, all of them positive. *)
Definition truck_ok : Prop :=
  0 < maximum_velocity truck_config ∧
  coefficients truck_config ≠ [] ∧
  Forall (λ c, 0 < c) (coefficients truck_config).

(** The velocity during hour [h] after the departure. *)
Definition hourly_velocity (h : nat) : R :=
  maximum_velocity truck_config *
  (coefficients truck_config !!! (h `mod` length (coefficients truck_config))%nat).

(** The distance covered in the first [h] whole hours. *)
Fixpoint full_hours (h : nat) : R :=
  match h with
  | O => 0
  | S h' => full_hours h' + 3600 * hourly_velocity h'
  end.

(** The distance covered [within] time units into hour [h]. *)
Definition covered (h : nat) (within : R) : R :=
  full_hours h + within * hourly_velocity h.

(** The length of a route: the sum of the distances between consecutive
    locations. *)
Definition leg (a b : nat) : R :=
  match distance a b with Ok d => d | Raise _ => 0 end.

Fixpoint route_length (l : list nat) : R :=
  match l with
  | a :: l' => match l' with b :: _ => leg a b + route_length l' | [] => 0 end
  | [] => 0
  end.

Lemma route_length_cons2 a b l : route_length (a :: b :: l) = leg a b + route_length (b :: l).
Proof. done. Qed.

Lemma coefficient_lookup k :
  coefficients truck_config ≠ [] →
  coefficients truck_config !! (k `mod` length (coefficients truck_config))%nat
  = Some (coefficients truck_config !!! (k `mod` length (coefficients truck_config))%nat).
Proof.
  intros Hne. apply list_lookup_lookup_total_lt. apply Nat.mod_upper_bound.
  destruct (coefficients truck_config); [done|]. simpl. lia.
Qed.

Lemma cycle_next_coefficient k :
  coefficients truck_config ≠ [] →
  cycle_next (coefficients truck_config) k
  = Ok (coefficients truck_config !!! (k `mod` length (coefficients truck_config))%nat, S k).
Proof. intros Hne. unfold cycle_next. by rewrite coefficient_lookup. Qed.

Lemma positive_lower_bound (l : list R) :
  Forall (λ c, 0 < c) l → ∃ low, 0 < low ∧ Forall (λ c, low <= c) l.
Proof.
  induction 1 as [|c l Hc _ (low & Hlow & Hall)].
  - exists 1. split; [lra|constructor].
  - exists (Rmin c low). split; [by apply Rmin_glb_lt|]. constructor; [apply Rmin_l|].
    eapply Forall_impl; [done|]. intros c' Hc'. simpl in Hc'.
    pose proof (Rmin_r c low). lra.
Qed.

Lemma hourly_velocity_bound :
  truck_ok → ∃ vmin, 0 < vmin ∧ ∀ h, vmin <= hourly_velocity h.
Proof.
  intros (Hv & Hne & Hpos). destruct (positive_lower_bound _ Hpos) as (low & Hlow & Hall).
  exists (maximum_velocity truck_config * low). split; [by apply Rmult_lt_0_compat|].
  intros h. unfold hourly_velocity. apply Rmult_le_compat_l; [lra|].
  rewrite Forall_forall in Hall. apply Hall.
  eapply list_elem_of_lookup_2. by apply coefficient_lookup.
Qed.

(** The loop variables agree with the clock: the truck is [tv_within] time
    units into hour [h], at that hour's velocity, and the iterator has been
    advanced once per hour begun. *)
Definition on_clock (st : travel_state) (h : nat) : Prop :=
  tv_velocity st = hourly_velocity h ∧ tv_iter st = S h ∧
  0 <= tv_within st < 3600 ∧
  tv_timestamp st = 3600 * INR h + tv_within st.

Lemma travel_done fuel st : ¬ 0 < tv_distance st → travel fuel st = Ok st.
Proof. intros Hd. rewrite travel_eq. by case_decide. Qed.

(** One round of the loop when the rest of the edge fits in the hour. *)
Lemma travel_within st h fuel :
  truck_ok → on_clock st h → 0 < tv_distance st →
  tv_distance st / hourly_velocity h <= 3600 - tv_within st →
  0 < hourly_velocity h →
  ∃ st' h', travel (S fuel) st = Ok st' ∧ on_clock st' h' ∧
    tv_timestamp st <= tv_timestamp st' ∧
    covered h' (tv_within st') = covered h (tv_within st) + tv_distance st.
Proof.
  destruct st as [t d w v it]. unfold on_clock. cbn [tv_timestamp tv_distance tv_within tv_velocity tv_iter].
  intros (Hmax & Hne & Hall) (-> & -> & Hw & ->) Hd Hle Hvh.
  set (q := d / hourly_velocity h) in *.
  assert (q * hourly_velocity h = d) as Hq by (unfold q; field; lra).
  assert (0 < q) as Hq0 by (unfold q; by apply Rdiv_lt_0_compat).
  rewrite travel_eq. cbn [tv_timestamp tv_distance tv_within tv_velocity tv_iter].
  case_decide; [|done]. rewrite fdiv_Ok, bind_Ok by lra. cbv zeta. fold q.
  rewrite (Rmin_left q) by done. rewrite Hq.
  case_decide as Hroll.
  - rewrite cycle_next_coefficient, bind_Ok by done. cbn [fst snd].
    fold (hourly_velocity (S h)). rewrite travel_done by (cbn [tv_distance]; lra).
    eexists _, (S h). split; [done|].
    cbn [tv_timestamp tv_distance tv_within tv_velocity tv_iter]. unfold covered.
    rewrite S_INR. cbn [full_hours]. repeat split; try done; try lra. nra.
  - rewrite travel_done by (cbn [tv_distance]; lra).
    eexists _, h. split; [done|].
    cbn [tv_timestamp tv_distance tv_within tv_velocity tv_iter]. unfold covered.
    repeat split; try done; try lra.
Qed.

(** The loop ends, at the latest after one round more than the number [N] of
    whole slowest hours that cover the edge. *)
Lemma travel_spec vmin (N : nat) : ∀ st h fuel,
  truck_ok → 0 < vmin → (∀ h, vmin <= hourly_velocity h) →
  on_clock st h → 0 <= tv_distance st →
  tv_distance st <= (3600 - tv_within st) * hourly_velocity h + INR N * (3600 * vmin) →
  (N < fuel)%nat →
  ∃ st' h', travel fuel st = Ok st' ∧ on_clock st' h' ∧
    tv_timestamp st <= tv_timestamp st' ∧
    covered h' (tv_within st') = covered h (tv_within st) + tv_distance st.
Proof.
  induction N as [|N IH]; intros st h fuel Hok Hvmin Hlow Hclock Hd0 Hdist Hfuel.
  all: destruct fuel as [|fuel]; [lia|].
  all: pose proof (Hlow h) as Hvh; pose proof (Hlow (S h)) as Hvh1.
  all: destruct (Rlt_dec 0 (tv_distance st)) as [Hpos|Hzero];
    [|exists st, h; rewrite travel_done by done;
      split; [done|]; split; [done|]; split; lra].
  all: destruct (Rle_dec (tv_distance st / hourly_velocity h) (3600 - tv_within st))
    as [Hle|Hgt]; [by apply travel_within; try lra|].
  all: assert ((3600 - tv_within st) * hourly_velocity h < tv_distance st) as Hmore.
  1,3: (apply Rnot_le_lt in Hgt; apply (Rmult_lt_compat_r (hourly_velocity h)) in Hgt; [|lra];
        replace (tv_distance st / hourly_velocity h * hourly_velocity h)
          with (tv_distance st) in Hgt by (field; lra); done).
  - (* no whole hour is left to cross into *)
    exfalso. cbn [INR] in Hdist. lra.
  - destruct st as [t d w v it]. destruct Hclock as (Hv & Hit & Hw & Ht).
    cbn [tv_timestamp tv_distance tv_within tv_velocity tv_iter] in *. subst v it t.
    destruct Hok as (Hmax & Hne & Hall).
    rewrite travel_eq. cbn [tv_timestamp tv_distance tv_within tv_velocity tv_iter].
    case_decide; [|done]. rewrite fdiv_Ok, bind_Ok by lra. cbv zeta.
    rewrite (Rmin_right (d / hourly_velocity h)) by lra.
    case_decide as Hroll; [|lra].
    rewrite cycle_next_coefficient, bind_Ok by done. cbn [fst snd].
    fold (hourly_velocity (S h)). rewrite S_INR in Hdist.
    edestruct (IH (mkTravel (3600 * INR h + w + (3600 - w))
                    (d - (3600 - w) * hourly_velocity h) 0
                    (hourly_velocity (S h)) (S (S h))) (S h) fuel)
      as (st' & h' & Hrun & Hclock & Htime & Hcov); try done.
    { unfold on_clock. cbn [tv_timestamp tv_distance tv_within tv_velocity tv_iter].
      rewrite S_INR. repeat split; try done; lra. }
    { cbn [tv_distance]. lra. }
    { cbn [tv_timestamp tv_distance tv_within tv_velocity tv_iter]. nra. }
    { lia. }
    exists st', h'. split; [done|]. split; [done|].
    cbn [tv_timestamp tv_distance tv_within tv_velocity tv_iter] in Htime, Hcov.
    split; [lra|]. rewrite Hcov. unfold covered. cbn [full_hours]. lra.
Qed.

Lemma hours_needed (d K : R) : 0 < K → ∃ N : nat, d <= INR N * K.
Proof.
  intros HK. destruct (Rle_dec d 0) as [Hd|Hd].
  - exists O. cbn [INR]. lra.
  - apply Rnot_le_lt in Hd. pose proof (archimed (d / K)) as [Hup _].
    assert (0 < d / K) as Hr by (by apply Rdiv_lt_0_compat).
    assert (0 < up (d / K))%Z as Hz by (apply lt_0_IZR; lra).
    exists (Z.to_nat (up (d / K))). rewrite INR_IZR_INZ, Z2Nat.id by lia.
    replace d with (d / K * K) at 1 by (field; lra).
    apply Rmult_le_compat_r; lra.
Qed.

(** The loop variables of the outer loop agree with the clock at the last
    timestamp [t] recorded. *)
Definition truck_clock (st : truck_state) (h : nat) (t : R) : Prop :=
  getlast (ts_result st) = Ok t ∧
  ts_velocity st = hourly_velocity h ∧ ts_iter st = S h ∧
  0 <= ts_within st < 3600 ∧
  t = 3600 * INR h + ts_within st.

Lemma leg_distance a b d : distance a b = Ok d → leg a b = d.
Proof. intros Hd. unfold leg. by rewrite Hd. Qed.

Lemma travel_mono fuel : ∀ st st' fuel',
  travel fuel st = Ok st' → (fuel ≤ fuel')%nat → travel fuel' st = Ok st'.
Proof.
  induction fuel as [|fuel IH]; intros st st' fuel'; rewrite (travel_eq _ st).
  - case_decide; [done|]. intros [= <-] _. by apply travel_done.
  - case_decide; [|intros [= <-] _; by apply travel_done].
    intros Hrun Hfuel. destruct fuel' as [|fuel']; [lia|].
    rewrite (travel_eq _ st). case_decide; [|done].
    destruct (fdiv (tv_distance st) (tv_velocity st)) as [q|]; [|done].
    rewrite bind_Ok in Hrun |- *. cbv zeta in Hrun |- *.
    case_decide.
    + destruct (cycle_next (coefficients truck_config) (tv_iter st)) as [nx|]; [|done].
      rewrite bind_Ok in Hrun |- *. apply IH; [done|lia].
    + apply IH; [done|lia].
Qed.

Lemma technician_arrival_step_spec st h t index :
  truck_ok → truck_clock st h t → located (ts_last st) → located index →
  ∃ fuel0 st' h' t',
    (∀ fuel, (fuel0 ≤ fuel)%nat → technician_arrival_step fuel st index = Ok st') ∧
    ts_result st' = ts_result st ++ [t'] ∧ ts_last st' = index ∧
    truck_clock st' h' t' ∧ t <= t' ∧
    covered h' (ts_within st') = covered h (ts_within st) + leg (ts_last st) index.
Proof.
  intros Hok (Hlast & Hv & Hit & Hw & Ht) Hloc Hloci.
  destruct (hourly_velocity_bound Hok) as (vmin & Hvmin & Hlow).
  destruct (distance_located _ _ Hloc Hloci) as (xa & ya & xb & yb & _ & _ & _ & _ & Hd).
  pose proof (distance_nonneg _ _ _ Hd) as Hd0.
  destruct (hours_needed (sqrt ((xa - xb) ^ 2 + (ya - yb) ^ 2)) (3600 * vmin)) as [N HN]; [lra|].
  assert (on_clock (mkTravel t (sqrt ((xa - xb) ^ 2 + (ya - yb) ^ 2)) (ts_within st)
                      (ts_velocity st) (ts_iter st)) h) as Hclock.
  { unfold on_clock. cbn [tv_timestamp tv_within tv_velocity tv_iter].
    repeat split; try done; lra. }
  destruct (travel_spec vmin N _ h (S N) Hok Hvmin Hlow Hclock)
    as (tr & h' & Hrun & (Hv' & Hit' & Hw' & Ht') & Htime & Hcov).
  { done. }
  { cbn [tv_distance tv_within]. pose proof (Hlow h).
    assert (0 <= (3600 - ts_within st) * hourly_velocity h) by (apply Rmult_le_pos; lra).
    lra. }
  { lia. }
  exists (S N), (mkTruckState (ts_result st ++ [tv_timestamp tr]) index (tv_within tr)
            (tv_velocity tr) (tv_iter tr)), h', (tv_timestamp tr).
  split.
  { intros fuel Hfuel. unfold technician_arrival_step.
    rewrite Hlast, bind_Ok, Hd, bind_Ok. by rewrite (travel_mono _ _ _ _ Hrun Hfuel), bind_Ok. }
  cbn [ts_result ts_last ts_within ts_velocity ts_iter].
  split; [done|]. split; [done|]. split.
  { split; [apply getlast_snoc|].
    cbn [ts_result ts_last ts_within ts_velocity ts_iter]. repeat split; try done; lra. }
  cbn [tv_timestamp tv_distance tv_within] in Htime, Hcov. split; [done|].
  by rewrite (leg_distance _ _ _ Hd).
Qed.

Lemma technician_arrival_fold rest : ∀ st h t,
  truck_ok → truck_clock st h t → Forall located (ts_last st :: rest) →
  ∃ fuel0 st' new,
    (∀ fuel, (fuel0 ≤ fuel)%nat → foldlM (technician_arrival_step fuel) st rest = Ok st') ∧
    ts_result st' = ts_result st ++ new ∧ length new = length rest ∧
    (∀ k u u', (t :: new) !! k = Some u → new !! k = Some u' → u <= u') ∧
    (∀ k u, new !! k = Some u →
       ∃ h' w', u = 3600 * INR h' + w' ∧ 0 <= w' < 3600 ∧
         covered h' w' = covered h (ts_within st)
                         + route_length (ts_last st :: take (S k) rest)).
Proof.
  induction rest as [|index rest IH]; intros st h t Hok Hclock Hlocs.
  - exists O, st, []. rewrite app_nil_r.
    repeat split; try done; intros k u; by rewrite ?lookup_nil.
  - apply Forall_cons in Hlocs as [Hloc Hlocs]. pose proof Hlocs as [Hloci _]%Forall_cons.
    destruct (technician_arrival_step_spec st h t index Hok Hclock Hloc Hloci)
      as (f1 & st1 & h1 & t1 & Hrun1 & Hres1 & Hl1 & Hclock1 & Htime1 & Hcov1).
    destruct (IH st1 h1 t1 Hok Hclock1) as (f2 & st' & new & Hrun2 & Hres2 & Hlen & Hmono & Hprof);
      [by rewrite Hl1|].
    exists (Nat.max f1 f2), st', (t1 :: new). split; [|split; [|split; [|split]]].
    + intros fuel Hfuel. rewrite foldlM_cons, Hrun1, bind_Ok by lia. apply Hrun2. lia.
    + by rewrite Hres2, Hres1, <- app_assoc.
    + cbn [length]. lia.
    + intros [|k] u u' Hu Hu'.
      * injection Hu as <-. injection Hu' as <-. done.
      * by apply (Hmono k).
    + destruct Hclock1 as (_ & _ & _ & Hw1 & Ht1).
      intros [|k] u Hu.
      * injection Hu as <-. exists h1, (ts_within st1). do 2 (split; [done|]).
        rewrite Hcov1. change (take 1 (index :: rest)) with [index].
        rewrite route_length_cons2. cbn [route_length]. lra.
      * destruct (Hprof k u Hu) as (h' & w' & Hu' & Hw' & Hcov').
        exists h', w'. do 2 (split; [done|]). rewrite Hcov', Hcov1, Hl1.
        change (take (S (S k)) (index :: rest)) with (index :: take (S k) rest).
        rewrite (route_length_cons2 (ts_last st)). lra.
Qed.

(** The function on any non-empty path. *)
Lemma technician_arrival_run (path : list nat) :
  path ≠ [] → Forall located path → truck_ok →
  ∃ fuel0 ts,
    (∀ fuel, (fuel0 ≤ fuel)%nat →
       calculate_technician_arrival_timestamps fuel path = Ok ts) ∧
    length ts = length path ∧
    ts !! 0%nat = Some 0 ∧
    (∀ k t t', ts !! k = Some t → ts !! S k = Some t' → t <= t') ∧
    (∀ k t, ts !! k = Some t →
       ∃ h within, t = 3600 * INR h + within ∧ 0 <= within < 3600 ∧
         covered h within = route_length (take (S k) path)).
Proof.
  intros Hne Hlocs Hok. destruct path as [|first rest]; [done|].
  pose proof Hok as (Hmax & Hcne & Hpos).
  set (st0 := mkTruckState [0] first 0 (hourly_velocity 0) 1).
  assert (truck_clock st0 0 0) as Hclock.
  { unfold truck_clock, st0. cbn [ts_result ts_velocity ts_iter ts_within INR].
    repeat split; try done; lra. }
  destruct (technician_arrival_fold rest st0 0%nat 0 Hok Hclock Hlocs)
    as (fuel0 & st' & new & Hrun & Hres & Hlen & Hmono & Hprof).
  exists fuel0, (0 :: new). split; [|split; [|split; [|split]]].
  - intros fuel Hfuel. unfold calculate_technician_arrival_timestamps.
    rewrite (getitem_Ok (first :: rest) 0 first eq_refl), bind_Ok.
    rewrite cycle_next_coefficient, bind_Ok by done. cbn [fst snd tail].
    fold (hourly_velocity 0). fold st0. rewrite (Hrun fuel Hfuel), bind_Ok. by rewrite Hres.
  - cbn [length]. lia.
  - done.
  - intros k t t' Ht Ht'. by apply (Hmono k).
  - intros [|k] t Ht.
    + injection Ht as <-. exists 0%nat, 0. change (take 1 (first :: rest)) with [first].
      unfold covered. cbn [INR route_length full_hours]. repeat split; lra.
    + destruct (Hprof k t Ht) as (h' & w' & Hu' & Hw' & Hcov').
      exists h', w'. do 2 (split; [done|]). rewrite Hcov'. unfold covered, st0.
      cbn [ts_within ts_last full_hours].
      change (take (S (S k)) (first :: rest)) with (first :: take (S k) rest). lra.
Qed.

(** C8.  On a path that starts at the depot, with a positive maximum
    velocity and positive hourly coefficients,
    [calculate_technician_arrival_timestamps] ends (for every fuel above some
    bound the model returns the same timestamps), with one timestamp per
    location, the first one 0, never decreasing; and the timestamp of each
    location is the time at which a truck driving at
    [maximum_velocity * coefficients[h % len(coefficients)]] during hour [h]
    (the hours of 3600 time units counted from the departure) has covered the
    length of the path up to that location. *)
Theorem technician_arrival_timestamps_spec (path : list nat) :
  path !! 0%nat = Some 0%nat → Forall located path → truck_ok →
  ∃ fuel0 ts,
    (∀ fuel, (fuel0 ≤ fuel)%nat →
       calculate_technician_arrival_timestamps fuel path = Ok ts) ∧
    length ts = length path ∧
    ts !! 0%nat = Some 0 ∧
    (∀ k t t', ts !! k = Some t → ts !! S k = Some t' → t <= t') ∧
    (∀ k t, ts !! k = Some t →
       ∃ h within, t = 3600 * INR h + within ∧ 0 <= within < 3600 ∧
         covered h within = route_length (take (S k) path)).
Proof.
  intros Hdepot Hlocs Hok. apply technician_arrival_run; [|done..]. by destruct path.
Qed.

(** *** The constructor runs *)

Lemma getlast_nonempty {A} (l : list A) : l ≠ [] → ∃ a, getlast l = Ok a.
Proof.
  intros Hne. unfold getlast. destruct (last l) as [a|] eqn:Hlast; [by exists a|].
  by apply last_None in Hlast.
Qed.

Lemma mapR_Ok {A B} (f : A → result B) (P : A → B → Prop) (l : list A) :
  Forall (λ a, ∃ b, f a = Ok b ∧ P a b) l →
  ∃ bs, mapR f l = Ok bs ∧ Forall2 P l bs.
Proof.
  induction 1 as [|a l (b & Hb & HP) _ (bs & Hbs & HPs)].
  - exists []. split; [done|constructor].
  - exists (b :: bs). rewrite mapR_cons, Hb, bind_Ok, Hbs, bind_Ok. split; [done|].
    by constructor.
Qed.

Lemma mapR_fuel_Ok {A B} (f : nat → A → result B) (P : A → B → Prop) (l : list A) :
  Forall (λ a, ∃ fuel0 b, (∀ fuel, fuel0 ≤ fuel → f fuel a = Ok b) ∧ P a b)%nat l →
  ∃ fuel0 bs, (∀ fuel, fuel0 ≤ fuel → mapR (f fuel) l = Ok bs)%nat ∧ Forall2 P l bs.
Proof.
  induction 1 as [|a l (f1 & b & Hb & HP) _ (f2 & bs & Hbs & HPs)].
  - exists O, []. split; [done|constructor].
  - exists (Nat.max f1 f2), (b :: bs). split; [|by constructor].
    intros fuel Hfuel. by rewrite mapR_cons, Hb, bind_Ok, Hbs, bind_Ok by lia.
Qed.

Lemma mapR_imap_Ok {A B C} (f : C → result B) (l : list A) :
  ∀ (g : nat → A → C) (P : nat → A → B → Prop),
  (∀ i a, l !! i = Some a → ∃ b, f (g i a) = Ok b ∧ P i a b) →
  ∃ bs, mapR f (imap g l) = Ok bs ∧ length bs = length l ∧
    ∀ i a b, l !! i = Some a → bs !! i = Some b → P i a b.
Proof.
  induction l as [|a l IH]; intros g P Hall.
  - exists []. by repeat split.
  - destruct (Hall O a eq_refl) as (b & Hb & HP).
    destruct (IH (g ∘ S) (P ∘ S)) as (bs & Hbs & Hlen & HPs).
    { intros i a' Ha'. by apply (Hall (S i)). }
    exists (b :: bs). cbn [imap]. rewrite mapR_cons, Hb, bind_Ok, Hbs, bind_Ok.
    split; [done|]. split; [cbn [length]; lia|].
    intros [|i] a' b' Ha' Hb'.
    + injection Ha' as <-. by injection Hb' as <-.
    + by apply (HPs i a').
Qed.

(** The cumulative waiting-time loop runs when every location has a
    timestamp and a service time. *)
Lemma waiting_fold (service_time arrival_timestamps : list R) (entries : list (nat * nat)) :
  ∀ acc, arrival_timestamps ≠ [] →
  Forall (λ e, e.1 < length arrival_timestamps ∧ e.2 < length service_time)%nat entries →
  ∃ total, foldlM (waiting_step service_time arrival_timestamps) acc entries = Ok total.
Proof.
  induction entries as [|e entries IH]; intros acc Hne Hall; [by exists acc|].
  apply Forall_cons in Hall as [[Hi Hc] Hall].
  destruct (getlast_nonempty _ Hne) as [final Hfinal].
  destruct (getitem_lt _ _ Hi) as (arrival & Harrival & _).
  destruct (getitem_lt _ _ Hc) as (service & Hservice & _).
  assert (waiting_step service_time arrival_timestamps acc e
          = Ok (acc + (final - arrival - service))) as Hstep.
  { unfold waiting_step. by rewrite Hfinal, bind_Ok, Harrival, bind_Ok, Hservice, bind_Ok. }
  rewrite foldlM_cons, Hstep, bind_Ok. by apply IH.
Qed.

Lemma enumerate_entries (path : list nat) (n m : nat) :
  (length path ≤ n)%nat → Forall (λ c, c < m)%nat path →
  Forall (λ e : nat * nat, e.1 < n ∧ e.2 < m)%nat (enumerate path).
Proof.
  intros Hlen Hall. apply Forall_forall. intros [i c] Hin.
  unfold enumerate in Hin. apply list_elem_of_lookup in Hin as [j Hj].
  rewrite list_lookup_imap in Hj.
  destruct (path !! j) as [c'|] eqn:Hc; [|done]. injection Hj as <- <-.
  split; simpl.
  - apply lookup_lt_Some in Hc. lia.
  - rewrite Forall_forall in Hall. apply Hall. by eapply list_elem_of_lookup_2.
Qed.

(** A location known to every table the timing code reads. *)
Definition known (c : nat) : Prop :=
  located c ∧ (c < length drone_service_time)%nat ∧
  (c < length technician_service_time)%nat.

(** A route: at least one location, all known. *)
Definition route_known (path : list nat) : Prop := path ≠ [] ∧ Forall known path.

(** The drones [0 .. n-1] are configured, with positive speeds. *)
Definition fleet_ok (n : nat) : Prop :=
  ∀ drone, (drone < n)%nat →
    ∃ config, drone_config drone = Ok config ∧
      0 < takeoff_speed config ∧ 0 < landing_speed config ∧ 0 < cruise_speed config.

(** Every drone that has a route is configured, with positive speeds. *)
Definition fleet_for (dpaths : list (list (list nat))) : Prop :=
  ∀ drone paths, dpaths !! drone = Some paths → paths ≠ [] →
    ∃ config, drone_config drone = Ok config ∧
      0 < takeoff_speed config ∧ 0 < landing_speed config ∧ 0 < cruise_speed config.

Lemma fleet_ok_for dpaths : fleet_ok (length dpaths) → fleet_for dpaths.
Proof. intros Hfleet drone paths Hpaths _. apply Hfleet. by apply lookup_lt_Some in Hpaths. Qed.

Lemma route_known_drone path : route_known path → path ≠ [] ∧ Forall drone_known path.
Proof.
  intros [Hne Hall]. split; [done|]. eapply Forall_impl; [done|].
  by intros c (? & ? & ?).
Qed.

Lemma route_known_located path : route_known path → path ≠ [] ∧ Forall located path.
Proof.
  intros [Hne Hall]. split; [done|]. eapply Forall_impl; [done|].
  by intros c (? & ? & ?).
Qed.

Lemma drone_arrivals_fold drone config paths : ∀ offset acc,
  drone_config drone = Ok config →
  0 < takeoff_speed config → 0 < landing_speed config → 0 < cruise_speed config →
  Forall route_known paths →
  ∃ offset' arrs, foldlM (drone_arrivals_step drone) (offset, acc) paths
                  = Ok (offset', acc ++ arrs) ∧
    Forall2 (λ path ts, length ts = length path) paths arrs.
Proof.
  induction paths as [|path paths IH]; intros offset acc Hconfig Hto Hla Hcr Hall.
  - exists offset, []. rewrite app_nil_r. split; [done|constructor].
  - apply Forall_cons in Hall as [Hpath Hall].
    destruct (route_known_drone _ Hpath) as [Hne Hknown].
    destruct (drone_arrival_run path drone offset config Hne Hconfig Hto Hla Hcr Hknown)
      as (ts & Hrun & Hlen & _).
    destruct (getlast_nonempty ts) as [final Hfinal].
    { destruct ts; [|done]. destruct path; [done|]. simpl in Hlen. lia. }
    destruct (IH final (acc ++ [ts]) Hconfig Hto Hla Hcr Hall) as (offset' & arrs & Hfold & Hlens).
    assert (drone_arrivals_step drone (offset, acc) path = Ok (final, acc ++ [ts])) as Hstep.
    { unfold drone_arrivals_step. cbn [fst snd]. by rewrite Hrun, bind_Ok, Hfinal, bind_Ok. }
    exists offset', (ts :: arrs). rewrite foldlM_cons, Hstep, bind_Ok, Hfold.
    split; [by rewrite <- app_assoc|]. by constructor.
Qed.

Lemma get_arrival_timestamps_run (drone_paths : list (list (list nat))) :
  fleet_for drone_paths → Forall (Forall route_known) drone_paths →
  ∃ arrivals, get_arrival_timestamps drone_paths = Ok arrivals ∧
    length arrivals = length drone_paths ∧
    ∀ drone paths arrs, drone_paths !! drone = Some paths → arrivals !! drone = Some arrs →
      Forall2 (λ path ts, length ts = length path) paths arrs.
Proof.
  intros Hfleet Hall. unfold get_arrival_timestamps, enumerate.
  apply (mapR_imap_Ok drone_arrivals drone_paths (λ i a, (i, a))
           (λ _ paths arrs, Forall2 (λ path ts, length ts = length path) paths arrs)).
  intros drone paths Hpaths.
  destruct (decide (paths = [])) as [->|Hne]; [exists []; split; [done|constructor]|].
  destruct (Hfleet drone paths Hpaths Hne) as (config & Hconfig & Hto & Hla & Hcr).
  destruct (drone_arrivals_fold drone config paths 0 [] Hconfig Hto Hla Hcr)
    as (offset' & arrs & Hfold & Hlens).
  { rewrite Forall_forall in Hall. apply Hall. by eapply list_elem_of_lookup_2. }
  exists arrs. unfold drone_arrivals. cbn [fst snd]. by rewrite Hfold, bind_Ok.
Qed.

Lemma drone_waiting_time_run path drone config given :
  drone_config drone = Ok config →
  0 < takeoff_speed config → 0 < landing_speed config → 0 < cruise_speed config →
  route_known path →
  ∃ total, calculate_drone_total_waiting_time path (Some drone) given = Ok total.
Proof.
  intros Hconfig Hto Hla Hcr Hpath.
  destruct (route_known_drone _ Hpath) as [Hne Hknown].
  destruct (drone_arrival_run path drone 0 config Hne Hconfig Hto Hla Hcr Hknown)
    as (ts & Hrun & Hlen & _).
  unfold calculate_drone_total_waiting_time, _ensure_drone_arrival_timestamps.
  rewrite Hrun, bind_Ok. apply waiting_fold.
  - destruct ts; [|done]. destruct path; [done|]. simpl in Hlen. lia.
  - apply enumerate_entries; [lia|]. eapply Forall_impl; [done|]. by intros c [_ ?].
Qed.

Lemma mapR_ext {A B} (f g : A → result B) (l : list A) :
  (∀ a, f a = g a) → mapR f l = mapR g l.
Proof. intros Hfg. induction l as [|a l IH]; [done|]. by rewrite !mapR_cons, Hfg, IH. Qed.

Lemma Forall2_zip {A B} (P : A → B → Prop) (l : list A) (k : list B) :
  Forall2 P l k → Forall (λ pa, P pa.1 pa.2) (zip l k).
Proof. induction 1; constructor; done. Qed.

Lemma Forall_zip_l {A B} (P : A → Prop) (l : list A) (k : list B) :
  Forall P l → Forall (λ pa, P pa.1) (zip l k).
Proof.
  intros Hall. revert k. induction Hall as [|a l Ha _ IH]; intros [|b k]; constructor; auto.
Qed.

Lemma technician_waiting_time_run fuel path ts :
  route_known path → length ts = length path →
  ∃ total, calculate_technician_total_waiting_time fuel path (Some ts) = Ok total.
Proof.
  intros [Hne Hknown] Hlen. unfold calculate_technician_total_waiting_time.
  rewrite bind_Ok. apply waiting_fold.
  - destruct ts; [|done]. destruct path; [done|]. simpl in Hlen. lia.
  - apply enumerate_entries; [lia|]. eapply Forall_impl; [done|]. by intros c (_ & _ & ?).
Qed.

(** With nothing precomputed, the constructor succeeds on routes of known
    locations; for each drone it stores one list of timestamps and one
    waiting time per route, and as timespan the last timestamp of the last
    route ([0] when there is none). *)
Lemma init_run (dpaths : list (list (list nat))) (tpaths : list (list nat)) :
  fleet_for dpaths → Forall (Forall route_known) dpaths →
  Forall route_known tpaths → truck_ok →
  ∃ fuel0 s,
    (∀ fuel, (fuel0 ≤ fuel)%nat →
       __init__ fuel dpaths tpaths None None None None None None = Ok s) ∧
    drone_paths s = dpaths ∧ technician_paths s = tpaths ∧
    ∀ drone paths, dpaths !! drone = Some paths →
      ∃ arrs waits, drone_arrival_timestamps s !! drone = Some arrs ∧
        length arrs = length paths ∧
        drone_timespans s !! drone = Some (__last_element arrs) ∧
        drone_waiting_times s !! drone = Some waits ∧ length waits = length paths.
Proof.
  intros Hfleet Hdrones Htechs Htruck.
  destruct (get_arrival_timestamps_run dpaths Hfleet Hdrones) as (da & Hda & Hdalen & Hdarel).
  destruct (mapR_fuel_Ok calculate_technician_arrival_timestamps
              (λ path ts, length ts = length path) tpaths) as (fuel0 & ta & Hta & Htarel).
  { eapply Forall_impl; [exact Htechs|]. intros path Hpath.
    destruct (route_known_located _ Hpath) as [Hne Hloc].
    destruct (technician_arrival_run path Hne Hloc Htruck) as (f & ts & Hrun & Hlen & _).
    by exists f, ts. }
  destruct (mapR_imap_Ok (drone_waiting_row da) dpaths (λ i a, (i, a))
              (λ _ paths waits, length waits = length paths))
    as (dw & Hdw & Hdwlen & Hdwrel).
  { intros drone paths Hpaths.
    destruct (getitem_lt da drone) as (arrs & Harrs & Harrs').
    { apply lookup_lt_Some in Hpaths. lia. }
    pose proof (Hdarel drone paths arrs Hpaths Harrs') as Hrel.
    destruct (decide (paths = [])) as [->|Hne].
    { exists []. unfold drone_waiting_row. cbn [fst snd]. by rewrite Harrs, bind_Ok. }
    destruct (Hfleet drone paths Hpaths Hne) as (config & Hconfig & Hto & Hla & Hcr).
    destruct (mapR_Ok (λ pa : list nat * list R,
                calculate_drone_total_waiting_time pa.1 (Some drone) (Some pa.2))
                (λ _ _, True) (zip paths arrs)) as (waits & Hwaits & Hwrel).
    { apply (Forall_impl _ _ _ (Forall_zip_l route_known paths arrs
               ltac:(rewrite Forall_forall in Hdrones; apply Hdrones;
                     by eapply list_elem_of_lookup_2))).
      intros [path ts] Hpath.
      destruct (drone_waiting_time_run path drone config (Some ts) Hconfig Hto Hla Hcr Hpath)
        as [total Htotal].
      by exists total. }
    exists waits. unfold drone_waiting_row. cbn [fst snd]. rewrite Harrs, bind_Ok.
    split; [done|]. apply Forall2_length in Hwrel, Hrel. rewrite length_zip in Hwrel. lia. }
  destruct (mapR_Ok getlast (λ _ _, True) ta) as (tspans & Htspans & _).
  { apply Forall_forall. intros ts Hts.
    apply list_elem_of_lookup in Hts as [i Hts].
    destruct (Forall2_lookup_r _ _ _ _ _ Htarel Hts) as (path & Hpath & Hlen).
    destruct (getlast_nonempty ts) as [final Hfinal]; [|by exists final].
    rewrite Forall_forall in Htechs.
    destruct (Htechs path (list_elem_of_lookup_2 _ _ _ Hpath)) as [Hne _].
    destruct ts; [|done]. destruct path; [done|]. simpl in Hlen. lia. }
  assert (∃ tw, ∀ fuel, mapR (technician_waiting_entry fuel) (zip tpaths ta) = Ok tw)
    as [tw Htw].
  { destruct (mapR_Ok (technician_waiting_entry O) (λ _ _, True) (zip tpaths ta))
      as (tw & Htw & _); [|exists tw; intros fuel; rewrite <- Htw; by apply mapR_ext].
    assert (Forall2 (λ path ts, route_known path ∧ length ts = length path) tpaths ta) as Hboth.
    { apply Forall2_same_length_lookup. split; [by eapply Forall2_length|].
      intros i path ts Hpath Hts. split.
      - rewrite Forall_forall in Htechs. apply Htechs. by eapply list_elem_of_lookup_2.
      - by eapply (Forall2_lookup_lr _ _ _ _ _ _ Htarel). }
    eapply Forall_impl; [exact (Forall2_zip _ _ _ Hboth)|].
    intros [path ts] [Hpath Hlen]. cbn [fst snd] in *.
    destruct (technician_waiting_time_run O path ts Hpath Hlen) as [total Htotal].
    by exists total. }
  exists fuel0, (mkSolution true dpaths tpaths da ta (__last_element <$> da) dw tspans tw).
  split; [|split; [done|split; [done|]]].
  - intros fuel Hfuel. unfold __init__.
    rewrite Hda, bind_Ok, (Hta fuel Hfuel), bind_Ok. cbn [or_else]. unfold enumerate.
    by rewrite bind_Ok, Hdw, bind_Ok, Htspans, bind_Ok, Htw, bind_Ok.
  - intros drone paths Hpaths.
    cbn [drone_arrival_timestamps drone_timespans drone_waiting_times].
    destruct (lookup_lt_is_Some_2 da drone) as [arrs Harrs].
    { apply lookup_lt_Some in Hpaths. lia. }
    destruct (lookup_lt_is_Some_2 dw drone) as [waits Hwaits].
    { apply lookup_lt_Some in Hpaths. lia. }
    exists arrs, waits. split; [done|]. split.
    { pose proof (Hdarel drone paths arrs Hpaths Harrs) as Hrel.
      by apply Forall2_length in Hrel. }
    split; [by rewrite list_lookup_fmap, Harrs|]. split; [done|].
    by apply (Hdwrel drone paths waits).
Qed.

(** C10.  When the routes that exist are routes of known locations, the
    drones that have a route are configured and the truck can move, the
    constructor called with the paths alone succeeds also when a drone has no
    route at all; the timespan of such a drone is 0 and its tuple of waiting
    times is empty. *)
Theorem init_with_idle_drone (dpaths : list (list (list nat))) (tpaths : list (list nat))
    (drone : nat) :
  dpaths !! drone = Some [] →
  fleet_for dpaths → Forall (Forall route_known) dpaths →
  Forall route_known tpaths → truck_ok →
  ∃ fuel0 s,
    (∀ fuel, (fuel0 ≤ fuel)%nat →
       __init__ fuel dpaths tpaths None None None None None None = Ok s) ∧
    drone_timespans s !! drone = Some 0 ∧
    drone_waiting_times s !! drone = Some [].
Proof.
  intros Hidle Hfleet Hdrones Htechs Htruck.
  destruct (init_run dpaths tpaths Hfleet Hdrones Htechs Htruck)
    as (fuel0 & s & Hrun & _ & _ & Hrows).
  exists fuel0, s. split; [done|].
  destruct (Hrows drone [] Hidle) as (arrs & waits & _ & Harrs & Hspan & Hwaits & Hlen).
  destruct arrs; [|done]. destruct waits; [|done]. done.
Qed.

(** *** The initial solution: helpers *)

Lemma min_loop_in {A} (key : A → result R) (l : list A) : ∀ best kbest,
  Forall (λ a, ∃ k, key a = Ok k) l →
  ∃ r, min_loop key best kbest l = Ok r ∧ (r = best ∨ r ∈ l).
Proof.
  induction l as [|a l IH]; intros best kbest Hall.
  - exists best. split; [done|by left].
  - apply Forall_cons in Hall as [[k Hk] Hall]. cbn [min_loop]. rewrite Hk, bind_Ok.
    case_decide.
    + destruct (IH a k Hall) as (r & Hr & Hin). exists r. split; [done|].
      right. set_solver.
    + destruct (IH best kbest Hall) as (r & Hr & Hin). exists r. split; [done|].
      set_solver.
Qed.

Lemma min_by_in {A} (key : A → result R) (l : list A) :
  l ≠ [] → Forall (λ a, ∃ k, key a = Ok k) l →
  ∃ r, min_by key l = Ok r ∧ r ∈ l.
Proof.
  intros Hne Hall. destruct l as [|a l]; [done|].
  apply Forall_cons in Hall as [[k Hk] Hall]. cbn [min_by]. rewrite Hk, bind_Ok.
  destruct (min_loop_in key l a k Hall) as (r & Hr & Hin). exists r.
  split; [done|]. set_solver.
Qed.

Lemma distance_Ok a b : located a → located b → ∃ d, distance a b = Ok d.
Proof.
  intros Ha Hb. destruct (distance_located a b Ha Hb) as (? & ? & ? & ? & _ & _ & _ & _ & Hd).
  by eexists.
Qed.

Lemma discard_perm index pending :
  NoDup pending → index ∈ pending → pending ≡ₚ index :: discard index pending.
Proof.
  intros Hnd Hin. unfold discard. induction pending as [|c pending IH]; [by apply elem_of_nil in Hin|].
  apply NoDup_cons in Hnd as [Hc Hnd]. destruct (decide (c = index)) as [->|Hne].
  - rewrite filter_cons_False by (intros ?; done). 
    assert (filter (λ e, e ≠ index) pending = pending) as ->; [|done].
    clear IH Hin Hnd. induction pending as [|c pending IH]; [done|].
    apply not_elem_of_cons in Hc as [Hne Hc].
    rewrite filter_cons_True by done. by rewrite IH.
  - rewrite filter_cons_True by done. apply elem_of_cons in Hin as [->|Hin]; [done|].
    rewrite (IH Hnd Hin) at 1. apply Permutation_swap.
Qed.

Lemma discard_NoDup index pending : NoDup pending → NoDup (discard index pending).
Proof. apply NoDup_filter. Qed.

Lemma discard_subseteq index pending c : c ∈ discard index pending → c ∈ pending.
Proof. unfold discard. rewrite list_elem_of_filter. tauto. Qed.

Lemma append_to_last_snoc init lst v :
  append_to_last (init ++ [lst]) v = Ok (init ++ [lst ++ [v]]).
Proof. unfold append_to_last. rewrite rev_app_distr. simpl. by rewrite rev_involutive. Qed.

Lemma insert_before_last_snoc {A} (l : list A) z v :
  insert_before_last (l ++ [z]) v = l ++ [v; z].
Proof. unfold insert_before_last. rewrite rev_app_distr. simpl. by rewrite rev_involutive. Qed.

Lemma getlast2_snoc2 {A} (l : list A) a b : getlast2 (l ++ [a; b]) = Ok a.
Proof. unfold getlast2. by rewrite rev_app_distr. Qed.

(** The customers met on a list of routes. *)
Definition customers (routes : list (list nat)) : list nat :=
  routes ≫= filter (λ c, c ≠ 0%nat).

Lemma bind_insert_perm {A} (f : A → list nat) (l : list A) i a a' extra :
  l !! i = Some a → f a' ≡ₚ extra ++ f a →
  <[i:=a']> l ≫= f ≡ₚ extra ++ (l ≫= f).
Proof.
  intros Hi Hf. rewrite insert_take_drop by by eapply lookup_lt_Some.
  rewrite <- (take_drop_middle l i a Hi) at 3.
  rewrite !bind_app, !bind_cons, Hf.
  rewrite <- (app_assoc extra). apply Permutation_app_swap_app.
Qed.

Lemma customers_snoc_customer route c :
  c ≠ 0%nat → filter (λ c, c ≠ 0%nat) (route ++ [c]) ≡ₚ [c] ++ filter (λ c, c ≠ 0%nat) route.
Proof.
  intros Hc. rewrite filter_app, filter_cons_True, filter_nil by done.
  apply Permutation_app_comm.
Qed.

Lemma customers_snoc_depot route :
  filter (λ c, c ≠ 0%nat) (route ++ [0%nat]) = filter (λ c, c ≠ 0%nat) route.
Proof. rewrite filter_app, filter_cons_False, filter_nil by lia. by rewrite app_nil_r. Qed.

(** A customer index, and the two shapes of a route under construction. *)
Definition customer (c : nat) : Prop := (1 ≤ c ≤ customers_count)%nat.

Definition open_route (route : list nat) : Prop :=
  ∃ mid, route = 0%nat :: mid ∧ Forall customer mid.

Definition closed_route (route : list nat) : Prop :=
  ∃ mid, route = 0%nat :: mid ++ [0%nat] ∧ Forall customer mid.

(** The tables cover the depot and every customer. *)
Definition data_ok : Prop :=
  (customers_count < length x)%nat ∧ (customers_count < length y)%nat ∧
  (customers_count < length demands)%nat ∧ (customers_count < length dronable)%nat ∧
  (customers_count < length drone_service_time)%nat ∧
  (customers_count < length technician_service_time)%nat.

Lemma data_known c : data_ok → (c ≤ customers_count)%nat → known c.
Proof. intros (? & ? & ? & ? & ? & ?) Hc. repeat split; lia. Qed.

Lemma open_route_le route :
  open_route route → Forall (λ c, c ≤ customers_count)%nat route.
Proof.
  intros (mid & -> & Hmid). constructor; [lia|].
  eapply Forall_impl; [done|]. unfold customer. intros c ?. lia.
Qed.

Lemma closed_route_le route :
  closed_route route → Forall (λ c, c ≤ customers_count)%nat route.
Proof.
  intros (mid & -> & Hmid). constructor; [lia|]. apply Forall_app. split.
  - eapply Forall_impl; [done|]. unfold customer. intros c ?. lia.
  - apply Forall_singleton. lia.
Qed.

Lemma open_route_snoc route c : open_route route → customer c → open_route (route ++ [c]).
Proof.
  intros (mid & -> & Hmid) Hc. exists (mid ++ [c]). split; [done|].
  apply Forall_app. split; [done|]. by apply Forall_singleton.
Qed.

Lemma open_route_close route : open_route route → closed_route (route ++ [0%nat]).
Proof. intros (mid & -> & Hmid). by exists mid. Qed.

Lemma open_route_last route : open_route route → ∃ c, getlast route = Ok c ∧ (c ≤ customers_count)%nat.
Proof.
  intros Hopen. pose proof (open_route_le _ Hopen) as Hle. destruct Hopen as (mid & -> & _).
  destruct (getlast_nonempty (0%nat :: mid)) as [c Hc]; [done|]. exists c. split; [done|].
  unfold getlast in Hc. destruct (last (0%nat :: mid)) as [c'|] eqn:Hlast; [|done].
  injection Hc as ->. rewrite Forall_forall in Hle. apply Hle.
  apply last_Some in Hlast as [l' ->]. set_solver.
Qed.

Lemma cycle_next_Ok {A} (l : list A) k :
  l ≠ [] → ∃ a, cycle_next l k = Ok (a, S k) ∧ l !! (k `mod` length l)%nat = Some a.
Proof.
  intros Hne. destruct (lookup_lt_is_Some_2 l (k `mod` length l)%nat) as [a Ha].
  { apply Nat.mod_upper_bound. destruct l; [done|]. simpl. lia. }
  exists a. unfold cycle_next. by rewrite Ha.
Qed.

Lemma customer_located c : data_ok → (c ≤ customers_count)%nat → located c.
Proof. intros Hdata Hc. by destruct (data_known c Hdata Hc). Qed.

(** *** The first loop: technician-only customers *)

Lemma serve_technician_only_eq fuel tp k pending :
  pending ≠ [] →
  serve_technician_only (S fuel) tp k pending =
  (nx ← cycle_next tp k;
   tail_ ← getlast nx.1;
   index ← min_by (distance tail_) pending;
   serve_technician_only fuel
     (<[(k `mod` length tp)%nat := nx.1 ++ [index]]> tp) nx.2 (discard index pending)).
Proof. by destruct pending. Qed.

Lemma nearest_pending tail_ pending :
  data_ok → (tail_ ≤ customers_count)%nat → pending ≠ [] → Forall customer pending →
  ∃ index, min_by (distance tail_) pending = Ok index ∧ index ∈ pending.
Proof.
  intros Hdata Htail Hne Hall. apply min_by_in; [done|].
  eapply Forall_impl; [done|]. intros c [_ Hc].
  apply distance_Ok; by apply customer_located.
Qed.

Lemma serve_technician_only_spec (n : nat) : ∀ tp k pending,
  data_ok → tp ≠ [] → Forall open_route tp →
  NoDup pending → Forall customer pending → length pending = n →
  ∃ tp', (∀ fuel, (n ≤ fuel)%nat → serve_technician_only fuel tp k pending = Ok tp') ∧
    length tp' = length tp ∧ Forall open_route tp' ∧
    customers tp' ≡ₚ pending ++ customers tp.
Proof.
  induction n as [|n IH]; intros tp k pending Hdata Htp Hopen Hnd Hcust Hlen.
  - destruct pending; [|done]. exists tp. split; [by intros [|fuel] _|]. by repeat split.
  - assert (pending ≠ []) as Hne by (by destruct pending).
    destruct (cycle_next_Ok tp k Htp) as (path & Hnext & Hpath).
    pose proof (Forall_lookup_1 _ _ _ _ Hopen Hpath) as Hopath.
    destruct (open_route_last _ Hopath) as (tail_ & Htail & Htaille).
    destruct (nearest_pending tail_ pending Hdata Htaille Hne Hcust) as (index & Hmin & Hin).
    pose proof (discard_perm index pending Hnd Hin) as Hperm.
    assert (customer index) as Hindex by (rewrite Forall_forall in Hcust; by apply Hcust).
    destruct (IH (<[(k `mod` length tp)%nat := path ++ [index]]> tp) (S k)
                (discard index pending)) as (tp' & Hrun & Hlen' & Hopen' & Hcustomers); try done.
    { intros Heq. apply (f_equal length) in Heq. rewrite length_insert in Heq.
      destruct tp; [done|]. done. }
    { apply Forall_insert; [done|]. by apply open_route_snoc. }
    { by apply discard_NoDup. }
    { apply Forall_forall. intros c Hc. rewrite Forall_forall in Hcust.
      by apply Hcust, (discard_subseteq index). }
    { apply Permutation_length in Hperm. simpl in Hperm. lia. }
    exists tp'. split; [|split; [|split]].
    + intros [|fuel] Hfuel; [lia|]. rewrite serve_technician_only_eq by done.
      rewrite Hnext, bind_Ok. cbn [fst snd]. rewrite Htail, bind_Ok, Hmin, bind_Ok.
      apply Hrun. lia.
    + by rewrite Hlen', length_insert.
    + done.
    + rewrite Hcustomers. unfold customers.
      rewrite (bind_insert_perm _ tp _ path _ [index] Hpath)
        by (apply customers_snoc_customer; unfold customer in Hindex; lia).
      rewrite Hperm at 2. cbn [app]. by rewrite <- Permutation_middle.
Qed.

(** *** The feasibility test runs *)

Lemma total_weight_run path :
  data_ok → Forall (λ c, c ≤ customers_count)%nat path →
  ∃ weight, calculate_total_weight path = Ok weight.
Proof.
  intros Hdata Hall. unfold calculate_total_weight. generalize 0.
  induction Hall as [|c path Hc _ IH]; intros acc; [by exists acc|].
  destruct (getitem_lt demands c) as (d & Hd & _).
  { destruct Hdata as (_ & _ & ? & _). lia. }
  rewrite foldlM_cons, Hd, !bind_Ok. apply IH.
Qed.

Lemma energy_fold path config takeoff_time landing_time entries : ∀ st,
  data_ok → cruise_speed config ≠ 0 →
  Forall (λ c, c ≤ customers_count)%nat path →
  Forall (λ e : nat * nat, e.1 - 1 < length path ∧ e.2 ≤ customers_count)%nat entries →
  ∃ st', foldlM (energy_step path config takeoff_time landing_time) st entries = Ok st'.
Proof.
  intros st Hdata Hcruise Hpath Hall. revert st.
  induction Hall as [|e entries [Hi Hc] _ IH]; intros st; [by exists st|].
  destruct (getitem_lt path (e.1 - 1) Hi) as (last & Hlast & Hlast').
  pose proof (Forall_lookup_1 _ _ _ _ Hpath Hlast') as Hlastle.
  destruct (distance_Ok last e.2) as [d Hd]; [by apply customer_located..|].
  destruct (getitem_lt demands e.2) as (demand & Hdemand & _).
  { destruct Hdata as (_ & _ & ? & _). lia. }
  assert (∃ st1, energy_step path config takeoff_time landing_time st e = Ok st1) as [st1 Hst1].
  { unfold energy_step. rewrite Hlast, bind_Ok, Hd, bind_Ok, fdiv_Ok, bind_Ok by done.
    rewrite Hdemand, bind_Ok. by eexists. }
  rewrite foldlM_cons, Hst1, bind_Ok. apply IH.
Qed.

Lemma energy_run path drone config given :
  data_ok → drone_config drone = Ok config →
  0 < takeoff_speed config → 0 < landing_speed config → 0 < cruise_speed config →
  Forall (λ c, c ≤ customers_count)%nat path →
  ∃ energy, calculate_drone_energy_consumption path drone (Some given) = Ok energy.
Proof.
  intros Hdata Hconfig Hto Hla Hcr Hpath. unfold calculate_drone_energy_consumption.
  cbn [_ensure_drone_arrival_timestamps]. rewrite bind_Ok, Hconfig, bind_Ok.
  rewrite !fdiv_Ok, !bind_Ok by lra.
  destruct (energy_fold path config (altitude config / takeoff_speed config)
              (altitude config / landing_speed config)
              (imap (λ i index, (S i, index)) (tail path)) (0, 0) Hdata) as [st Hst];
    [lra|done| |].
  { apply Forall_forall. intros [i c] Hin.
    apply list_elem_of_lookup in Hin as [j Hj]. rewrite list_lookup_imap in Hj.
    destruct (tail path !! j) as [c'|] eqn:Hc; [|done]. injection Hj as <- <-.
    cbn [fst snd]. destruct path as [|first rest]; [done|]. cbn [tail] in Hc.
    split; [apply lookup_lt_Some in Hc; cbn [length]; lia|].
    apply (Forall_lookup_1 _ _ (S j) _ Hpath Hc). }
  rewrite Hst, bind_Ok. by eexists.
Qed.

Lemma flight_duration_run path drone timestamps :
  timestamps ≠ [] →
  ∃ duration, calculate_drone_flight_duration path drone (Some timestamps) = Ok duration.
Proof.
  intros Hts. unfold calculate_drone_flight_duration.
  cbn [_ensure_drone_arrival_timestamps]. rewrite bind_Ok.
  destruct (getlast_nonempty _ Hts) as [final ->].
  destruct (getitem_lt timestamps 0) as (first & -> & _).
  { destruct timestamps; [done|]. simpl. lia. }
  rewrite !bind_Ok. by eexists.
Qed.

Lemma infeasible_run path drone config timestamps :
  data_ok → drone_config drone = Ok config →
  0 < takeoff_speed config → 0 < landing_speed config → 0 < cruise_speed config →
  Forall (λ c, c ≤ customers_count)%nat path → timestamps ≠ [] →
  ∃ split, infeasible config drone path timestamps = Ok split.
Proof.
  intros Hdata Hconfig Hto Hla Hcr Hpath Hts. unfold infeasible.
  destruct (total_weight_run path Hdata Hpath) as [weight ->]. rewrite bind_Ok.
  case_decide; [by eexists|].
  destruct (flight_duration_run path (Some drone) timestamps Hts) as [duration ->].
  rewrite !bind_Ok. case_decide; [by eexists|].
  destruct (energy_run path drone config timestamps Hdata Hconfig Hto Hla Hcr Hpath)
    as [energy ->].
  rewrite bind_Ok. by eexists.
Qed.

(** *** The second loop: dronable customers *)

(** The routes of one drone while the loop runs: closed routes, then the one
    being built. *)
Definition drone_rows (paths : list (list nat)) : Prop :=
  ∃ init lst, paths = init ++ [lst] ∧ Forall closed_route init ∧ open_route lst.

(** Every customer on the route is marked dronable. *)
Definition route_dronable (route : list nat) : Prop :=
  Forall (λ c, c = 0%nat ∨ dronable !! c = Some true) route.

Record fleet_state (dp : list (list (list nat))) (tp : list (list nat)) : Prop := {
  fs_drones : length dp = drones_count;
  fs_rows : Forall drone_rows dp;
  fs_dronable : Forall (Forall route_dronable) dp;
  fs_trucks : tp ≠ [];
  fs_closed : Forall closed_route tp;
}.

Lemma serve_dronable_eq fuel dp tp k pending :
  pending ≠ [] →
  serve_dronable (S fuel) dp tp k pending =
  (nx ← cycle_next (seq 0 drones_count) k;
   paths ← getitem dp nx.1;
   config ← drone_config nx.1;
   path ← getlast paths;
   tail_ ← getlast path;
   index ← min_by (distance tail_) pending;
   hypothetical_arrival_timestamps ←
     calculate_drone_arrival_timestamps (path ++ [index; 0%nat]) nx.1 0;
   split ← infeasible config nx.1 (path ++ [index; 0%nat]) hypothetical_arrival_timestamps;
   if (split : bool) then
     closed ← append_to_last paths 0%nat;
     position ← nearest_technician tp index;
     technician_path ← getitem tp position;
     serve_dronable fuel (<[nx.1 := closed ++ [[0%nat]]]> dp)
       (<[position := insert_before_last technician_path index]> tp)
       nx.2 (discard index pending)
   else
     extended ← append_to_last paths index;
     serve_dronable fuel (<[nx.1 := extended]> dp) tp nx.2 (discard index pending)).
Proof. by destruct pending. Qed.

Lemma closed_route_stop route :
  closed_route route →
  ∃ init stop, route = init ++ [stop; 0%nat] ∧ (stop ≤ customers_count)%nat.
Proof.
  intros (mid & -> & Hmid). destruct (decide (mid = [])) as [->|Hne].
  - exists [], 0%nat. split; [done|lia].
  - destruct (exists_last Hne) as (mid' & c & ->).
    exists (0%nat :: mid'), c. split; [by rewrite <- app_assoc|].
    apply Forall_app in Hmid as [_ Hc]. rewrite Forall_singleton in Hc.
    unfold customer in Hc. lia.
Qed.

Lemma nearest_technician_run tp index :
  data_ok → tp ≠ [] → Forall closed_route tp → customer index →
  ∃ position, nearest_technician tp index = Ok position ∧ (position < length tp)%nat.
Proof.
  intros Hdata Hne Hclosed Hindex. unfold nearest_technician.
  destruct (min_by_in (λ position, path ← getitem tp position; stop ← getlast2 path;
                         distance index stop) (seq 0 (length tp))) as (position & Hmin & Hin).
  - destruct tp; [done|]. done.
  - apply Forall_forall. intros position Hin. apply elem_of_seq in Hin.
    destruct (getitem_lt tp position) as (route & Hroute & Hroute'); [lia|].
    destruct (closed_route_stop route (Forall_lookup_1 _ _ _ _ Hclosed Hroute'))
      as (init & stop & -> & Hstop).
    rewrite Hroute, bind_Ok, getlast2_snoc2, bind_Ok.
    apply distance_Ok; apply customer_located; try done. unfold customer in Hindex. lia.
  - exists position. split; [done|]. apply elem_of_seq in Hin. lia.
Qed.

Lemma closed_route_insert route index :
  closed_route route → customer index →
  closed_route (insert_before_last route index) ∧
  filter (λ c, c ≠ 0%nat) (insert_before_last route index)
  ≡ₚ [index] ++ filter (λ c, c ≠ 0%nat) route.
Proof.
  intros (mid & -> & Hmid) Hindex.
  change (0%nat :: mid ++ [0%nat]) with ((0%nat :: mid) ++ [0%nat]).
  rewrite insert_before_last_snoc. split.
  - exists (mid ++ [index]). split; [by rewrite <- app_assoc|].
    apply Forall_app. split; [done|]. by apply Forall_singleton.
  - rewrite !filter_app. rewrite (filter_cons_True _ index) by (unfold customer in Hindex; lia).
    rewrite !(filter_cons_False _ 0%nat), !filter_nil by lia.
    rewrite app_nil_r. cbn [app]. by rewrite <- Permutation_cons_append.
Qed.

Lemma drone_rows_routes paths :
  drone_rows paths → Forall (λ route, Forall (λ c, c ≤ customers_count)%nat route) paths.
Proof.
  intros (init & lst & -> & Hinit & Hlst). apply Forall_app. split.
  - eapply Forall_impl; [done|]. apply closed_route_le.
  - apply Forall_singleton. by apply open_route_le.
Qed.

Lemma serve_dronable_spec (n : nat) : ∀ dp tp k pending,
  data_ok → fleet_ok drones_count → (1 ≤ drones_count)%nat →
  fleet_state dp tp →
  NoDup pending → Forall customer pending →
  Forall (λ c, dronable !! c = Some true) pending →
  length pending = n →
  ∃ dp' tp',
    (∀ fuel, (n ≤ fuel)%nat → serve_dronable fuel dp tp k pending = Ok (dp', tp')) ∧
    fleet_state dp' tp' ∧ length tp' = length tp ∧
    (dp' ≫= customers) ++ customers tp' ≡ₚ pending ++ (dp ≫= customers) ++ customers tp.
Proof.
  induction n as [|n IH]; intros dp tp k pending Hdata Hfleet Hdrones Hstate Hnd Hcust Hdron Hlen.
  - destruct pending; [|done]. exists dp, tp. split; [by intros [|fuel] _|].
    do 2 (split; [done|]). done.
  - assert (pending ≠ []) as Hne by (by destruct pending).
    destruct Hstate as [Hdplen Hrows Hdronable Htpne Hclosed].
    destruct (cycle_next_Ok (seq 0 drones_count) k) as (drone & Hnext & Hdrone).
    { destruct drones_count; [lia|done]. }
    apply lookup_seq in Hdrone as [_ Hdrone]. rewrite length_seq in Hdrone.
    assert (drone < drones_count)%nat as Hdronelt.
    { pose proof (cycle_next_Ok (seq 0 drones_count) k) as Hx.
      destruct Hx as (drone' & Hnext' & Hdrone'); [destruct drones_count; [lia|done]|].
      rewrite Hnext in Hnext'. injection Hnext' as <-.
      apply lookup_seq in Hdrone' as [-> ?]. rewrite length_seq. simpl.
      apply Nat.mod_upper_bound. lia. }
    destruct (getitem_lt dp drone) as (paths & Hgpaths & Hpaths); [lia|].
    destruct (Hfleet drone Hdronelt) as (config & Hconfig & Hto & Hla & Hcr).
    pose proof (Forall_lookup_1 _ _ _ _ Hrows Hpaths) as (init & lst & -> & Hinit & Hlst).
    pose proof (Forall_lookup_1 _ _ _ _ Hdronable Hpaths) as Hpd.
    apply Forall_app in Hpd as [Hpdinit Hpdlst]. rewrite Forall_singleton in Hpdlst.
    destruct (open_route_last _ Hlst) as (tail_ & Htail & Htaille).
    destruct (nearest_pending tail_ pending Hdata Htaille Hne Hcust) as (index & Hmin & Hin).
    pose proof (discard_perm index pending Hnd Hin) as Hperm.
    assert (customer index) as Hindex by (rewrite Forall_forall in Hcust; by apply Hcust).
    assert (dronable !! index = Some true) as Hidron
      by (rewrite Forall_forall in Hdron; by apply Hdron).
    assert (Forall (λ c, c ≤ customers_count)%nat (lst ++ [index; 0%nat])) as Hhyp.
    { apply Forall_app. split; [by apply open_route_le|].
      repeat constructor; unfold customer in Hindex; lia. }
    destruct (drone_arrival_run (lst ++ [index; 0%nat]) drone 0 config)
      as (hts & Hhts & Hhtslen & _); try done.
    { by destruct lst. }
    { eapply Forall_impl; [exact Hhyp|]. intros c Hc.
      destruct (data_known c Hdata Hc) as (? & ? & ?). by split. }
    destruct (infeasible_run (lst ++ [index; 0%nat]) drone config hts Hdata Hconfig Hto Hla Hcr Hhyp)
      as [split Hsplit].
    { destruct hts; [|done]. rewrite length_app in Hhtslen. simpl in Hhtslen. lia. }
    assert (NoDup (discard index pending)) as Hnd' by by apply discard_NoDup.
    assert (Forall customer (discard index pending)) as Hcust'.
    { apply Forall_forall. intros c Hc. rewrite Forall_forall in Hcust.
      by apply Hcust, (discard_subseteq index). }
    assert (Forall (λ c, dronable !! c = Some true) (discard index pending)) as Hdron'.
    { apply Forall_forall. intros c Hc. rewrite Forall_forall in Hdron.
      by apply Hdron, (discard_subseteq index). }
    assert (length (discard index pending) = n) as Hlen'.
    { apply Permutation_length in Hperm. simpl in Hperm. lia. }
    destruct split.
    + (* the customer goes to the nearest truck, the drone opens a new route *)
      destruct (nearest_technician_run tp index Hdata Htpne Hclosed Hindex)
        as (position & Hposition & Hposlt).
      destruct (getitem_lt tp position Hposlt) as (troute & Hgtroute & Htroute).
      destruct (closed_route_insert troute index
                  (Forall_lookup_1 _ _ _ _ Hclosed Htroute) Hindex) as [Hclosed' Hfilter'].
      destruct (IH (<[drone := (init ++ [lst ++ [0%nat]]) ++ [[0%nat]]]> dp)
                  (<[position := insert_before_last troute index]> tp) (S k)
                  (discard index pending)) as (dp' & tp' & Hrun & Hstate' & Htplen' & Hall');
        try done.
      { constructor.
        - by rewrite length_insert.
        - apply Forall_insert; [done|]. exists (init ++ [lst ++ [0%nat]]), [0%nat].
          split; [done|]. split.
          + apply Forall_app. split; [done|]. apply Forall_singleton. by apply open_route_close.
          + by exists [].
        - apply Forall_insert; [done|]. apply Forall_app. split.
          + apply Forall_app. split; [done|]. apply Forall_singleton.
            apply Forall_app. split; [done|]. apply Forall_singleton. by left.
          + apply Forall_singleton, Forall_singleton. by left.
        - intros Heq. apply (f_equal length) in Heq. rewrite length_insert in Heq.
          destruct tp; done.
        - by apply Forall_insert. }
      exists dp', tp'. split; [|split; [done|split; [by rewrite Htplen', length_insert|]]].
      * intros [|fuel] Hfuel; [lia|]. rewrite serve_dronable_eq by done.
        rewrite Hnext, bind_Ok. cbn [fst snd].
        rewrite Hgpaths, bind_Ok, Hconfig, bind_Ok, getlast_snoc, bind_Ok, Htail, bind_Ok.
        rewrite Hmin, bind_Ok, Hhts, bind_Ok, Hsplit, bind_Ok.
        rewrite append_to_last_snoc, bind_Ok, Hposition, bind_Ok, Hgtroute, bind_Ok.
        apply Hrun. lia.
      * rewrite Hall'.
        rewrite (bind_insert_perm customers dp drone (init ++ [lst]) _ [] Hpaths).
        2:{ unfold customers. rewrite !bind_app, !bind_singleton, customers_snoc_depot.
            rewrite filter_cons_False, filter_nil by lia. by rewrite app_nil_r. }
        unfold customers at 2.
        rewrite (bind_insert_perm _ tp position troute _ [index] Htroute Hfilter').
        fold (customers tp). rewrite Hperm at 2. cbn [app]. solve_Permutation.
    + (* the customer joins the open route *)
      destruct (IH (<[drone := init ++ [lst ++ [index]]]> dp) tp (S k)
                  (discard index pending)) as (dp' & tp' & Hrun & Hstate' & Htplen' & Hall');
        try done.
      { constructor; try done.
        - by rewrite length_insert.
        - apply Forall_insert; [done|]. exists init, (lst ++ [index]).
          split; [done|]. split; [done|]. by apply open_route_snoc.
        - apply Forall_insert; [done|]. apply Forall_app. split; [done|].
          apply Forall_singleton. apply Forall_app. split; [done|].
          apply Forall_singleton. by right. }
      exists dp', tp'. split; [|split; [done|split; [done|]]].
      * intros [|fuel] Hfuel; [lia|]. rewrite serve_dronable_eq by done.
        rewrite Hnext, bind_Ok. cbn [fst snd].
        rewrite Hgpaths, bind_Ok, Hconfig, bind_Ok, getlast_snoc, bind_Ok, Htail, bind_Ok.
        rewrite Hmin, bind_Ok, Hhts, bind_Ok, Hsplit, bind_Ok.
        rewrite append_to_last_snoc, bind_Ok. apply Hrun. lia.
      * rewrite Hall'.
        rewrite (bind_insert_perm customers dp drone (init ++ [lst]) _ [index] Hpaths).
        2:{ unfold customers. rewrite !bind_app, !bind_singleton.
            rewrite customers_snoc_customer by (unfold customer in Hindex; lia).
            solve_Permutation. }
        rewrite Hperm at 2. cbn [app]. solve_Permutation.
Qed.

(** *** Putting [initial] together *)

Lemma customers_where_fold want (l : list nat) : ∀ acc,
  Forall (λ e, e < length dronable)%nat l →
  foldlM (λ acc e, d ← getitem dronable e;
                   Ok (if decide (d = want) then acc ++ [e] else acc)) acc l
  = Ok (acc ++ filter (λ e, dronable !! e = Some want) l).
Proof.
  induction l as [|e l IH]; intros acc Hall; [by rewrite app_nil_r|].
  apply Forall_cons in Hall as [He Hall].
  destruct (getitem_lt dronable e He) as (d & Hd & Hd').
  rewrite foldlM_cons, Hd, !bind_Ok, IH by done. f_equal.
  case_decide as Hdw.
  - rewrite filter_cons_True by congruence. by rewrite <- app_assoc.
  - rewrite filter_cons_False by congruence. done.
Qed.

Lemma customers_where_run want :
  data_ok →
  customers_where want = Ok (filter (λ e, dronable !! e = Some want) (seq 1 customers_count)).
Proof.
  intros (_ & _ & _ & Hdron & _). unfold customers_where.
  rewrite customers_where_fold; [done|].
  apply Forall_forall. intros e He. apply elem_of_seq in He. lia.
Qed.

Lemma customers_split :
  data_ok →
  filter (λ e, dronable !! e = Some false) (seq 1 customers_count)
  ++ filter (λ e, dronable !! e = Some true) (seq 1 customers_count)
  ≡ₚ seq 1 customers_count.
Proof.
  intros (_ & _ & _ & Hdron & _).
  assert (Forall (λ e, e < length dronable)%nat (seq 1 customers_count)) as Hall.
  { apply Forall_forall. intros e He. apply elem_of_seq in He. lia. }
  rewrite <- (filter_app_complement (λ e, dronable !! e = Some false) (seq 1 customers_count)) at 3.
  f_equiv. induction Hall as [|e l He _ IH]; [done|].
  destruct (lookup_lt_is_Some_2 dronable e He) as [[|] Hd].
  - rewrite !filter_cons_True by congruence. by rewrite IH.
  - rewrite !filter_cons_False by (rewrite Hd; naive_solver). done.
Qed.

Lemma customers_replicate_depot n : customers (replicate n [0%nat]) = [].
Proof.
  induction n as [|n IH]; [done|]. unfold customers in *. cbn [replicate].
  rewrite bind_cons, IH. by rewrite filter_cons_False, filter_nil by lia.
Qed.

Lemma customers_close routes :
  customers ((λ path, path ++ [0%nat]) <$> routes) = customers routes.
Proof.
  unfold customers. induction routes as [|route routes IH]; [done|].
  rewrite fmap_cons, !bind_cons, IH. by rewrite customers_snoc_depot.
Qed.

Lemma customers_concat (dp : list (list (list nat))) :
  customers (concat dp) = dp ≫= customers.
Proof.
  unfold customers. induction dp as [|paths dp IH]; [done|].
  cbn [concat]. by rewrite bind_app, bind_cons, IH.
Qed.

(** Closing the last route of a drone and dropping its empty routes. *)
Lemma close_and_filter paths :
  drone_rows paths → Forall route_dronable paths →
  ∃ closed, append_to_last paths 0%nat = Ok closed ∧
    Forall closed_route (filter (λ path : list nat, (2 < length path)%nat) closed) ∧
    Forall route_dronable (filter (λ path : list nat, (2 < length path)%nat) closed) ∧
    customers (filter (λ path : list nat, (2 < length path)%nat) closed) = customers paths.
Proof.
  intros (init & lst & -> & Hinit & Hlst) Hdron.
  exists (init ++ [lst ++ [0%nat]]). split; [apply append_to_last_snoc|].
  assert (Forall closed_route (init ++ [lst ++ [0%nat]])) as Hclosed.
  { apply Forall_app. split; [done|]. apply Forall_singleton. by apply open_route_close. }
  assert (Forall route_dronable (init ++ [lst ++ [0%nat]])) as Hdron'.
  { apply Forall_app in Hdron as [Hd1 Hd2]. rewrite Forall_singleton in Hd2.
    apply Forall_app. split; [done|]. apply Forall_singleton.
    apply Forall_app. split; [done|]. apply Forall_singleton. by left. }
  assert (customers (init ++ [lst ++ [0%nat]]) = customers (init ++ [lst])) as <-.
  { unfold customers. by rewrite !bind_app, !bind_singleton, customers_snoc_depot. }
  split; [|split].
  - apply Forall_forall. intros route Hroute. apply list_elem_of_filter in Hroute as [_ Hroute].
    rewrite Forall_forall in Hclosed. by apply Hclosed.
  - apply Forall_forall. intros route Hroute. apply list_elem_of_filter in Hroute as [_ Hroute].
    rewrite Forall_forall in Hdron'. by apply Hdron'.
  - clear Hdron'. unfold customers.
    induction Hclosed as [|route routes Hroute _ IH]; [done|].
    rewrite bind_cons. destruct (decide (2 < length route)%nat) as [Hlong|Hshort].
    + rewrite filter_cons_True by done. by rewrite bind_cons, IH.
    + rewrite filter_cons_False by done. rewrite IH.
      destruct Hroute as (mid & -> & _). destruct mid as [|c mid].
      * done.
      * exfalso. apply Hshort. cbn [length]. rewrite length_app. simpl. lia.
Qed.

Lemma closed_route_known route : data_ok → closed_route route → route_known route.
Proof.
  intros Hdata Hclosed. pose proof (closed_route_le _ Hclosed) as Hle.
  destruct Hclosed as (mid & -> & _). split; [done|].
  eapply Forall_impl; [exact Hle|]. intros c Hc. by apply data_known.
Qed.

Lemma closed_route_long route :
  closed_route route → (2 < length route)%nat → ∃ c, c ∈ route ∧ c ≠ 0%nat.
Proof.
  intros (mid & -> & Hmid) Hlong. destruct mid as [|c mid]; [simpl in Hlong; lia|].
  exists c. split; [set_solver|]. apply Forall_cons in Hmid as [[? ?] _]. lia.
Qed.

(** C7.  With tables that cover the depot and the customers, at least one
    truck that can move and at least one drone, all drones configured with
    positive speeds, [initial] ends and returns a solution in which
    - the customers met on all drone and truck routes together are the
      customers [1 .. customers_count], each once;
    - every route is the depot, then customers, then the depot;
    - every customer on a drone route is marked dronable;
    - every drone route is longer than 2 and so serves a customer. *)
Theorem initial_covers_customers :
  data_ok → fleet_ok drones_count → truck_ok →
  (1 ≤ drones_count)%nat → (1 ≤ technicians_count)%nat →
  ∃ fuel0 s,
    (∀ fuel, (fuel0 ≤ fuel)%nat → initial fuel = Ok s) ∧
    customers (concat (drone_paths s) ++ technician_paths s) ≡ₚ seq 1 customers_count ∧
    Forall closed_route (concat (drone_paths s) ++ technician_paths s) ∧
    Forall (Forall route_dronable) (drone_paths s) ∧
    Forall (Forall (λ route, (2 < length route)%nat ∧ ∃ c, c ∈ route ∧ c ≠ 0%nat))
      (drone_paths s).
Proof.
  intros Hdata Hfleet Htruck Hdrones Htechs.
  set (T := filter (λ e, dronable !! e = Some false) (seq 1 customers_count)).
  set (D := filter (λ e, dronable !! e = Some true) (seq 1 customers_count)).
  assert (∀ want, Forall customer (filter (λ e, dronable !! e = Some want)
                                     (seq 1 customers_count))) as Hcustomers.
  { intros want. apply Forall_forall. intros c Hc. apply list_elem_of_filter in Hc as [_ Hc].
    apply elem_of_seq in Hc. unfold customer. lia. }
  (* the trucks *)
  destruct (serve_technician_only_spec (length T) (replicate technicians_count [0%nat]) 0 T)
    as (tp1 & Hrun1 & Hlen1 & Hopen1 & Hcust1); try done.
  { destruct technicians_count; [lia|done]. }
  { apply Forall_replicate. by exists []. }
  { apply NoDup_filter, NoDup_seq. }
  { apply Hcustomers. }
  rewrite customers_replicate_depot, app_nil_r in Hcust1.
  rewrite length_replicate in Hlen1.
  (* the drones *)
  destruct (serve_dronable_spec (length D) (replicate drones_count [[0%nat]])
              ((λ path, path ++ [0%nat]) <$> tp1) 0 D)
    as (dp2 & tp2 & Hrun2 & [Hdplen Hrows Hdronable Htpne Hclosed] & Hlen2 & Hcust2); try done.
  { constructor.
    - by rewrite length_replicate.
    - apply Forall_replicate. exists [], [0%nat]. split; [done|]. split; [done|by exists []].
    - apply Forall_replicate, Forall_singleton, Forall_singleton. by left.
    - intros Heq. apply (f_equal length) in Heq. rewrite length_fmap in Heq.
      simpl in Heq. lia.
    - apply Forall_fmap. eapply Forall_impl; [exact Hopen1|]. apply open_route_close. }
  { apply NoDup_filter, NoDup_seq. }
  { apply Hcustomers. }
  { apply Forall_forall. intros c Hc. by apply list_elem_of_filter in Hc as [? _]. }
  (* the last routes are closed, the empty ones dropped *)
  destruct (mapR_Ok (λ paths, append_to_last paths 0%nat)
              (λ paths closed,
                 Forall closed_route (filter (λ path : list nat, (2 < length path)%nat) closed) ∧
                 Forall route_dronable (filter (λ path : list nat, (2 < length path)%nat) closed) ∧
                 customers (filter (λ path : list nat, (2 < length path)%nat) closed)
                 = customers paths) dp2) as (dp3 & Hrun3 & Hrel3).
  { apply Forall_forall. intros paths Hpaths. rewrite Forall_forall in Hrows, Hdronable.
    destruct (close_and_filter paths (Hrows _ Hpaths) (Hdronable _ Hpaths))
      as (closed & ? & ? & ? & ?).
    by exists closed. }
  set (dpF := (λ paths, filter (λ path : list nat, (2 < length path)%nat) paths) <$> dp3).
  assert (Forall (Forall closed_route) dpF) as HclosedF.
  { apply Forall_fmap, Forall_forall. intros closed Hin.
    apply list_elem_of_lookup in Hin as [i Hi].
    by destruct (Forall2_lookup_r _ _ _ _ _ Hrel3 Hi) as (paths & _ & ? & _). }
  assert (Forall (Forall route_dronable) dpF) as HdronF.
  { apply Forall_fmap, Forall_forall. intros closed Hin.
    apply list_elem_of_lookup in Hin as [i Hi].
    by destruct (Forall2_lookup_r _ _ _ _ _ Hrel3 Hi) as (paths & _ & _ & ? & _). }
  assert (dpF ≫= customers = dp2 ≫= customers) as HcustF.
  { unfold dpF. clear -Hrel3. induction Hrel3 as [|paths closed dp2 dp3 (_ & _ & Heq) _ IH];
      [done|].
    by rewrite fmap_cons, !bind_cons, IH, Heq. }
  (* the constructor *)
  destruct (init_run dpF tp2) as (fuel0 & s & Hinit & Hdp & Htp & _); try done.
  { apply fleet_ok_for. unfold dpF. rewrite length_fmap.
    apply Forall2_length in Hrel3. rewrite <- Hrel3, Hdplen. done. }
  { eapply Forall_impl; [exact HclosedF|]. intros paths Hpaths.
    eapply Forall_impl; [exact Hpaths|]. intros route. by apply closed_route_known. }
  { eapply Forall_impl; [exact Hclosed|]. intros route. by apply closed_route_known. }
  exists (Nat.max (Nat.max (length T) (length D)) fuel0), s.
  split; [|split; [|split; [|split]]].
  - intros fuel Hfuel. unfold initial.
    rewrite (customers_where_run false Hdata), bind_Ok. fold T.
    rewrite Hrun1, bind_Ok by lia.
    rewrite (customers_where_run true Hdata), bind_Ok. fold D.
    rewrite Hrun2, bind_Ok by lia. cbn [fst snd].
    rewrite Hrun3, bind_Ok. fold dpF. apply Hinit. lia.
  - rewrite Hdp, Htp. unfold customers at 1. rewrite bind_app.
    fold (customers (concat dpF)). fold (customers tp2).
    rewrite customers_concat, HcustF, Hcust2.
    rewrite customers_close, Hcust1.
    assert (replicate drones_count [[0%nat]] ≫= customers = []) as ->.
    { clear. induction drones_count as [|n IH]; [done|]. cbn [replicate].
      by rewrite bind_cons, IH. }
    cbn [app]. rewrite (Permutation_app_comm D T). by apply customers_split.
  - rewrite Hdp, Htp. apply Forall_app. split; [|done].
    apply Forall_concat. done.
  - by rewrite Hdp.
  - rewrite Hdp. apply Forall_fmap, Forall_forall. intros closed Hin.
    apply Forall_forall. intros route Hroute.
    pose proof Hroute as [Hlong _]%list_elem_of_filter. split; [done|].
    apply closed_route_long; [|done].
    rewrite Forall_forall in HclosedF.
    assert (filter (λ path : list nat, (2 < length path)%nat) closed ∈ dpF) as HinF
      by (by apply list_elem_of_fmap_2).
    pose proof (HclosedF _ HinF) as Hall. rewrite Forall_forall in Hall. by apply Hall.
Qed.

(** *** Which exceptions the drone metrics raise *)

Lemma bind_never {A B} (e : exn) (m : result A) (f : A → result B) :
  m ≠ Raise e → (∀ a, m = Ok a → f a ≠ Raise e) → (m ≫= f) ≠ Raise e.
Proof.
  destruct m as [a|e']; [intros _ Hf; by apply Hf|].
  intros Hm _ Heq. apply Hm. by injection Heq as ->.
Qed.

Lemma foldlM_never {A B} (e : exn) (f : B → A → result B) (l : list A) : ∀ b,
  (∀ b a, f b a ≠ Raise e) → foldlM f b l ≠ Raise e.
Proof.
  induction l as [|a l IH]; intros b Hf; [done|]. rewrite foldlM_cons.
  apply bind_never; [apply Hf|]. intros b' _. by apply IH.
Qed.

Lemma getitem_never {A} (l : list A) i : getitem l i ≠ Raise ValueError.
Proof. unfold getitem. by destruct (l !! i). Qed.

Lemma getlast_never {A} (l : list A) : getlast l ≠ Raise ValueError.
Proof. unfold getlast. by destruct (last l). Qed.

Lemma fdiv_never a b : fdiv a b ≠ Raise ValueError.
Proof. unfold fdiv. by case_decide. Qed.

Lemma distance_never a b : distance a b ≠ Raise ValueError.
Proof.
  unfold distance. repeat (apply bind_never; [apply getitem_never|intros ? _]). done.
Qed.

Lemma drone_config_never drone : drone_config drone ≠ Raise ValueError.
Proof. unfold drone_config. destruct energy_mode; apply getitem_never. Qed.

Lemma drone_arrival_never path drone offset :
  calculate_drone_arrival_timestamps path drone offset ≠ Raise ValueError.
Proof.
  unfold calculate_drone_arrival_timestamps.
  apply bind_never; [apply getitem_never|intros last _].
  apply bind_never; [apply drone_config_never|intros config _].
  apply bind_never.
  { unfold vertical_time. repeat (apply bind_never; [apply fdiv_never|intros ? _]). done. }
  intros vertical _. apply bind_never; [|done]. apply foldlM_never.
  intros st index. unfold drone_arrival_step.
  apply bind_never; [apply getlast_never|intros ? _].
  apply bind_never; [apply getitem_never|intros ? _].
  apply bind_never; [apply distance_never|intros ? _].
  apply bind_never; [apply fdiv_never|done].
Qed.

Lemma waiting_never service_time timestamps entries acc :
  foldlM (waiting_step service_time timestamps) acc entries ≠ Raise ValueError.
Proof.
  apply foldlM_never. intros b entry. unfold waiting_step.
  apply bind_never; [apply getlast_never|intros ? _].
  apply bind_never; [apply getitem_never|intros ? _].
  apply bind_never; [apply getitem_never|done].
Qed.

(** X10.  [ValueError] in the three drone metrics.
    [calculate_drone_flight_duration] raises it exactly when neither a drone
    nor arrival timestamps are given; [calculate_drone_total_waiting_time]
    exactly when no drone is given, with or without timestamps;
    [calculate_drone_energy_consumption], whose drone is not optional,
    never. *)
Theorem drone_metrics_value_error (path : list nat) (drone : option nat)
    (arrival_timestamps : option (list R)) :
  (calculate_drone_flight_duration path drone arrival_timestamps = Raise ValueError
   ↔ drone = None ∧ arrival_timestamps = None) ∧
  (calculate_drone_total_waiting_time path drone arrival_timestamps = Raise ValueError
   ↔ drone = None) ∧
  (∀ d, calculate_drone_energy_consumption path d arrival_timestamps ≠ Raise ValueError).
Proof.
  split; [|split].
  - split; [|by intros [-> ->]]. intros Hraise.
    destruct arrival_timestamps as [ts|], drone as [d|]; [exfalso..|done]; revert Hraise;
      unfold calculate_drone_flight_duration, _ensure_drone_arrival_timestamps.
    + rewrite bind_Ok. apply bind_never; [apply getlast_never|intros ? _].
      apply bind_never; [apply getitem_never|done].
    + rewrite bind_Ok. apply bind_never; [apply getlast_never|intros ? _].
      apply bind_never; [apply getitem_never|done].
    + apply bind_never; [apply drone_arrival_never|intros ts _].
      apply bind_never; [apply getlast_never|intros ? _].
      apply bind_never; [apply getitem_never|done].
  - split; [|by intros ->]. intros Hraise. destruct drone as [d|]; [exfalso|done].
    revert Hraise. unfold calculate_drone_total_waiting_time, _ensure_drone_arrival_timestamps.
    apply bind_never; [apply drone_arrival_never|intros ts _]. apply waiting_never.
  - intros d. unfold calculate_drone_energy_consumption.
    apply bind_never.
    { unfold _ensure_drone_arrival_timestamps. destruct arrival_timestamps; [done|].
      apply drone_arrival_never. }
    intros ts _. apply bind_never; [apply drone_config_never|intros config _].
    apply bind_never; [apply fdiv_never|intros ? _].
    apply bind_never; [apply fdiv_never|intros ? _].
    apply bind_never; [|done]. apply foldlM_never. intros st entry. unfold energy_step.
    apply bind_never; [apply getitem_never|intros ? _].
    apply bind_never; [apply distance_never|intros ? _].
    apply bind_never; [apply fdiv_never|intros ? _].
    apply bind_never; [apply getitem_never|done].
Qed.

(** *** Shifting the departure of a drone *)

(** The timestamps [ts], each moved by [delta]. *)
Definition shift (delta : R) (ts : list R) : list R := (λ t, t + delta) <$> ts.

Lemma getlast_shift delta (l : list R) :
  getlast (shift delta l) = a ← getlast l; Ok (a + delta).
Proof. unfold getlast, shift. rewrite fmap_last. by destruct (last l). Qed.

Lemma drone_arrival_shift config vertical (delta : R) rest : ∀ (res : list R) (last : nat),
  foldlM (drone_arrival_step config vertical) (shift delta res, last) rest
  = st ← foldlM (drone_arrival_step config vertical) (res, last) rest;
    Ok (shift delta st.1, st.2).
Proof.
  induction rest as [|index rest IH]; intros res last; [done|]. rewrite !foldlM_cons.
  assert (drone_arrival_step config vertical (shift delta res, last) index
          = st ← drone_arrival_step config vertical (res, last) index;
            Ok (shift delta st.1, st.2)) as ->.
  { unfold drone_arrival_step. cbn [fst snd]. rewrite getlast_shift.
    destruct (getlast res) as [previous|]; [|done]. rewrite !bind_Ok.
    destruct (getitem drone_service_time last) as [service|]; [|done]. rewrite !bind_Ok.
    destruct (distance last index) as [d|]; [|done]. rewrite !bind_Ok.
    destruct (fdiv d (cruise_speed config)) as [cruise|]; [|done]. rewrite !bind_Ok.
    cbn [fst snd]. unfold shift. rewrite fmap_app. cbn [fmap list_fmap]. do 4 f_equal. lra. }
  destruct (drone_arrival_step config vertical (res, last) index) as [[res' last']|]; [|done].
  rewrite !bind_Ok. cbn [fst snd]. apply IH.
Qed.

Lemma arrival_timestamps_shift (path : list nat) (drone : nat) (offset : R) :
  calculate_drone_arrival_timestamps path drone offset
  = ts ← calculate_drone_arrival_timestamps path drone 0; Ok (shift offset ts).
Proof.
  unfold calculate_drone_arrival_timestamps.
  destruct (getitem path 0) as [last|]; [|done]. rewrite !bind_Ok.
  destruct (drone_config drone) as [config|]; [|done]. rewrite !bind_Ok.
  destruct (vertical_time config) as [vertical|]; [|done]. rewrite !bind_Ok.
  replace [offset] with (shift offset [0]).
  - rewrite drone_arrival_shift.
    by destruct (foldlM (drone_arrival_step config vertical) ([0], last) (tail path)).
  - unfold shift. cbn [fmap list_fmap]. f_equal. lra.
Qed.

(** X11.  The arrival timestamps of a route flown from [offset] are those
    of the same route flown from 0, each moved by [offset]; when the one
    computation raises, the other raises the same exception. *)
Theorem drone_arrival_offset (path : list nat) (drone : nat) (offset : R) :
  calculate_drone_arrival_timestamps path drone offset
  = ts ← calculate_drone_arrival_timestamps path drone 0; Ok (shift offset ts).
Proof. apply arrival_timestamps_shift. Qed.

(** *** The distance is a metric *)

Lemma distance_Ok_inv a b d :
  distance a b = Ok d →
  ∃ xa ya xb yb, x !! a = Some xa ∧ y !! a = Some ya ∧ x !! b = Some xb ∧
    y !! b = Some yb ∧ d = sqrt ((xa - xb) ^ 2 + (ya - yb) ^ 2).
Proof.
  unfold distance, getitem.
  destruct (x !! a) as [xa|]; [|done]. destruct (x !! b) as [xb|]; [|done].
  destruct (y !! a) as [ya|]; [|done]. destruct (y !! b) as [yb|]; [|done].
  rewrite !bind_Ok. intros Heq. exists xa, ya, xb, yb. do 4 (split; [done|]).
  injection Heq as <-. reflexivity.
Qed.

(** X12.  [distance] is symmetric (as a result: it raises for the one order
    of its arguments when it raises for the other), not negative, 0 from a
    location to itself, and obeys the triangle inequality. *)
Theorem distance_metric :
  (∀ a b, distance a b = distance b a) ∧
  (∀ a b d, distance a b = Ok d → 0 <= d) ∧
  (∀ a d, distance a a = Ok d → d = 0) ∧
  (∀ a b c dab dbc dac,
     distance a b = Ok dab → distance b c = Ok dbc → distance a c = Ok dac →
     dac <= dab + dbc).
Proof.
  split; [|split; [|split]].
  - intros a b. unfold distance, getitem.
    destruct (x !! a) as [xa|], (x !! b) as [xb|], (y !! a) as [ya|], (y !! b) as [yb|];
      try done.
    rewrite !bind_Ok. do 2 f_equal. ring.
  - apply distance_nonneg.
  - intros a d Hd. apply distance_Ok_inv in Hd as (xa & ya & xa' & ya' & Hxa & Hya & Hxa' & Hya' & ->).
    assert (xa' = xa) as -> by congruence. assert (ya' = ya) as -> by congruence.
    replace ((xa - xa) ^ 2 + (ya - ya) ^ 2) with 0 by ring. apply sqrt_0.
  - intros a b c dab dbc dac Hab Hbc Hac.
    apply distance_Ok_inv in Hab as (xa & ya & xb & yb & Hxa & Hya & Hxb & Hyb & ->).
    apply distance_Ok_inv in Hbc as (xb' & yb' & xc & yc & Hxb' & Hyb' & Hxc & Hyc & ->).
    apply distance_Ok_inv in Hac as (xa' & ya' & xc' & yc' & Hxa' & Hya' & Hxc' & Hyc' & ->).
    assert (xa' = xa) as -> by congruence. assert (ya' = ya) as -> by congruence.
    assert (xb' = xb) as -> by congruence. assert (yb' = yb) as -> by congruence.
    assert (xc' = xc) as -> by congruence. assert (yc' = yc) as -> by congruence.
    pose proof (triangle xa ya xc yc xb yb) as Htri. unfold dist_euc in Htri.
    by rewrite !Rsqr_pow2 in Htri.
Qed.

(** *** The duration of a flight in closed form *)

(** The service times of the locations [l], summed up. *)
Definition service_sum (l : list nat) : R :=
  foldr (λ c total, drone_service_time !!! c + total) 0 l.

Lemma service_sum_snoc l c : service_sum (l ++ [c]) = service_sum l + drone_service_time !!! c.
Proof.
  unfold service_sum. induction l as [|a l IH]; cbn [app foldr]; [lra|].
  rewrite IH. lra.
Qed.

Lemma route_length_snoc l a b :
  last l = Some a → route_length (l ++ [b]) = route_length l + leg a b.
Proof.
  induction l as [|u l IH]; [done|]. destruct l as [|v l].
  - intros [= ->]. cbn [app]. rewrite route_length_cons2. cbn [route_length]. lra.
  - rewrite last_cons_cons. intros Hlast. cbn [app]. rewrite !route_length_cons2.
    cbn [app] in IH. rewrite IH by done. lra.
Qed.

Lemma drone_arrival_closed (path : list nat) (drone : nat) (offset : R)
    (config : DroneConfig) :
  path ≠ [] → drone_config drone = Ok config →
  0 < takeoff_speed config → 0 < landing_speed config → 0 < cruise_speed config →
  Forall drone_known path →
  ∃ ts, calculate_drone_arrival_timestamps path drone offset = Ok ts ∧
    length ts = length path ∧
    ∀ k, (k < length path)%nat →
      ts !! k = Some (offset + service_sum (take k path)
                      + INR k * (altitude config
                                 * (1 / takeoff_speed config + 1 / landing_speed config))
                      + route_length (take (S k) path) / cruise_speed config).
Proof.
  intros Hne Hconfig Hup Hdown Hcruise Hknown.
  destruct (drone_arrival_run path drone offset config)
    as (ts & Hrun & Hlen & Hfirst & Hstep); [done..|].
  exists ts. do 2 (split; [done|]). intros k. induction k as [|k IH]; intros Hk.
  - rewrite Hfirst. destruct path as [|a path]; [done|]. f_equal.
    cbn [take]. rewrite !take_0. cbn [service_sum foldr route_length INR].
    unfold Rdiv. ring.
  - destruct (lookup_lt_is_Some_2 path k) as [a Ha]; [lia|].
    destruct (lookup_lt_is_Some_2 path (S k)) as [b Hb]; [lia|].
    destruct (Hstep k a b _ Ha Hb (IH ltac:(lia)))
      as (service & xa & ya & xb & yb & Hservice & Hxa & Hya & Hxb & Hyb & ->).
    f_equal. rewrite (take_S_r path k a Ha), service_sum_snoc.
    rewrite (list_lookup_total_correct _ _ _ Hservice).
    rewrite (take_S_r path (S k) b Hb).
    rewrite (route_length_snoc _ a b).
    2: { rewrite (take_S_r path k a Ha). apply last_snoc. }
    rewrite (leg_distance a b (sqrt ((xa - xb) ^ 2 + (ya - yb) ^ 2))).
    2: { unfold distance. by rewrite (getitem_Ok _ _ _ Hxa), (getitem_Ok _ _ _ Hxb),
           (getitem_Ok _ _ _ Hya), (getitem_Ok _ _ _ Hyb), !bind_Ok. }
    rewrite ?(take_S_r path k a Ha), S_INR. unfold Rdiv. ring.
Qed.

(** X13.  The flight duration [calculate_drone_flight_duration] computes
    for a route and a drone: the service times of the locations left, one
    vertical time per leg, and the length of the route over the cruise
    speed. *)
Theorem flight_duration_closed (path : list nat) (drone : nat) (config : DroneConfig) :
  path ≠ [] → drone_config drone = Ok config →
  0 < takeoff_speed config → 0 < landing_speed config → 0 < cruise_speed config →
  Forall drone_known path →
  calculate_drone_flight_duration path (Some drone) None
  = Ok (service_sum (take (length path - 1) path)
        + INR (length path - 1)
          * (altitude config * (1 / takeoff_speed config + 1 / landing_speed config))
        + route_length path / cruise_speed config).
Proof.
  intros Hne Hconfig Hup Hdown Hcruise Hknown.
  destruct (drone_arrival_closed path drone 0 config)
    as (ts & Hrun & Hlen & Hclosed); [done..|].
  unfold calculate_drone_flight_duration, _ensure_drone_arrival_timestamps.
  rewrite Hrun, bind_Ok.
  assert (0 < length path)%nat as Hpos by (destruct path; [done|simpl; lia]).
  pose proof (Hclosed 0%nat Hpos) as Hfirst.
  pose proof (Hclosed (length path - 1)%nat ltac:(lia)) as Hlast.
  unfold getlast. rewrite last_lookup, Hlen.
  replace (pred (length path)) with (length path - 1)%nat by lia.
  rewrite Hlast, bind_Ok, (getitem_Ok _ _ _ Hfirst), bind_Ok. f_equal.
  replace (S (length path - 1)) with (length path) by lia. rewrite firstn_all.
  destruct path as [|a path]; [done|].
  cbn [take]. rewrite !take_0. cbn [service_sum foldr route_length INR].
  unfold Rdiv. ring.
Qed.

(** *** A truck without a speed profile *)

(** X14.  When all hourly coefficients are the same [c], the truck drives
    at [maximum_velocity * c] throughout, and the arrival time at each
    location is the length of the path up to it over that velocity. *)
Theorem technician_arrival_constant_speed (path : list nat) (c : R) :
  coefficients truck_config ≠ [] → Forall (λ e, e = c) (coefficients truck_config) →
  0 < c → 0 < maximum_velocity truck_config →
  path ≠ [] → Forall located path →
  ∃ fuel0 ts,
    (∀ fuel, (fuel0 ≤ fuel)%nat →
       calculate_technician_arrival_timestamps fuel path = Ok ts) ∧
    length ts = length path ∧
    ∀ k t, ts !! k = Some t →
      t = route_length (take (S k) path) / (maximum_velocity truck_config * c).
Proof.
  intros Hne Hsame Hc Hmax Hpath Hlocated.
  assert (truck_ok) as Hok.
  { split; [done|]. split; [done|]. eapply Forall_impl; [exact Hsame|].
    intros e ->. done. }
  assert (∀ h, hourly_velocity h = maximum_velocity truck_config * c) as Hv.
  { intros h. unfold hourly_velocity. f_equal.
    assert (h `mod` length (coefficients truck_config)
            < length (coefficients truck_config))%nat as Hlt.
    { apply Nat.mod_upper_bound. by destruct (coefficients truck_config). }
    rewrite Forall_lookup in Hsame.
    apply (Hsame (h `mod` length (coefficients truck_config))%nat).
    by apply list_lookup_lookup_total_lt. }
  assert (∀ h, full_hours h = 3600 * INR h * (maximum_velocity truck_config * c)) as Hfull.
  { induction h as [|h IH].
    - cbn [full_hours INR]. ring.
    - cbn [full_hours]. rewrite IH, Hv, S_INR. ring. }
  destruct (technician_arrival_run path Hpath Hlocated Hok)
    as (fuel0 & ts & Hrun & Hlen & _ & _ & Hclock).
  exists fuel0, ts. do 2 (split; [done|]). intros k t Ht.
  destruct (Hclock k t Ht) as (h & within & -> & _ & Hcovered).
  rewrite <- Hcovered. unfold covered. rewrite Hfull, Hv. field.
  split; by apply Rgt_not_eq.
Qed.

(** *** Waiting times do not depend on the departure *)

Lemma getitem_shift delta (l : list R) i :
  getitem (shift delta l) i = a ← getitem l i; Ok (a + delta).
Proof. unfold getitem, shift. rewrite list_lookup_fmap. by destruct (l !! i). Qed.

Lemma waiting_shift delta service_time (ts : list R) entries : ∀ acc,
  foldlM (waiting_step service_time (shift delta ts)) acc entries
  = foldlM (waiting_step service_time ts) acc entries.
Proof.
  induction entries as [|entry entries IH]; intros acc; [done|]. rewrite !foldlM_cons.
  assert (waiting_step service_time (shift delta ts) acc entry
          = waiting_step service_time ts acc entry) as ->.
  { unfold waiting_step. rewrite getlast_shift, getitem_shift.
    destruct (getlast ts) as [final|]; [|done]. rewrite !bind_Ok.
    destruct (getitem ts entry.1) as [arrival|]; [|done]. rewrite !bind_Ok.
    destruct (getitem service_time entry.2) as [service|]; [|done].
    rewrite !bind_Ok. do 2 f_equal. lra. }
  destruct (waiting_step service_time ts acc entry) as [acc'|]; [|done].
  rewrite !bind_Ok. apply IH.
Qed.

(** X15.  [calculate_drone_total_waiting_time] does not use the arrival
    timestamps it is given, it computes them again from offset 0; when the
    ones given are the arrival timestamps of the same route and drone from
    any offset, as in the constructor, the result is the waiting time
    computed from the given ones all the same. *)
Theorem waiting_time_offset_free (path : list nat) (drone : nat) (offset : R)
    (config : DroneConfig) :
  path ≠ [] → drone_config drone = Ok config →
  0 < takeoff_speed config → 0 < landing_speed config → 0 < cruise_speed config →
  Forall drone_known path →
  ∃ ts, calculate_drone_arrival_timestamps path drone offset = Ok ts ∧
    calculate_drone_total_waiting_time path (Some drone) (Some ts)
    = foldlM (waiting_step drone_service_time ts) 0 (enumerate path).
Proof.
  intros Hne Hconfig Hup Hdown Hcruise Hknown.
  destruct (drone_arrival_run path drone 0 config) as (ts0 & Hrun0 & _); [done..|].
  exists (shift offset ts0). split.
  - by rewrite arrival_timestamps_shift, Hrun0, bind_Ok.
  - unfold calculate_drone_total_waiting_time, _ensure_drone_arrival_timestamps.
    by rewrite Hrun0, bind_Ok, waiting_shift.
Qed.

(** *** The timespan of a drone *)

(** The duration of one flight: the service times of the locations left,
    one vertical time per leg, the length of the route over the cruise
    speed. *)
Definition route_duration (config : DroneConfig) (path : list nat) : R :=
  service_sum (take (length path - 1) path)
  + INR (length path - 1)
    * (altitude config * (1 / takeoff_speed config + 1 / landing_speed config))
  + route_length path / cruise_speed config.

Definition total_duration (config : DroneConfig) (paths : list (list nat)) : R :=
  foldr (λ path total, route_duration config path + total) 0 paths.

Lemma drone_arrivals_total drone config paths : ∀ offset acc,
  drone_config drone = Ok config →
  0 < takeoff_speed config → 0 < landing_speed config → 0 < cruise_speed config →
  Forall route_known paths →
  ∃ final arrs, foldlM (drone_arrivals_step drone) (offset, acc) paths
                = Ok (final, acc ++ arrs) ∧
    final = offset + total_duration config paths ∧
    (paths ≠ [] → __last_element (acc ++ arrs) = final).
Proof.
  induction paths as [|path paths IH]; intros offset acc Hconfig Hto Hla Hcr Hall.
  - exists offset, []. rewrite app_nil_r. split; [done|]. split; [|done].
    cbn [total_duration foldr]. lra.
  - apply Forall_cons in Hall as [Hpath Hall].
    destruct (route_known_drone _ Hpath) as [Hne Hknown].
    destruct (drone_arrival_closed path drone offset config Hne Hconfig Hto Hla Hcr Hknown)
      as (ts & Hrun & Hlen & Hclosed).
    assert (0 < length path)%nat as Hpos by (destruct path; [done|simpl; lia]).
    assert (last ts = Some (offset + route_duration config path)) as Hlast.
    { rewrite last_lookup, Hlen.
      replace (pred (length path)) with (length path - 1)%nat by lia.
      rewrite Hclosed by lia. f_equal. unfold route_duration.
      replace (S (length path - 1)) with (length path) by lia. rewrite firstn_all. lra. }
    destruct (IH (offset + route_duration config path) (acc ++ [ts]) Hconfig Hto Hla Hcr Hall)
      as (final & arrs & Hfold & Hfinal & Hlastel).
    assert (drone_arrivals_step drone (offset, acc) path
            = Ok (offset + route_duration config path, acc ++ [ts])) as Hstep.
    { unfold drone_arrivals_step, getlast. cbn [fst snd].
      by rewrite Hrun, bind_Ok, Hlast, bind_Ok. }
    exists final, (ts :: arrs). rewrite foldlM_cons, Hstep, bind_Ok, Hfold.
    split; [by rewrite <- app_assoc|]. split.
    + rewrite Hfinal. cbn [total_duration foldr]. fold (total_duration config paths). lra.
    + intros _. destruct paths as [|path' paths].
      * cbn [foldlM] in Hfold. injection Hfold as <- Harrs.
        apply (f_equal length) in Harrs. rewrite !length_app in Harrs.
        destruct arrs; [|simpl in Harrs; lia].
        unfold __last_element. by rewrite last_snoc, Hlast.
      * rewrite <- Hlastel by done. by rewrite <- app_assoc.
Qed.

Lemma mapR_lookup {A B} (f : A → result B) (l : list A) : ∀ r i a,
  mapR f l = Ok r → l !! i = Some a → ∃ b, r !! i = Some b ∧ f a = Ok b.
Proof.
  induction l as [|a0 l IH]; intros r i a Hmap Hi; [done|].
  rewrite mapR_cons in Hmap. destruct (f a0) as [b0|] eqn:Hb0; [|done].
  rewrite bind_Ok in Hmap. destruct (mapR f l) as [r'|] eqn:Hr'; [|done].
  rewrite bind_Ok in Hmap. injection Hmap as <-. destruct i as [|i].
  - injection Hi as <-. by exists b0.
  - by apply (IH r' i a).
Qed.

Lemma init_fields fuel dpaths tpaths s :
  __init__ fuel dpaths tpaths None None None None None None = Ok s →
  get_arrival_timestamps dpaths = Ok (drone_arrival_timestamps s) ∧
  drone_timespans s = __last_element <$> drone_arrival_timestamps s.
Proof.
  unfold __init__. destruct (get_arrival_timestamps dpaths) as [da|]; [|done].
  rewrite bind_Ok.
  destruct (mapR (calculate_technician_arrival_timestamps fuel) tpaths) as [ta|]; [|done].
  rewrite bind_Ok. cbn [or_else]. rewrite bind_Ok.
  destruct (mapR (drone_waiting_row da) (enumerate dpaths)) as [dw|]; [|done].
  rewrite bind_Ok. destruct (mapR getlast ta) as [tt|]; [|done]. rewrite bind_Ok.
  destruct (mapR (technician_waiting_entry fuel) (zip tpaths ta)) as [tw|]; [|done].
  rewrite bind_Ok. by intros [= <-].
Qed.

(** X16.  The constructor, called with the paths alone, stores as the
    timespan of each drone the sum of the durations of its flights: the
    routes of a drone are flown one after the other, each from the arrival
    time of the one before. *)
Theorem drone_timespan_total (dpaths : list (list (list nat))) (tpaths : list (list nat)) :
  fleet_for dpaths → Forall (Forall route_known) dpaths →
  Forall route_known tpaths → truck_ok →
  ∃ fuel0 s,
    (∀ fuel, (fuel0 ≤ fuel)%nat →
       __init__ fuel dpaths tpaths None None None None None None = Ok s) ∧
    ∀ drone paths config, dpaths !! drone = Some paths → drone_config drone = Ok config →
      drone_timespans s !! drone = Some (total_duration config paths).
Proof.
  intros Hfleet Hdrones Htechs Htruck.
  destruct (init_run dpaths tpaths Hfleet Hdrones Htechs Htruck) as (fuel0 & s & Hrun & _).
  exists fuel0, s. split; [done|]. intros drone paths config Hpaths Hconfig.
  destruct (init_fields fuel0 dpaths tpaths s (Hrun fuel0 (le_n _))) as [Hda ->].
  unfold get_arrival_timestamps in Hda.
  destruct (mapR_lookup _ _ _ drone (drone, paths) Hda) as (arrs & Harrs & Hrow).
  { unfold enumerate. by rewrite list_lookup_imap, Hpaths. }
  rewrite list_lookup_fmap, Harrs. cbn [fmap option_fmap option_map]. f_equal.
  unfold drone_arrivals in Hrow. cbn [fst snd] in Hrow.
  destruct (decide (paths = [])) as [->|Hne].
  { cbn [foldlM] in Hrow. rewrite bind_Ok in Hrow. by injection Hrow as <-. }
  destruct (Hfleet drone paths Hpaths Hne) as (config' & Hconfig' & Hto & Hla & Hcr).
  assert (config' = config) as -> by congruence.
  destruct (drone_arrivals_total drone config paths 0 []) as (final & arrs' & Hfold & Hfinal & Hlast);
    [done..| |].
  { rewrite Forall_forall in Hdrones. apply Hdrones. by eapply list_elem_of_lookup_2. }
  rewrite Hfold, bind_Ok in Hrow. cbn [snd app] in Hrow. injection Hrow as <-.
  cbn [app] in Hlast. rewrite Hlast by done. rewrite Hfinal. lra.
Qed.

End d2d.

(** *** Concrete instances *)

(** One drone, the depot and one customer at (3,4). *)
Definition drone1 : DroneConfig :=
  mkDrone 10 2 5 5 1 100 (λ w, 1 + w)%R (λ w, 1 + w)%R (λ w, 1 + w)%R.

Lemma drone_arrival_timestamps_spec_witness :
  ∃ ts, calculate_drone_arrival_timestamps [0; 3]%R [0; 4]%R [0; 5]%R LINEAR [drone1] []
          [0; 1; 0] 0 0%R = Ok ts ∧
    length ts = 3 ∧
    ts !! 0 = Some 0%R ∧
    (∀ k a b t, [0; 1; 0] !! k = Some a → [0; 1; 0] !! S k = Some b → ts !! k = Some t →
       ∃ service xa ya xb yb, [0; 5]%R !! a = Some service ∧
         [0; 3]%R !! a = Some xa ∧ [0; 4]%R !! a = Some ya ∧
         [0; 3]%R !! b = Some xb ∧ [0; 4]%R !! b = Some yb ∧
         ts !! S k =
         Some (t + service + 10 * (1 / 2 + 1 / 5)
               + sqrt ((xa - xb) ^ 2 + (ya - yb) ^ 2) / 5)%R) ∧
    (∀ k t t', ts !! k = Some t → ts !! S k = Some t' → (t <= t')%R).
Proof.
  apply (drone_arrival_timestamps_spec [0; 3]%R [0; 4]%R [0; 5]%R LINEAR [drone1] []
           [0; 1; 0] 0 0%R drone1).
  - reflexivity.
  - reflexivity.
  - simpl. lra.
  - simpl. lra.
  - simpl. lra.
  - simpl. lra.
  - repeat constructor; simpl; try lia; eexists; (split; [reflexivity|lra]).
Defined.

(** A truck at 10 per time unit, slowed to a half every other hour. *)
Definition truck1 : TruckConfig := mkTruck 10 [1; 1 / 2]%R.

Lemma truck1_ok : truck_ok truck1.
Proof.
  split; [simpl; lra|]. split; [done|]. repeat constructor; lra.
Qed.

Lemma technician_arrival_timestamps_spec_witness :
  ∃ fuel0 ts,
    (∀ fuel, fuel0 ≤ fuel →
       calculate_technician_arrival_timestamps [0; 3]%R [0; 4]%R truck1 fuel [0; 1; 0]
       = Ok ts) ∧
    length ts = 3 ∧
    ts !! 0 = Some 0%R ∧
    (∀ k t t', ts !! k = Some t → ts !! S k = Some t' → (t <= t')%R) ∧
    (∀ k t, ts !! k = Some t →
       ∃ h within, (t = 3600 * INR h + within)%R ∧ (0 <= within < 3600)%R ∧
         covered truck1 h within = route_length [0; 3]%R [0; 4]%R (take (S k) [0; 1; 0])).
Proof.
  apply (technician_arrival_timestamps_spec [0; 3]%R [0; 4]%R truck1 [0; 1; 0]).
  - reflexivity.
  - repeat constructor; simpl; lia.
  - exact truck1_ok.
Defined.

(** Two drones, the second one idle, and one truck that stays at the depot. *)
Lemma init_with_idle_drone_witness :
  ∃ fuel0 s,
    (∀ fuel, fuel0 ≤ fuel →
       __init__ [0; 3]%R [0; 4]%R [0; 5]%R [0; 7]%R LINEAR truck1 [drone1] []
         fuel [[[0; 1; 0]]; []] [[0; 0]] None None None None None None = Ok s) ∧
    drone_timespans s !! 1 = Some 0%R ∧
    drone_waiting_times s !! 1 = Some [].
Proof.
  apply (init_with_idle_drone [0; 3]%R [0; 4]%R [0; 5]%R [0; 7]%R LINEAR truck1 [drone1] []
           [[[0; 1; 0]]; []] [[0; 0]] 1).
  - reflexivity.
  - intros [|[|drone]] paths Hpaths Hne; simpl in Hpaths; try discriminate.
    + exists drone1. split; [reflexivity|]. simpl. repeat split; lra.
    + injection Hpaths as <-. done.
  - repeat constructor; simpl; try lia; done.
  - repeat constructor; simpl; try lia; done.
  - exact truck1_ok.
Defined.

(** Two customers, the first one dronable, one drone and one truck. *)
Lemma initial_covers_customers_witness :
  ∃ fuel0 s,
    (∀ fuel, fuel0 ≤ fuel →
       initial 2 1 1 100 [0; 3; 6]%R [0; 4; 8]%R [0; 1; 1]%R [true; true; false]
         [0; 5; 5]%R [0; 7; 7]%R LINEAR truck1 [drone1] [] fuel = Ok s) ∧
    customers (concat (drone_paths s) ++ technician_paths s) ≡ₚ seq 1 2 ∧
    Forall (closed_route 2) (concat (drone_paths s) ++ technician_paths s) ∧
    Forall (Forall (route_dronable [true; true; false])) (drone_paths s) ∧
    Forall (Forall (λ route, 2 < length route ∧ ∃ c, c ∈ route ∧ c ≠ 0)) (drone_paths s).
Proof.
  apply (initial_covers_customers 2 1 1 100 [0; 3; 6]%R [0; 4; 8]%R [0; 1; 1]%R
           [true; true; false] [0; 5; 5]%R [0; 7; 7]%R LINEAR truck1 [drone1] []).
  - repeat split; simpl; lia.
  - intros drone Hdrone. assert (drone = 0) as -> by lia.
    exists drone1. split; [reflexivity|]. simpl. repeat split; lra.
  - exact truck1_ok.
  - lia.
  - lia.
Defined.

(** The route to the customer and back. *)
Definition route1 : list nat := [0; 1; 0].

Lemma flight_duration_closed_witness :
  calculate_drone_flight_duration [0; 3]%R [0; 4]%R [0; 5]%R LINEAR [drone1] []
    route1 (Some 0) None
  = Ok (service_sum [0; 5]%R (take (length route1 - 1) route1)
        + INR (length route1 - 1)
          * (altitude drone1 * (1 / takeoff_speed drone1 + 1 / landing_speed drone1))
        + route_length [0; 3]%R [0; 4]%R route1 / cruise_speed drone1)%R.
Proof.
  apply (flight_duration_closed [0; 3]%R [0; 4]%R [0; 5]%R LINEAR [drone1] []
           route1 0 drone1).
  - done.
  - reflexivity.
  - simpl. lra.
  - simpl. lra.
  - simpl. lra.
  - repeat constructor; simpl; lia.
Defined.

(** A truck at 10 per time unit all day. *)
Definition truck2 : TruckConfig := mkTruck 10 [1; 1]%R.

Lemma technician_arrival_constant_speed_witness :
  ∃ fuel0 ts,
    (∀ fuel, fuel0 ≤ fuel →
       calculate_technician_arrival_timestamps [0; 3]%R [0; 4]%R truck2 fuel route1
       = Ok ts) ∧
    length ts = length route1 ∧
    ∀ k t, ts !! k = Some t →
      t = (route_length [0; 3]%R [0; 4]%R (take (S k) route1)
           / (maximum_velocity truck2 * 1))%R.
Proof.
  apply (technician_arrival_constant_speed [0; 3]%R [0; 4]%R truck2 route1 1%R).
  - done.
  - repeat constructor.
  - lra.
  - simpl. lra.
  - done.
  - repeat constructor; simpl; lia.
Defined.

Lemma waiting_time_offset_free_witness :
  ∃ ts, calculate_drone_arrival_timestamps [0; 3]%R [0; 4]%R [0; 5]%R LINEAR [drone1] []
          route1 0 7%R = Ok ts ∧
    calculate_drone_total_waiting_time [0; 3]%R [0; 4]%R [0; 5]%R LINEAR [drone1] []
      route1 (Some 0) (Some ts)
    = foldlM (waiting_step [0; 5]%R ts) 0%R (enumerate route1).
Proof.
  apply (waiting_time_offset_free [0; 3]%R [0; 4]%R [0; 5]%R LINEAR [drone1] []
           route1 0 7%R drone1).
  - done.
  - reflexivity.
  - simpl. lra.
  - simpl. lra.
  - simpl. lra.
  - repeat constructor; simpl; lia.
Defined.

Lemma drone_timespan_total_witness :
  ∃ fuel0 s,
    (∀ fuel, fuel0 ≤ fuel →
       __init__ [0; 3]%R [0; 4]%R [0; 5]%R [0; 7]%R LINEAR truck1 [drone1] []
         fuel [[route1; route1]; []] [[0; 0]] None None None None None None = Ok s) ∧
    ∀ drone paths config,
      [[route1; route1]; []] !! drone = Some paths →
      drone_config LINEAR [drone1] [] drone = Ok config →
      drone_timespans s !! drone
      = Some (total_duration [0; 3]%R [0; 4]%R [0; 5]%R config paths).
Proof.
  apply (drone_timespan_total [0; 3]%R [0; 4]%R [0; 5]%R [0; 7]%R LINEAR truck1 [drone1] []
           [[route1; route1]; []] [[0; 0]]).
  - intros [|[|drone]] paths Hpaths Hne; simpl in Hpaths; try discriminate.
    + exists drone1. split; [reflexivity|]. simpl. repeat split; lra.
    + injection Hpaths as <-. done.
  - repeat constructor; simpl; try lia; done.
  - repeat constructor; simpl; try lia; done.
  - exact truck1_ok.
Defined.

End D2D.
